(** * Flashcards-App: the scheduler (scheduler.js) and the store (db.js)

    A shallow embedding of the spaced-repetition scheduler, of the
    Dexie-backed store and of what the view handlers of app.js do to the
    store, with the properties of the specification stated and settled
    against it, followed by further properties read off the code.

    Modelling conventions.
    - JavaScript numbers: whole-number fields ([interval], [reps],
      [lapses], ids, millisecond timestamps) are [Z]; [ease] is a
      rational [Q].  The counters [reps] and [lapses] are incremented
      as doubles ([js_add]: exact up to 2^53, rounded beyond); the ease
      and the products under [Math.round] are exact rationals, and
      [Math.round x] is [floor (x + 1/2)].
    - A [Date] is its time value in milliseconds, within the range of
      [Date]; [setDate(getDate() + n)] is taken in a time zone without
      clock shifts, where it adds [n * 86400000] ms.
    - A property that may be absent or [null] is a [js A] value.
    - JavaScript strings are [string]s of 8-bit code units; case mapping
      and white space follow ASCII / Latin-1.
    - [throw new Error(msg)] is the [Throw (Error msg)] result.
    - A Dexie table with a [++id] primary key is the list of its
      (key, row) pairs in key order together with the next key of its
      generator; the [id] property of a stored object is that key.
    - The clock ([new Date()], [Date.now()]) is an explicit argument. *)

From Stdlib Require Import ZArith QArith Qround Lqa Lia String Ascii.
From stdpp Require Import base list strings gmap sorting.

Local Open Scope Z_scope.

(** ** JavaScript values *)

Inductive js (A : Type) : Type :=
  | undefined
  | null
  | val (a : A).
Arguments undefined {A}.
Arguments null {A}.
Arguments val {A} a.

(** [x || d] on a whole number: [undefined], [null] and [0] are falsy. *)
Definition or_Z (x : js Z) (d : Z) : Z :=
  match x with
  | val n => if n =? 0 then d else n
  | _ => d
  end.

(** [x || d] on a fractional number. *)
Definition or_Q (x : js Q) (d : Q) : Q :=
  match x with
  | val q => if Qeq_bool q 0 then d else q
  | _ => d
  end.

(** [x ?? d]: only [undefined] and [null] are replaced. *)
Definition nullish {A} (x : js A) (d : A) : A :=
  match x with
  | val a => a
  | _ => d
  end.

Definition Math_max (x y : Q) : Q := if Qle_bool x y then y else x.
Definition Math_min (x y : Q) : Q := if Qle_bool x y then x else y.
Definition Math_round (x : Q) : Z := Qfloor (x + 0.5).

(** The whole number a double holds for the exact whole number [x]: [x]
    itself up to 2^53 in size, and beyond that the nearest multiple of
    the spacing of the doubles around [x], a tie going to the even
    multiple.  The overflow to [Infinity] from 2^1024 on is not
    modelled. *)
Definition fl (x : Z) : Z :=
  let a := Z.abs x in
  if a <? 2 ^ 53 then x
  else
    let ulp := 2 ^ (Z.log2 a - 52) in
    let q := a / ulp in
    let r := a mod ulp in
    let q' :=
      if 2 * r <? ulp then q
      else if ulp <? 2 * r then q + 1
      else if Z.even q then q else q + 1 in
    Z.sgn x * (q' * ulp).
Arguments fl : simpl never.

(** [a + b] on whole numbers held in doubles. *)
Definition js_add (a b : Z) : Z := fl (a + b).

Inductive exn : Type := Error (message : string).

Inductive result (A : Type) : Type :=
  | Ok (a : A)
  | Throw (e : exn).
Arguments Ok {A} a.
Arguments Throw {A} e.

(** ** Cards *)

Inductive CardState : Type := st_new | st_review | st_suspended.

#[global] Instance CardState_eq_dec : EqDecision CardState.
Proof. solve_decision. Defined.

(** Milliseconds in a day; [Date.setDate(getDate() + n)] moves a date by
    [n] calendar days, which is [n * day_ms] in a zone without clock
    shifts. *)
Definition day_ms : Z := 86400000.

Record Card : Type := mkCard {
  card_deckId : option Z;
  card_noteId : option Z;
  card_due : Z;
  card_interval : js Z;
  card_ease : js Q;
  card_reps : js Z;
  card_lapses : js Z;
  card_state : CardState
}.

(** ** scheduler.js *)

Module Scheduler.

(** [schedule(card, grade, nowDate)].  The [let]s shadow one another in
    the order of the assignments in the [switch]. *)
Definition schedule (card : Card) (grade : string) (nowDate : Z) : result Card :=
  let c := card in
  let interval := or_Z (card_interval c) 0 in
  let ease := or_Q (card_ease c) 2.5 in
  let reps := or_Z (card_reps c) 0 in
  let lapses := or_Z (card_lapses c) 0 in
  let finish (interval : Z) (ease : Q) (reps lapses : Z) : result Card :=
    let due := nowDate + interval * day_ms in
    Ok {| card_deckId := card_deckId c;
          card_noteId := card_noteId c;
          card_due := due;
          card_interval := val interval;
          card_ease := val ease;
          card_reps := val reps;
          card_lapses := val lapses;
          card_state := st_review |} in
  if String.eqb grade "again" then
    let lapses := js_add lapses 1 in
    let reps := 0 in
    let ease := Math_max 1.3 (ease - 0.2) in
    let interval := 1 in
    finish interval ease reps lapses
  else if String.eqb grade "hard" then
    let ease := Math_max 1.3 (ease - 0.15) in
    let interval :=
      Z.max 1 (Math_round (inject_Z (Z.max 1 interval) * 1.2)) in
    let reps := js_add reps 1 in
    finish interval ease reps lapses
  else if String.eqb grade "good" then
    let interval :=
      if reps =? 0 then 1
      else if reps =? 1 then 6
      else Z.max 1 (Math_round (inject_Z interval * ease)) in
    let reps := js_add reps 1 in
    finish interval ease reps lapses
  else if String.eqb grade "easy" then
    let ease := Math_min 3.5 (ease + 0.15) in
    let interval :=
      if reps =? 0 then 4
      else Z.max 1 (Math_round (inject_Z interval * (ease + 0.2))) in
    let reps := js_add reps 1 in
    finish interval ease reps lapses
  else Throw (Error "Unknown grade").

Definition is_grade (g : string) : Prop :=
  g = "again"%string \/ g = "hard"%string \/ g = "good"%string \/ g = "easy"%string.

(** Grading a card several times in a row, as the Study view does. *)
Fixpoint review (c : Card) (grades : list string) (nowDate : Z) : result Card :=
  match grades with
  | [] => Ok c
  | g :: gs =>
      match schedule c g nowDate with
      | Ok c' => review c' gs nowDate
      | Throw e => Throw e
      end
  end.

(** The checks of [schedulerTests], run on load by the source. *)
Definition base : Card :=
  {| card_deckId := None; card_noteId := None;
     card_due := 0; card_interval := val 0; card_ease := val 2.5%Q;
     card_reps := val 0; card_lapses := val 0; card_state := st_new |}.

(** [x === n] on a whole-number property. *)
Definition strict_eq (x : js Z) (n : Z) : bool :=
  match x with
  | val m => m =? n
  | _ => false
  end.

(** [x <= y] on two numeric properties: [undefined] converts to NaN,
    which compares false, and [null] to 0. *)
Definition js_le (x y : js Q) : bool :=
  match x, y with
  | undefined, _ | _, undefined => false
  | _, _ => Qle_bool (nullish x 0%Q) (nullish y 0%Q)
  end.

(** [_assert(name, cond)]; the line it logs is not modelled. *)
Definition _assert (name : string) (cond : bool) : result unit :=
  if cond then Ok tt else Throw (Error ("Test failed: " ++ name)).

Definition and_then {A B} (r : result A) (k : A → result B) : result B :=
  match r with
  | Ok a => k a
  | Throw e => Throw e
  end.

(** [new Date('2025-01-01')] and the like, in milliseconds. *)
Definition date_2025_01_01 : Z := 1735689600000.
Definition date_2025_01_02 : Z := 1735776000000.
Definition date_2025_01_08 : Z := 1736294400000.

(** The function [schedulerTests] that the script calls when it loads;
    [now] is the clock reading that [base.due] takes. *)
Definition schedulerTests (now : Z) : result unit :=
  let base :=
    {| card_deckId := None; card_noteId := None;
       card_due := now; card_interval := val 0; card_ease := val 2.5%Q;
       card_reps := val 0; card_lapses := val 0; card_state := st_new |} in
  and_then (schedule base "good" date_2025_01_01) (λ c1,
  and_then (_assert "new good -> int=1"
              (strict_eq (card_interval c1) 1 && strict_eq (card_reps c1) 1)) (λ _,
  and_then (schedule c1 "good" date_2025_01_02) (λ c2,
  and_then (_assert "2nd good -> int=6"
              (strict_eq (card_interval c2) 6 && strict_eq (card_reps c2) 2)) (λ _,
  and_then (schedule c2 "again" date_2025_01_08) (λ c3,
  and_then (_assert "again -> int=1,reps=0,lapses=1"
              (strict_eq (card_interval c3) 1 && strict_eq (card_reps c3) 0
               && strict_eq (card_lapses c3) 1)) (λ _,
  and_then (schedule base "easy" date_2025_01_01) (λ c4,
  and_then (_assert "new easy -> int=4"
              (strict_eq (card_interval c4) 4 && strict_eq (card_reps c4) 1)) (λ _,
  let e0 := card_ease c2 in
  and_then (schedule c2 "hard" date_2025_01_02) (λ c5,
  _assert "hard lowers ease" (js_le (card_ease c5) e0)))))))))).

End Scheduler.


(** ** Store entities (db.js) *)

Record Deck : Type := mkDeck {
  deck_name : string;
  deck_createdAt : Z
}.

Record Fields : Type := mkFields {
  front : js string;
  back : js string
}.

Record Note : Type := mkNote {
  note_deckId : option Z;
  note_fields : js Fields;
  note_createdAt : Z;
  note_updatedAt : Z
}.

(** ** Dexie tables *)

Record Table (A : Type) : Type := mkTable {
  rows : list (Z * A);
  next_id : Z
}.
Arguments mkTable {A} rows next_id.
Arguments rows {A} t.
Arguments next_id {A} t.

Module Dexie.
Section Ops.
Context {A : Type}.

Definition empty : Table A := mkTable [] 1.

(** [table.add(obj)]: the key generator supplies the primary key. *)
Definition add (x : A) (t : Table A) : Z * Table A :=
  let k := next_id t in
  (k, mkTable (rows t ++ [(k, x)]) (k + 1)).

Definition toArray (t : Table A) : list (Z * A) := rows t.

(** [table.delete(key)]; an absent key is not an error. *)
Definition delete (k : Z) (t : Table A) : Table A :=
  mkTable (filter (λ r, r.1 ≠ k) (rows t)) (next_id t).

(** [table.update(key, changes)]; the count it resolves to is not
    modelled (no caller reads it). *)
Definition update (k : Z) (changes : A → A) (t : Table A) : Table A :=
  mkTable ((λ r, if decide (r.1 = k) then (r.1, changes r.2) else r) <$> rows t)
          (next_id t).

(** [table.where(index).equals(v)]: rows whose indexed property is
    present and equal to [v], in primary-key order. *)
Definition where_equals {K} `{EqDecision K}
    (index : A → option K) (v : K) (t : Table A) : list (Z * A) :=
  filter (λ r, index r.2 = Some v) (rows t).

(** [table.where(index).equals(v).delete()]. *)
Definition where_equals_delete {K} `{EqDecision K}
    (index : A → option K) (v : K) (t : Table A) : Table A :=
  mkTable (filter (λ r, index r.2 ≠ Some v) (rows t)) (next_id t).

Definition keys (t : Table A) : list Z := fst <$> rows t.
End Ops.
End Dexie.

Record Store : Type := mkStore {
  decks : Table Deck;
  notes : Table Note;
  cards : Table Card
}.

Definition empty_store : Store :=
  mkStore Dexie.empty Dexie.empty Dexie.empty.

(** ** Store operations as state transformers that may throw *)

Definition db (A : Type) : Type := Store → result A * Store.

Definition ret {A} (a : A) : db A := λ s, (Ok a, s).

Definition bind {A B} (m : db A) (k : A → db B) : db B :=
  λ s, match m s with
       | (Ok a, s') => k a s'
       | (Throw e, s') => (Throw e, s')
       end.

Definition throw {A} (e : exn) : db A := λ s, (Throw e, s).

Notation "x <- m ;; k" := (bind m (λ x, k))
  (at level 100, m at next level, right associativity).
Notation "m ;;; k" := (bind m (λ _, k))
  (at level 100, right associativity).

(** [db.transaction('rw', ..., body)]: all of [body] or none of it. *)
Definition transaction {A} (body : db A) : db A :=
  λ s, match body s with
       | (Ok a, s') => (Ok a, s')
       | (Throw e, _) => (Throw e, s)
       end.

(** [for (const x of xs) await body(x)] *)
Fixpoint for_of {A} (xs : list A) (body : A → db unit) : db unit :=
  match xs with
  | [] => ret tt
  | x :: xs' => body x ;;; for_of xs' body
  end.

Definition read {A} (f : Store → A) : db A := λ s, (Ok (f s), s).

Definition on_decks {A} (f : Table Deck → A * Table Deck) : db A :=
  λ s, let '(a, t) := f (decks s) in (Ok a, mkStore t (notes s) (cards s)).
Definition on_notes {A} (f : Table Note → A * Table Note) : db A :=
  λ s, let '(a, t) := f (notes s) in (Ok a, mkStore (decks s) t (cards s)).
Definition on_cards {A} (f : Table Card → A * Table Card) : db A :=
  λ s, let '(a, t) := f (cards s) in (Ok a, mkStore (decks s) (notes s) t).

Definition exec {A} (m : db A) (s : Store) : Store := (m s).2.
Definition outcome {A} (m : db A) (s : Store) : result A := (m s).1.

(** Loop with a local accumulator (a [Map] filled while iterating). *)
Fixpoint fold_of {A B} (xs : list A) (acc : B) (body : B → A → db B) : db B :=
  match xs with
  | [] => ret acc
  | x :: xs' => acc' <- body acc x ;; fold_of xs' acc' body
  end.

(** ** String primitives used by the CSV code *)

Module JsString.
Local Open Scope string_scope.

Definition dquote : ascii := "034"%char.
Definition LF : ascii := "010"%char.
Definition CR : ascii := "013"%char.
Definition comma : ascii := ","%char.

(** [arr.join(sep)] *)
Fixpoint join (sep : string) (l : list string) : string :=
  match l with
  | [] => ""
  | x :: l' =>
      match l' with
      | [] => x
      | _ => x ++ sep ++ join sep l'
      end
  end.

(** [s.replaceAll(q, q + q)] for the double-quote character [q] *)
Fixpoint double_quotes (s : string) : string :=
  match s with
  | "" => ""
  | String c r =>
      if Ascii.eqb c dquote then String dquote (String dquote (double_quotes r))
      else String c (double_quotes r)
  end.

(** [s.replaceAll(q, '')] *)
Fixpoint remove_quotes (s : string) : string :=
  match s with
  | "" => ""
  | String c r =>
      if Ascii.eqb c dquote then remove_quotes r else String c (remove_quotes r)
  end.

(** [s.replaceAll(q + q, q)]: matches are found left to right and do
    not overlap. *)
Fixpoint undouble_quotes (s : string) : string :=
  match s with
  | "" => ""
  | String c r =>
      if Ascii.eqb c dquote then
        match r with
        | String c2 r2 =>
            if Ascii.eqb c2 dquote then String dquote (undouble_quotes r2)
            else String c (undouble_quotes r)
        | "" => String c ""
        end
      else String c (undouble_quotes r)
  end.

(** Code points with a lower-case partner in U+0000..U+00FF. *)
Definition lower_char (c : ascii) : ascii :=
  let n := N_of_ascii c in
  if ((65 <=? n) && (n <=? 90) || (192 <=? n) && (n <=? 214)
      || (216 <=? n) && (n <=? 222))%N
  then ascii_of_N (n + 32) else c.

Fixpoint toLowerCase (s : string) : string :=
  match s with
  | "" => ""
  | String c r => String (lower_char c) (toLowerCase r)
  end.

(** White space and line terminators of [String.prototype.trim] in
    U+0000..U+00FF: TAB, LF, VT, FF, CR, SP, NBSP. *)
Definition is_space (c : ascii) : bool :=
  let n := N_of_ascii c in
  ((9 <=? n) && (n <=? 13) || (n =? 32) || (n =? 160))%N.

Fixpoint trimStart (s : string) : string :=
  match s with
  | "" => ""
  | String c r => if is_space c then trimStart r else s
  end.

Fixpoint trimEnd (s : string) : string :=
  match s with
  | "" => ""
  | String c r =>
      match trimEnd r with
      | "" => if is_space c then "" else String c ""
      | r' => String c r'
      end
  end.

Definition trim (s : string) : string := trimEnd (trimStart s).

Definition startsWith (c : ascii) (s : string) : bool :=
  match s with
  | String c' _ => Ascii.eqb c' c
  | "" => false
  end.

Fixpoint endsWith (c : ascii) (s : string) : bool :=
  match s with
  | "" => false
  | String c' "" => Ascii.eqb c' c
  | String _ r => endsWith c r
  end.

Fixpoint drop_last (s : string) : string :=
  match s with
  | "" => ""
  | String _ "" => ""
  | String c r => String c (drop_last r)
  end.

(** [s.slice(1, -1)] *)
Definition slice_1_m1 (s : string) : string :=
  match s with
  | "" => ""
  | String _ r => drop_last r
  end.

(** [s.split(/\r?\n/)] *)
Fixpoint split_lines (s : string) : list string :=
  match s with
  | "" => [""]
  | String c r =>
      if Ascii.eqb c LF then "" :: split_lines r
      else
        let keep :=
          match split_lines r with
          | l :: ls => String c l :: ls
          | [] => [String c ""]
          end in
        if Ascii.eqb c CR then
          match r with
          | String c2 r2 =>
              if Ascii.eqb c2 LF then "" :: split_lines r2 else keep
          | "" => keep
          end
        else keep
  end.

(** [p] is a prefix of [s]: the rest of [s]. *)
Fixpoint strip_prefix (p s : string) : option string :=
  match p, s with
  | "", _ => Some s
  | String a p', String b s' =>
      if Ascii.eqb a b then strip_prefix p' s' else None
  | String _ _, "" => None
  end.

(** [,?] *)
Definition opt_comma (s : string) : string :=
  match s with
  | String c r => if Ascii.eqb c comma then r else s
  | "" => s
  end.

(** [/^deckName,?front,?back/i.test(s)].  Under [/i] a letter of the
    pattern matches both of its cases, so the pattern is matched in
    lower case against the lower-cased subject. *)
Definition header_re_test (s : string) : bool :=
  match strip_prefix "deckname" (toLowerCase s) with
  | None => false
  | Some s1 =>
      match strip_prefix "front" (opt_comma s1) with
      | None => false
      | Some s2 =>
          match strip_prefix "back" (opt_comma s2) with
          | None => false
          | Some _ => true
          end
      end
  end.

(** [x || d] on a possibly absent string. *)
Definition or_str (x : option string) (d : string) : string :=
  match x with
  | Some s => if String.eqb s "" then d else s
  | None => d
  end.
End JsString.

(** ** db.js: CRUD helpers *)

(** The properties a caller of [updateCard] sends: [table.update] sets
    every property of the patch on the stored card, its [deckId] and
    [noteId] included, and an absent property leaves the stored one as it
    is.  The Study view sends the six scheduling properties. *)
Record CardPatch : Type := mkPatch {
  patch_deckId : option (option Z);
  patch_noteId : option (option Z);
  patch_ease : option (js Q);
  patch_interval : option (js Z);
  patch_reps : option (js Z);
  patch_lapses : option (js Z);
  patch_due : option Z;
  patch_state : option CardState
}.

(** Objects of an import snapshot; [id] properties may be absent. *)
Record SDeck : Type := mkSDeck {
  sd_id : option Z;
  sd_name : string;
  sd_createdAt : js Z
}.

Record SNote : Type := mkSNote {
  sn_id : option Z;
  sn_deckId : option Z;
  sn_fields : js Fields;
  sn_createdAt : js Z;
  sn_updatedAt : js Z
}.

Record SCard : Type := mkSCard {
  sc_deckId : option Z;
  sc_noteId : option Z;
  sc_due : js Z;
  sc_interval : js Z;
  sc_ease : js Q;
  sc_reps : js Z;
  sc_lapses : js Z;
  sc_state : js CardState
}.

Record Snapshot : Type := mkSnapshot {
  obj_decks : js (list SDeck);
  obj_notes : js (list SNote);
  obj_cards : js (list SCard)
}.



Record CsvRow : Type := mkCsvRow {
  deckName : string;
  row_front : string;
  row_back : string
}.

Module Db.
Import JsString.

(** DECKS *)
Definition createDeck (name : string) (now : Z) : db Z :=
  id <- on_decks (Dexie.add {| deck_name := name; deck_createdAt := now |}) ;;
  ret id.

Definition getDecks : db (list (Z * Deck)) :=
  read (λ s, Dexie.toArray (decks s)).

Definition renameDeck (id : Z) (name : string) : db unit :=
  on_decks (λ t,
    (tt, Dexie.update id
           (λ d, {| deck_name := name; deck_createdAt := deck_createdAt d |}) t)).

Definition deleteDeck (id : Z) : db unit :=
  transaction (
    on_cards (λ t, (tt, Dexie.where_equals_delete card_deckId id t)) ;;;
    on_notes (λ t, (tt, Dexie.where_equals_delete note_deckId id t)) ;;;
    on_decks (λ t, (tt, Dexie.delete id t))).

(** NOTES + CARDS *)
Definition createNote (deckId : Z) (fields : js Fields) (now : Z) : db (Z * Z) :=
  let fields :=
    match fields with
    | undefined => val {| front := val ""%string; back := val ""%string |}
    | _ => fields
    end in
  let createdAt := now in
  noteId <- on_notes (Dexie.add
    {| note_deckId := Some deckId; note_fields := fields;
       note_createdAt := createdAt; note_updatedAt := createdAt |}) ;;
  let card :=
    {| card_deckId := Some deckId;
       card_noteId := Some noteId;
       card_due := createdAt;
       card_interval := val 0;
       card_ease := val 2.5%Q;
       card_reps := val 0;
       card_lapses := val 0;
       card_state := st_new |} in
  cardId <- on_cards (Dexie.add card) ;;
  ret (noteId, cardId).

Definition updateNote (noteId : Z) (fields : js Fields) (now : Z) : db unit :=
  transaction (
    on_notes (λ t,
      (tt, Dexie.update noteId
             (λ n, {| note_deckId := note_deckId n; note_fields := fields;
                      note_createdAt := note_createdAt n;
                      note_updatedAt := now |}) t))).

Definition deleteNote (noteId : Z) : db unit :=
  transaction (
    on_cards (λ t, (tt, Dexie.where_equals_delete card_noteId noteId t)) ;;;
    on_notes (λ t, (tt, Dexie.delete noteId t))).

Definition getNotesByDeck (deckId : Z) : db (list (Z * Note)) :=
  read (λ s, reverse (Dexie.where_equals note_deckId deckId (notes s))).

(** CARDS (queries and updates) *)
Definition getDueCards (deckId : Z) (limit : option nat) (nowMs : Z)
  : db (list (Z * Card)) :=
  let limit := default 50%nat limit in
  read (λ s,
    take limit
      (filter (λ r, card_due r.2 ≤ nowMs ∧ card_state r.2 ≠ st_suspended)
         (Dexie.where_equals card_deckId deckId (cards s)))).

(** [arr[i]] for a whole number [i]: [undefined] outside the array. *)
Definition array_get {A} (arr : list A) (i : Z) : js A :=
  if i <? 0 then undefined
  else match arr !! Z.to_nat i with
       | Some x => val x
       | None => undefined
       end.

(** [getRandomDueCard(deckId)]; [random] is what [Math.random()]
    returns, a number in [0, 1). *)
Definition getRandomDueCard (deckId : Z) (nowMs : Z) (random : Q)
    : db (js (Z * Card)) :=
  due <- getDueCards deckId (Some 100%nat) nowMs ;;
  if (length due =? 0)%nat then ret null
  else ret (array_get due
              (Qfloor (random * inject_Z (Z.of_nat (length due))))).

Definition apply_patch (p : CardPatch) (c : Card) : Card :=
  {| card_deckId := default (card_deckId c) (patch_deckId p);
     card_noteId := default (card_noteId c) (patch_noteId p);
     card_due := default (card_due c) (patch_due p);
     card_interval := default (card_interval c) (patch_interval p);
     card_ease := default (card_ease c) (patch_ease p);
     card_reps := default (card_reps c) (patch_reps p);
     card_lapses := default (card_lapses c) (patch_lapses p);
     card_state := default (card_state c) (patch_state p) |}.

Definition updateCard (cardId : Z) (patch : CardPatch) : db unit :=
  on_cards (λ t, (tt, Dexie.update cardId (apply_patch patch) t)).

(** Export / Import *)


(** [d ? new Date(d) : now()] for a date that is absent or an ISO
    string. *)
Definition date_or_now (d : js Z) (now : Z) : Z :=
  match d with
  | val t => t
  | _ => now
  end.

Definition importJSON (obj : js Snapshot) (now : Z) : db unit :=
  match obj with
  | val o =>
      match obj_decks o, obj_notes o, obj_cards o with
      | val ds, val ns, val cs =>
          transaction (
            deckIdMap <- fold_of ds (∅ : gmap (option Z) Z) (λ deckIdMap d,
              newId <- on_decks (Dexie.add
                {| deck_name := sd_name d;
                   deck_createdAt := date_or_now (sd_createdAt d) now |}) ;;
              ret (<[sd_id d := newId]> deckIdMap)) ;;
            noteIdMap <- fold_of ns (∅ : gmap (option Z) Z) (λ noteIdMap n,
              newId <- on_notes (Dexie.add
                {| note_deckId := deckIdMap !! sn_deckId n;
                   note_fields := sn_fields n;
                   note_createdAt := date_or_now (sn_createdAt n) now;
                   note_updatedAt := date_or_now (sn_updatedAt n) now |}) ;;
              ret (<[sn_id n := newId]> noteIdMap)) ;;
            for_of cs (λ c,
              _ <- on_cards (Dexie.add
                {| card_deckId := deckIdMap !! sc_deckId c;
                   card_noteId := noteIdMap !! sc_noteId c;
                   card_due := date_or_now (sc_due c) now;
                   card_interval := val (nullish (sc_interval c) 0);
                   card_ease := val (nullish (sc_ease c) 2.5%Q);
                   card_reps := val (nullish (sc_reps c) 0);
                   card_lapses := val (nullish (sc_lapses c) 0);
                   card_state := nullish (sc_state c) st_new |}) ;;
              ret tt))
      | _, _, _ => throw (Error "Invalid JSON format")
      end
  | _ => throw (Error "Invalid JSON format")
  end.

(** CSV: deckName,front,back.  [String(v ?? '')] is [v] itself for the
    strings that [exportCSV] passes. *)
Definition escape (v : string) : string :=
  (String dquote (double_quotes v) ++ String dquote "")%string.

Definition objectsToCSV (rows : list CsvRow) : string :=
  let header := ["deckName"; "front"; "back"]%string in
  let lines :=
    [join "," header] ++
    ((λ r, join "," (escape <$> [deckName r; row_front r; row_back r])) <$> rows) in
  join (String LF "") lines.

Definition exportCSV : db string :=
  decks <- read (λ s, Dexie.toArray (decks s)) ;;
  let deckById : gmap Z Deck :=
    foldl (λ m d, <[d.1 := d.2]> m) ∅ decks in
  notes <- read (λ s, Dexie.toArray (notes s)) ;;
  let rows :=
    (λ n : Z * Note,
       {| deckName :=
            match note_deckId n.2 ≫= (deckById !!.) with
            | Some d => deck_name d
            | None => "Unknown"%string
            end;
          row_front :=
            match note_fields n.2 with
            | val f => nullish (front f) ""%string
            | _ => ""%string
            end;
          row_back :=
            match note_fields n.2 with
            | val f => nullish (back f) ""%string
            | _ => ""%string
            end |}) <$> notes in
  ret (objectsToCSV rows).

Definition parseCell (s : string) : string :=
  let s := trim s in
  if startsWith dquote s && endsWith dquote s
  then undouble_quotes (slice_1_m1 s)
  else s.

(** The character loop of [importCSV]: [line] is what is left to read
    from index [i] on. *)
Fixpoint split_cells (line : string) (parts : list string) (cur : string)
    (inQ : bool) : list string :=
  match line with
  | ""%string => parts ++ [cur]
  | String ch rest =>
      if Ascii.eqb ch dquote then
        match rest with
        | String ch2 rest2 =>
            if Ascii.eqb ch2 dquote
            then split_cells rest2 parts (cur ++ String dquote "")%string inQ
            else split_cells rest parts cur (negb inQ)
        | ""%string => split_cells rest parts cur (negb inQ)
        end
      else if Ascii.eqb ch comma && negb inQ
      then split_cells rest (parts ++ [cur]) ""%string inQ
      else split_cells rest parts (cur ++ String ch "")%string inQ
  end.

Definition getOrCreateDeckId (name : string) (now : Z) : db Z :=
  existing <- read (λ s,
    head (Dexie.where_equals (λ d, Some (deck_name d)) name (decks s))) ;;
  match existing with
  | Some d => ret d.1
  | None => createDeck name now
  end.

Definition header_error : exn := Error "CSV header must be: deckName,front,back".

Definition importCSV (text : string) (now : Z) : db unit :=
  let lines := filter (λ l, l ≠ ""%string) (split_lines text) in
  match lines with
  | [] => throw header_error
  | header :: lines =>
      if negb (header_re_test (toLowerCase (remove_quotes header)))
      then throw header_error
      else
        for_of lines (λ line,
          let parts := split_cells line [] ""%string false in
          let cells := parseCell <$> parts in
          deckId <- getOrCreateDeckId (or_str (cells !! 0%nat) "Imported") now ;;
          _ <- createNote deckId
                 (val {| front := val (or_str (cells !! 1%nat) "");
                         back := val (or_str (cells !! 2%nat) "") |}) now ;;
          ret tt)
  end.
End Db.

(** ** app.js: what the view handlers do to the store *)

Module App.
Import Db.

(** [deckStats(deckId)]: the counts shown in the deck list. *)
Definition deckStats (deckId : Z) (now : Z) : db (nat * nat) :=
  due <- getDueCards deckId (Some (Z.to_nat 9999)) now ;;
  notes <- getNotesByDeck deckId ;;
  ret (length due, length notes).

(** The click handler of the response buttons, up to its [updateCard];
    [currentCard] is the card the Study view holds, if any. *)
Definition answer (currentCard : option (Z * Card)) (grade : string) (now : Z)
    : db unit :=
  match currentCard with
  | None => ret tt
  | Some (id, card) =>
      match Scheduler.schedule card grade now with
      | Throw e => throw e
      | Ok updated =>
          updateCard id
            {| patch_deckId := None;
               patch_noteId := None;
               patch_ease := Some (card_ease updated);
               patch_interval := Some (card_interval updated);
               patch_reps := Some (card_reps updated);
               patch_lapses := Some (card_lapses updated);
               patch_due := Some (card_due updated);
               patch_state := Some (card_state updated) |}
      end
  end.


(** The click handler of [#add-deck-btn]; [value] is the text of the
    name input.  The result is the message of the [alert], if any. *)
Definition addDeck (value : string) (now : Z) : db (option string) :=
  let name := JsString.trim value in
  if String.eqb name "" then ret (Some "Enter deck name"%string)
  else createDeck name now ;;; ret None.

(** The click handler of [#save-note-btn]; [deckId] is the number read
    from the deck selector, [frontValue] and [backValue] the texts of the
    two inputs. *)
Definition saveNote (deckId : Z) (frontValue backValue : string) (now : Z)
    : db (option string) :=
  let front := JsString.trim frontValue in
  let back := JsString.trim backValue in
  if deckId =? 0 then ret (Some "Choose a deck first"%string)
  else if String.eqb front "" && String.eqb back ""
  then ret (Some "Enter front/back"%string)
  else createNote deckId (val {| front := val front; back := val back |}) now ;;;
       ret None.



End App.

(** * Specification vocabulary *)

Section Vocabulary.
Import Scheduler Db JsString.

(** ** Scheduler *)







(** C3 as stated: 'again' on any valid card counts one more lapse. *)
Definition again_counts_every_lapse : Prop :=
  forall (c : Card) (now : Z) (e : Q) (i r l : Z),
    card_ease c = val e -> (1.3 <= e)%Q ->
    card_interval c = val i -> 0 <= i ->
    card_reps c = val r -> 0 <= r ->
    card_lapses c = val l -> 0 <= l ->
    exists c' e',
      schedule c "again" now = Ok c' /\
      card_ease c' = val e' /\ (1.3 <= e')%Q /\
      card_interval c' = val 1 /\
      card_reps c' = val 0 /\
      card_lapses c' = val (l + 1) /\
      card_state c' = st_review.

(** A card that has lapsed 2^53 times. *)
Definition card_lapsed_2_53 : Card :=
  {| card_deckId := None; card_noteId := None; card_due := 0;
     card_interval := val 1; card_ease := val 1.3%Q;
     card_reps := val 0; card_lapses := val (2 ^ 53);
     card_state := st_review |}.

(** The interval the specification's table gives for 'easy' on a card
    with earlier successful reviews, from the ease the card came in
    with. *)
Definition easy_interval_pre_update (interval : Z) (ease : Q) : Z :=
  Z.max 1 (Math_round (inject_Z interval * (ease + 0.2))).

(** A card on its third review, and one whose ease was stored as 0. *)
Definition card_2_5_100 : Card :=
  {| card_deckId := None; card_noteId := None; card_due := 0;
     card_interval := val 100; card_ease := val 2.5%Q;
     card_reps := val 2; card_lapses := val 0; card_state := st_review |}.


(** ** Store *)

(** The card and the note that [createNote] stores. *)
Definition new_card (deckId noteId createdAt : Z) : Card :=
  {| card_deckId := Some deckId; card_noteId := Some noteId;
     card_due := createdAt; card_interval := val 0; card_ease := val 2.5%Q;
     card_reps := val 0; card_lapses := val 0; card_state := st_new |}.

Definition deck_exists (s : Store) (deckId : Z) : Prop :=
  deckId ∈ Dexie.keys (decks s).

(** C2 as stated: [createNote] on a [deckId] without a Deck fails. *)
Definition createNote_rejects_absent_deck : Prop :=
  forall s deckId fields now,
    ~ deck_exists s deckId ->
    exists e, outcome (createNote deckId fields now) s = Throw e.

(** A key that is missing from an object, or [null]. *)
Definition absent {A} (x : js A) : Prop := x = undefined \/ x = null.

Definition snapshot_without_cards : Snapshot :=
  {| obj_decks := val [ {| sd_id := Some 1; sd_name := "D"; sd_createdAt := undefined |} ];
     obj_notes := val [];
     obj_cards := undefined |}.

(** ** CSV header *)

(** The first non-empty line of the text, if any. *)
Definition header_of (text : string) : option string :=
  head (filter (λ l, l ≠ "") (split_lines text)).

Definition normalize_header (h : string) : string :=
  toLowerCase (remove_quotes h).

(** The specification's reading: without its quotes and in lower case
    the header is the three column names, comma separated. *)
Definition header_matches_spec (h : string) : Prop :=
  normalize_header h = "deckname,front,back".

(** What the regular expression accepts: the three names in this order,
    each comma optional, anything after. *)
Inductive header_shape : string → Prop :=
  | header_shape_intro (c1 c2 rest : string) :
      c1 ∈ [""; ","] → c2 ∈ [""; ","] →
      header_shape ("deckname" +:+ c1 +:+ "front" +:+ c2 +:+ "back" +:+ rest).

(** C8 as stated: every header that is not [deckName,front,back] up to
    case and quoting is rejected. *)
Definition importCSV_rejects_other_headers : Prop :=
  forall text now s h,
    header_of text = Some h -> ~ header_matches_spec h ->
    outcome (importCSV text now) s = Throw header_error.

(** ** Referential integrity *)

(** Keys are unique and below the generator's next key. *)
Definition table_wf {A} (t : Table A) : Prop :=
  NoDup (Dexie.keys t) /\ Forall (λ k, k < next_id t) (Dexie.keys t).

(** Every Card's [noteId] refers to an existing Note and every Note's
    [deckId] to an existing Deck. *)
Definition refs_ok (s : Store) : Prop :=
  (forall k n, (k, n) ∈ rows (notes s) ->
     exists d, note_deckId n = Some d /\ d ∈ Dexie.keys (decks s)) /\
  (forall k c, (k, c) ∈ rows (cards s) ->
     exists kn, card_noteId c = Some kn /\ kn ∈ Dexie.keys (notes s)).

Definition cards_of_note (s : Store) (noteId : Z) : list (Z * Card) :=
  filter (λ r, card_noteId r.2 = Some noteId) (rows (cards s)).

Definition notes_of_deck (s : Store) (deckId : Z) : list (Z * Note) :=
  filter (λ r, note_deckId r.2 = Some deckId) (rows (notes s)).

Definition cards_of_deck (s : Store) (deckId : Z) : list (Z * Card) :=
  filter (λ r, card_deckId r.2 = Some deckId) (rows (cards s)).

(** The invariant behind referential integrity: besides the two
    references, a card carries the [deckId] of its note and every note
    has exactly one card. *)
Record consistent (s : Store) : Prop := {
  wf_decks : table_wf (decks s);
  wf_notes : table_wf (notes s);
  wf_cards : table_wf (cards s);
  note_has_deck : forall k n, (k, n) ∈ rows (notes s) ->
    exists d, note_deckId n = Some d /\ d ∈ Dexie.keys (decks s);
  card_has_note : forall k c, (k, c) ∈ rows (cards s) ->
    exists kn n, card_noteId c = Some kn /\ (kn, n) ∈ rows (notes s) /\
                 card_deckId c = note_deckId n;
  one_card_per_note : forall k n, (k, n) ∈ rows (notes s) ->
    length (cards_of_note s k) = 1%nat
}.

(** A snapshot that is consistent in itself: note ids are distinct, a
    note's deck is among the snapshot's decks, and every note has
    exactly one card, which carries the note's id and deck id. *)
Record snapshot_consistent (ds : list SDeck) (ns : list SNote) (cs : list SCard) : Prop := {
  snap_note_ids : NoDup (sn_id <$> ns);
  snap_note_deck : forall n, n ∈ ns -> sn_deckId n ∈ sd_id <$> ds;
  snap_card_note : forall c, c ∈ cs ->
    exists n, n ∈ ns /\ sc_noteId c = sn_id n /\ sc_deckId c = sn_deckId n;
  snap_one_card : forall n, n ∈ ns ->
    length (filter (λ c, sc_noteId c = sn_id n) cs) = 1%nat
}.

(** The mutating operations of [dbApi]. *)
Inductive op : Type :=
  | CreateDeck (name : string) (now : Z)
  | RenameDeck (id : Z) (name : string)
  | DeleteDeck (id : Z)
  | CreateNote (deckId : Z) (fields : js Fields) (now : Z)
  | UpdateNote (noteId : Z) (fields : js Fields) (now : Z)
  | DeleteNote (noteId : Z)
  | UpdateCard (cardId : Z) (patch : CardPatch)
  | ImportJSON (obj : js Snapshot) (now : Z)
  | ImportCSV (text : string) (now : Z).

Definition run (o : op) : db unit :=
  match o with
  | CreateDeck name now => _ <- createDeck name now ;; ret tt
  | RenameDeck id name => renameDeck id name
  | DeleteDeck id => deleteDeck id
  | CreateNote deckId fields now => _ <- createNote deckId fields now ;; ret tt
  | UpdateNote noteId fields now => updateNote noteId fields now
  | DeleteNote noteId => deleteNote noteId
  | UpdateCard cardId patch => updateCard cardId patch
  | ImportJSON obj now => importJSON obj now
  | ImportCSV text now => importCSV text now
  end.

(** Calls that respect the references: a note is created in a deck that
    exists, a card is updated with a patch that carries no [deckId] and
    no [noteId] (as the Study view's is), and an imported snapshot is
    consistent in itself. *)
Definition respectful (s : Store) (o : op) : Prop :=
  match o with
  | CreateNote deckId _ _ => deck_exists s deckId
  | UpdateCard _ patch => patch_deckId patch = None /\ patch_noteId patch = None
  | ImportJSON obj _ =>
      match obj with
      | val o =>
          match obj_decks o, obj_notes o, obj_cards o with
          | val ds, val ns, val cs => snapshot_consistent ds ns cs
          | _, _, _ => True
          end
      | _ => True
      end
  | _ => True
  end.

(** States the store can reach from empty by any calls. *)
Inductive reachable : Store -> Prop :=
  | reachable_empty : reachable empty_store
  | reachable_step s o : reachable s -> reachable (exec (run o) s).

(** States reached by respectful calls only. *)
Inductive reachable_respectful : Store -> Prop :=
  | respectful_empty : reachable_respectful empty_store
  | respectful_step s o :
      reachable_respectful s -> respectful s o ->
      reachable_respectful (exec (run o) s).

(** C4 as stated: the references hold in every reachable state. *)
Definition refs_ok_always : Prop := forall s, reachable s -> refs_ok s.

Definition new_note (deckId : Z) (fields : js Fields) (createdAt : Z) : Note :=
  {| note_deckId := Some deckId;
     note_fields :=
       match fields with
       | undefined => val {| front := val ""%string; back := val ""%string |}
       | _ => fields
       end;
     note_createdAt := createdAt; note_updatedAt := createdAt |}.

(** The keys a run of [add]s hands out, paired with the added items. *)
Fixpoint number_from {A} (k : Z) (l : list A) : list (Z * A) :=
  match l with
  | [] => []
  | x :: l' => (k, x) :: number_from (k + 1) l'
  end.

Definition add_all {A B} (f : A → B) (l : list A) (t : Table B) : Table B :=
  mkTable (rows t ++ (prod_map id f <$> number_from (next_id t) l))
          (next_id t + Z.of_nat (length l)).

(** The old-id to new-id [Map] after a loop of [set]s. *)
Definition id_map {A} (key : A → option Z) (m : gmap (option Z) Z)
    (l : list (Z * A)) : gmap (option Z) Z :=
  foldl (λ m r, <[key r.2 := r.1]> m) m l.

Definition deck_of (now : Z) (d : SDeck) : Deck :=
  {| deck_name := sd_name d;
     deck_createdAt := date_or_now (sd_createdAt d) now |}.

Definition note_of (deckIdMap : gmap (option Z) Z) (now : Z) (n : SNote) : Note :=
  {| note_deckId := deckIdMap !! sn_deckId n;
     note_fields := sn_fields n;
     note_createdAt := date_or_now (sn_createdAt n) now;
     note_updatedAt := date_or_now (sn_updatedAt n) now |}.

Definition card_of (deckIdMap noteIdMap : gmap (option Z) Z) (now : Z)
    (c : SCard) : Card :=
  {| card_deckId := deckIdMap !! sc_deckId c;
     card_noteId := noteIdMap !! sc_noteId c;
     card_due := date_or_now (sc_due c) now;
     card_interval := val (nullish (sc_interval c) 0);
     card_ease := val (nullish (sc_ease c) 2.5%Q);
     card_reps := val (nullish (sc_reps c) 0);
     card_lapses := val (nullish (sc_lapses c) 0);
     card_state := nullish (sc_state c) st_new |}.

Definition import_result (ds : list SDeck) (ns : list SNote) (cs : list SCard)
    (now : Z) (s : Store) : Store :=
  let deckIdMap := id_map sd_id ∅ (number_from (next_id (decks s)) ds) in
  let noteIdMap := id_map sn_id ∅ (number_from (next_id (notes s)) ns) in
  mkStore (add_all (deck_of now) ds (decks s))
          (add_all (note_of deckIdMap now) ns (notes s))
          (add_all (card_of deckIdMap noteIdMap now) cs (cards s)).

Definition store_one_note : Store :=
  exec (run (CreateNote 1 undefined 0))
    (exec (run (CreateDeck "Deck" 0)) empty_store).

(** ** CSV round trip *)

(** The row [exportCSV] writes for a note. *)
Definition triple_of (s : Store) (n : Z * Note) : CsvRow :=
  let deckById : gmap Z Deck :=
    foldl (λ m d, <[d.1 := d.2]> m) ∅ (rows (decks s)) in
  {| deckName :=
       match note_deckId n.2 ≫= (deckById !!.) with
       | Some d => deck_name d
       | None => "Unknown"
       end;
     row_front :=
       match note_fields n.2 with
       | val f => nullish (front f) ""
       | _ => ""
       end;
     row_back :=
       match note_fields n.2 with
       | val f => nullish (back f) ""
       | _ => ""
       end |}.

Definition export_rows (s : Store) : list CsvRow :=
  triple_of s <$> rows (notes s).

Fixpoint contains (c : ascii) (s : string) : bool :=
  match s with
  | "" => false
  | String c' r => Ascii.eqb c' c || contains c r
  end.

(** A cell that the line splitter and [parseCell] give back unchanged:
    no line feed, no white space at either end, and not both opening
    and closing with a double quote. *)
Definition csv_safe (v : string) : Prop :=
  contains LF v = false /\
  trim v = v /\
  startsWith dquote v && endsWith dquote v = false.

Definition csv_safe_row (r : CsvRow) : Prop :=
  deckName r ≠ "" /\ csv_safe (deckName r) /\
  csv_safe (row_front r) /\ csv_safe (row_back r).

(** C9 as stated, for any store that is exported and any well-formed
    store that is imported into. *)
Definition csv_roundtrip_keeps_triples : Prop :=
  forall s s' now, table_wf (decks s') ->
    exists csv s'' added,
      exportCSV s = (Ok csv, s) /\
      importCSV csv now s' = (Ok tt, s'') /\
      rows (notes s'') = rows (notes s') ++ added /\
      triple_of s'' <$> added = export_rows s.

Definition store_padded_front : Store :=
  exec (d <- createDeck "D" 0 ;;
        createNote d (val {| front := val " x"; back := val "y" |}) 0)
       empty_store.

Definition line_ok (l : string) : Prop :=
  contains LF l = false /\ endsWith CR l = false /\ l ≠ "".

(** What follows a cell on its line: nothing, or the comma before the
    next cell. *)
Definition cell_end (rest : string) : Prop :=
  rest = "" \/ exists r, rest = String comma r.

Fixpoint all_quotes (v : string) : bool :=
  match v with
  | "" => true
  | String c r => Ascii.eqb c dquote && all_quotes r
  end.

(** The cell the loop collects from [escape v]. *)
Definition raw_cell (v : string) : string :=
  if all_quotes v then v +:+ String dquote "" else v.

Definition row_line (r : CsvRow) : string :=
  join "," (escape <$> [deckName r; row_front r; row_back r]).

(** The body of the [for (const line of lines)] loop. *)
Definition import_line (now : Z) (line : string) : db unit :=
  let parts := split_cells line [] "" false in
  let cells := parseCell <$> parts in
  deckId <- getOrCreateDeckId (or_str (cells !! 0%nat) "Imported") now ;;
  _ <- createNote deckId
         (val {| front := val (or_str (cells !! 1%nat) "");
                 back := val (or_str (cells !! 2%nat) "") |}) now ;;
  ret tt.

Definition imported_note (s : Store) (now : Z) (n : Z * Note) (r : CsvRow) : Prop :=
  exists k d,
    note_deckId n.2 = Some k /\ (k, d) ∈ rows (decks s) /\
    deck_name d = deckName r /\
    note_fields n.2 = val {| front := val (row_front r); back := val (row_back r) |}.

Definition store_one_plain_note : Store :=
  exec (d <- createDeck "D" 0 ;;
        createNote d (val {| front := val "x"; back := val "y" |}) 0)
       empty_store.

(** ** Vocabulary of the further properties *)

(** The number of 'again' grades in a run. *)
Definition lapses_in (gs : list string) : Z :=
  Z.of_nat (length (filter (λ g, g = "again") gs)).

(** Rows are in strictly increasing key order, keys are positive and
    below the next key of the generator. *)
Definition table_sorted {A} (t : Table A) : Prop :=
  StronglySorted (λ a b : Z * A, a.1 < b.1) (rows t) /\
  Forall (λ k, 0 < k < next_id t) (Dexie.keys t) /\
  0 < next_id t.

Definition store_wf (s : Store) : Prop :=
  table_sorted (decks s) /\ table_sorted (notes s) /\ table_sorted (cards s).

(** The generator has not gone back and every key of [t'] is a key of
    [t] or one the generator of [t] had not handed out. *)
Definition table_grows {A} (t t' : Table A) : Prop :=
  next_id t <= next_id t' /\
  forall k, k ∈ Dexie.keys t' -> k ∈ Dexie.keys t \/ next_id t <= k.

Definition table_step {A} (t t' : Table A) : Prop :=
  (table_sorted t -> table_sorted t') /\ table_grows t t'.

Definition store_step (s s' : Store) : Prop :=
  table_step (decks s) (decks s') /\
  table_step (notes s) (notes s') /\
  table_step (cards s) (cards s').

(** Any number of calls, one after the other. *)
Inductive steps : Store -> Store -> Prop :=
  | steps_refl s : steps s s
  | steps_step s s' o : steps s s' -> steps s (exec (run o) s').

Definition store_two_notes : Store :=
  exec (run (CreateNote 1 undefined 5)) store_one_note.

(** A stored card that [getDueCards(deckId, ...)] is to return at [now]. *)
Definition is_due (deckId now : Z) (r : Z * Card) : Prop :=
  card_deckId r.2 = Some deckId /\
  card_due r.2 <= now /\ card_state r.2 <> st_suspended.

(** The patch the response buttons send for a scheduled card. *)
Definition patch_of (updated : Card) : CardPatch :=
  {| patch_deckId := None;
     patch_noteId := None;
     patch_ease := Some (card_ease updated);
     patch_interval := Some (card_interval updated);
     patch_reps := Some (card_reps updated);
     patch_lapses := Some (card_lapses updated);
     patch_due := Some (card_due updated);
     patch_state := Some (card_state updated) |}.

(** A table from which nothing was ever deleted: its ids are 1, 2, ...
    in row order and the generator stands right after them. *)
Definition compact {A} (t : Table A) : Prop :=
  rows t = number_from 1 (rows t).*2 /\
  next_id t = 1 + Z.of_nat (length (rows t)).


(** The lines [importCSV] reads notes from: the non-empty lines after
    the header. *)
Definition data_lines (text : string) : list string :=
  tail (filter (λ l, l ≠ "") (split_lines text)).

Definition deck_names (s : Store) : list string :=
  (λ r : Z * Deck, deck_name r.2) <$> rows (decks s).

(** The cells [importCSV] reads from a line. *)
Definition cells_of (line : string) : list string :=
  parseCell <$> split_cells line [] "" false.

(** [n] is the note stored for [line] and [c] its card: the note is in
    a stored deck named by the first cell of the line ('Imported' when
    that is empty or missing) and has the second and the third cell as
    front and back (empty when missing). *)
Definition note_of_line (now : Z) (s : Store) (n : Z * Note) (c : Z * Card)
    (line : string) : Prop :=
  exists k d,
    (k, d) ∈ rows (decks s) /\
    deck_name d = or_str (cells_of line !! 0%nat) "Imported" /\
    n.2 = new_note k
            (val {| front := val (or_str (cells_of line !! 1%nat) "");
                    back := val (or_str (cells_of line !! 2%nat) "") |}) now /\
    c.2 = new_card k n.1 now.

(** What one round of the loop has done to the store. *)
Definition line_imported (now : Z) (line : string) (s s1 : Store) : Prop :=
  exists extra n c,
    rows (decks s1) = rows (decks s) ++ extra /\ (length extra <= 1)%nat /\
    rows (notes s1) = rows (notes s) ++ [n] /\
    rows (cards s1) = rows (cards s) ++ [c] /\
    n.1 = next_id (notes s) /\ c.1 = next_id (cards s) /\
    next_id (notes s1) = next_id (notes s) + 1 /\
    next_id (cards s1) = next_id (cards s) + 1 /\
    note_of_line now s1 n c line /\
    (NoDup (deck_names s) -> NoDup (deck_names s1)).

(** A CSV text with a header and two data lines. *)
Definition csv_two_lines : string :=
  join (String LF "") ["deckName,front,back"; "A,x,y"; "A,z,w"].

(** A CSV text with an empty line between its two data lines, the
    second of which has no deck name and no back. *)
Definition csv_missing_cells : string :=
  join (String LF "") ["deckName,front,back"; "A,x,y"; ""; ",z"].

(** A snapshot whose ids are those the store [store_one_note] already
    uses. *)
Definition snap_decks : list SDeck :=
  [ {| sd_id := Some 1; sd_name := "Other"; sd_createdAt := val 2 |} ].

Definition snap_notes : list SNote :=
  [ {| sn_id := Some 1; sn_deckId := Some 1; sn_fields := undefined;
       sn_createdAt := val 2; sn_updatedAt := undefined |} ].

Definition snap_cards : list SCard :=
  [ {| sc_deckId := Some 1; sc_noteId := Some 1; sc_due := val 2;
       sc_interval := val 3; sc_ease := undefined; sc_reps := val 1;
       sc_lapses := null; sc_state := val st_review |} ].

(** A cell without comma and double quote. *)
Definition plain (v : string) : Prop :=
  contains comma v = false /\ contains dquote v = false.

Definition renamed (name : string) (d : Deck) : Deck :=
  {| deck_name := name; deck_createdAt := deck_createdAt d |}.

End Vocabulary.

(** * Properties *)

(** ** The checks that scheduler.js runs on load *)

Section SchedulerTests.
Import Scheduler.

Example new_good :
  exists c1, schedule base "good" 0 = Ok c1 /\
    card_interval c1 = val 1 /\ card_reps c1 = val 1.
Proof. eexists. split; [reflexivity|]. split; reflexivity. Qed.

Example second_good_then_again :
  exists c3, review base ["good"; "good"; "again"]%string 0 = Ok c3 /\
    card_interval c3 = val 1 /\ card_reps c3 = val 0 /\ card_lapses c3 = val 1.
Proof. eexists. split; [reflexivity|]. repeat split; reflexivity. Qed.

Example new_easy :
  exists c4, schedule base "easy" 0 = Ok c4 /\
    card_interval c4 = val 4 /\ card_reps c4 = val 1.
Proof. eexists. split; [reflexivity|]. split; reflexivity. Qed.

Example hard_lowers_ease :
  exists c2 c5 e0 e5,
    review base ["good"; "good"]%string 0 = Ok c2 /\ card_ease c2 = val e0 /\
    schedule c2 "hard" 0 = Ok c5 /\ card_ease c5 = val e5 /\ (e5 <= e0)%Q.
Proof.
  eexists _, _, _, _. split; [reflexivity|]. split; [reflexivity|].
  split; [reflexivity|]. split; [reflexivity|]. vm_compute. discriminate.
Qed.
End SchedulerTests.

(** ** Arithmetic helpers *)

Section MathLemmas.
Local Open Scope Q_scope.

Lemma Math_max_spec (x y : Q) :
  (x <= y /\ Math_max x y = y) \/ (y < x /\ Math_max x y = x).
Proof.
  unfold Math_max. destruct (Qle_bool x y) eqn:E.
  - left. split; [by apply Qle_bool_iff|done].
  - right. split; [|done].
    apply Qnot_le_lt. intros H. apply Qle_bool_iff in H. congruence.
Qed.

Lemma Math_min_spec (x y : Q) :
  (x <= y /\ Math_min x y = x) \/ (y < x /\ Math_min x y = y).
Proof.
  unfold Math_min. destruct (Qle_bool x y) eqn:E.
  - left. split; [by apply Qle_bool_iff|done].
  - right. split; [|done].
    apply Qnot_le_lt. intros H. apply Qle_bool_iff in H. congruence.
Qed.

Lemma or_Q_val (q d : Q) : ~ q == 0 -> or_Q (val q) d = q.
Proof.
  intros H. unfold or_Q. destruct (Qeq_bool q 0) eqn:E; [|done].
  apply Qeq_bool_iff in E. contradiction.
Qed.

(** Up to 2^53 in size a whole number is held exactly. *)
Lemma fl_exact (x : Z) : (Z.abs x <= 2 ^ 53)%Z -> fl x = x.
Proof.
  intros H. unfold fl. cbv zeta.
  destruct (Z.ltb_spec (Z.abs x) (2 ^ 53)) as [|Hge]; [done|].
  assert (Ha : Z.abs x = (2 ^ 53)%Z) by lia.
  rewrite Ha. change (Z.log2 (2 ^ 53) - 52)%Z with 1%Z.
  change ((2 ^ 53) mod 2 ^ 1)%Z with 0%Z.
  change ((2 ^ 53) / 2 ^ 1)%Z with (2 ^ 52)%Z.
  change (2 * 0 <? 2 ^ 1)%Z with true. cbv iota.
  change (2 ^ 52 * 2 ^ 1)%Z with (2 ^ 53)%Z.
  rewrite <- Ha. rewrite Z.mul_comm. apply Z.abs_sgn.
Qed.

Lemma js_add_exact (a b : Z) : (Z.abs (a + b) <= 2 ^ 53)%Z -> js_add a b = (a + b)%Z.
Proof. apply fl_exact. Qed.

Lemma or_Z_val (n : Z) : or_Z (val n) 0 = n.
Proof. unfold or_Z. destruct (Z.eqb_spec n 0); congruence. Qed.
End MathLemmas.

Ltac split_max :=
  repeat match goal with
  | |- context [Math_max ?x ?y] =>
      let H := fresh in
      destruct (Math_max_spec x y) as [[? H]|[? H]]; rewrite !H in *; clear H
  | |- context [Math_min ?x ?y] =>
      let H := fresh in
      destruct (Math_min_spec x y) as [[? H]|[? H]]; rewrite !H in *; clear H
  end.

(** ** Scheduler *)

Section SchedulerProps.
Import Scheduler.
Local Open Scope string_scope.

(** C1 (fails on the code). 'easy' on a card with reps > 0 computes the
    interval from the ease it has just raised by 0.15, not from the ease
    the card came in with: with ease 2.5 and interval 100 the code
    returns round(100 * 2.85) = 285 where the specification's rule gives
    round(100 * 2.7) = 270. *)
Theorem schedule_easy_uses_raised_ease :
  exists c',
    schedule card_2_5_100 "easy" 0 = Ok c' /\
    card_interval c' = val 285 /\
    easy_interval_pre_update 100 2.5 = 270 /\
    card_interval c' <> val (easy_interval_pre_update 100 2.5) /\
    card_ease c' = val (Math_min 3.5 (2.5 + 0.15)).
Proof.
  eexists. split; [reflexivity|]. split; [reflexivity|].
  split; [reflexivity|]. split; [|reflexivity].
  vm_compute. discriminate.
Qed.

(** What the 'easy' branch computes in general. *)
Lemma schedule_easy_interval (c : Card) (now : Z) (e : Q) (i r : Z) :
  card_ease c = val e -> ~ (e == 0)%Q ->
  card_interval c = val i -> card_reps c = val r -> 0 < r ->
  exists c',
    schedule c "easy" now = Ok c' /\
    card_interval c' =
      val (Z.max 1 (Math_round (inject_Z i * (Math_min 3.5 (e + 0.15) + 0.2)))).
Proof.
  intros He Hne Hi Hr Hpos. unfold schedule. cbn [String.eqb Ascii.eqb Bool.eqb].
  rewrite He, Hi, Hr, !or_Z_val, or_Q_val by done.
  destruct (Z.eqb_spec r 0); [lia|].
  eexists. split; reflexivity.
Qed.

(** C3 (fails on the code). The lapse counter is a double: a card that
    has lapsed 2^53 times and is graded 'again' leaves with lapses 2^53,
    not 2^53 + 1. *)
Lemma again_saturates_at_2_53 : ~ again_counts_every_lapse.
Proof.
  intros H.
  destruct (H card_lapsed_2_53 0 1.3%Q 1 0 (2 ^ 53))
    as (c' & e' & Hs & _ & _ & _ & _ & Hl & _);
    try reflexivity; try lia; try (vm_compute; discriminate).
  vm_compute in Hs. injection Hs as <-. vm_compute in Hl. discriminate.
Qed.

(** C3 (amended). For a valid card (ease >= 1.3, interval, reps,
    lapses >= 0) whose lapses are below 2^53, and any [now], grading
    'again' returns a card with ease >= 1.3, interval = 1, reps = 0,
    lapses = previous lapses + 1 and state 'review'. *)
Theorem schedule_again (c : Card) (now : Z) (e : Q) (i r l : Z) :
  card_ease c = val e -> (1.3 <= e)%Q ->
  card_interval c = val i -> 0 <= i ->
  card_reps c = val r -> 0 <= r ->
  card_lapses c = val l -> 0 <= l -> l < 2 ^ 53 ->
  exists c' e',
    schedule c "again" now = Ok c' /\
    card_ease c' = val e' /\ (1.3 <= e')%Q /\
    card_interval c' = val 1 /\
    card_reps c' = val 0 /\
    card_lapses c' = val (l + 1) /\
    card_state c' = st_review.
Proof.
  intros He Hle Hi _ Hr _ Hl Hl0 Hl53.
  unfold schedule. cbn [String.eqb Ascii.eqb Bool.eqb].
  rewrite He, Hl, or_Z_val, js_add_exact by lia.
  eexists _, _. split; [reflexivity|]. cbn.
  split; [reflexivity|]. split; [|done].
  split_max; lra.
Qed.

Lemma schedule_again_witness :
  exists c' e',
    schedule base "again" 0 = Ok c' /\
    card_ease c' = val e' /\ (1.3 <= e')%Q /\
    card_interval c' = val 1 /\
    card_reps c' = val 0 /\
    card_lapses c' = val (0 + 1) /\
    card_state c' = st_review.
Proof.
  apply (schedule_again base 0 2.5%Q 0 0 0); try reflexivity; try lia.
  vm_compute. discriminate.
Defined.
(** One graded review keeps a bounded ease bounded and schedules at least
    one day ahead. *)
Lemma schedule_step_bounds (c : Card) (g : string) (now : Z) (e : Q) :
  card_ease c = val e -> (1.3 <= e <= 3.5)%Q -> is_grade g ->
  exists c' e' i',
    schedule c g now = Ok c' /\
    card_ease c' = val e' /\ card_interval c' = val i' /\
    (1.3 <= e' <= 3.5)%Q /\ 1 <= i' /\
    (g = "hard" \/ g = "again" -> (e' <= e)%Q).
Proof.
  intros He [Hlo Hhi] Hg.
  assert (Hne : ~ (e == 0)%Q) by (intros E; rewrite E in Hlo; lra).
  unfold schedule. rewrite He, or_Q_val by done.
  destruct Hg as [-> | [-> | [-> | ->]]]; cbn [String.eqb Ascii.eqb Bool.eqb];
    eexists _, _, _; (split; [reflexivity|]); cbn;
    (split; [reflexivity|]); (split; [reflexivity|]).
  - split; [split_max; lra|]. split; [lia|]. intros _. split_max; lra.
  - split; [split_max; lra|]. split; [lia|]. intros _. split_max; lra.
  - split; [lra|]. split; [|intros [?|?]; discriminate].
    repeat case_match; lia.
  - split; [split_max; lra|]. split; [|intros [?|?]; discriminate].
    repeat case_match; lia.
Qed.

(** C5. For a card with 1.3 <= ease <= 3.5 and a grade among again,
    hard, good, easy, [schedule] returns a card with 1.3 <= ease <= 3.5
    and interval >= 1, and under 'hard' and 'again' the returned ease is
    at most the input ease.  The same holds along any run of reviews:
    the ease stays within [1.3, 3.5] (so repeated 'easy' never exceeds
    3.5), and a run of only 'hard'/'again' never raises it. *)
Theorem schedule_ease_interval_bounds (c : Card) (e : Q) (now : Z) :
  card_ease c = val e -> (1.3 <= e <= 3.5)%Q ->
  (forall g, is_grade g ->
     exists c' e' i',
       schedule c g now = Ok c' /\
       card_ease c' = val e' /\ card_interval c' = val i' /\
       (1.3 <= e' <= 3.5)%Q /\ 1 <= i' /\
       (g = "hard" \/ g = "again" -> (e' <= e)%Q)) /\
  (forall gs, Forall is_grade gs ->
     exists c' e',
       review c gs now = Ok c' /\ card_ease c' = val e' /\
       (1.3 <= e' <= 3.5)%Q /\
       (Forall (fun g => g = "hard" \/ g = "again") gs -> (e' <= e)%Q)).
Proof.
  intros He Hb. split.
  { intros g Hg. by apply schedule_step_bounds. }
  intros gs. revert c e He Hb.
  induction gs as [|g gs IH]; intros c e He Hb Hgs.
  - exists c, e. repeat split; try done; try apply Hb. intros _. lra.
  - apply Forall_cons in Hgs as [Hg Hgs].
    destruct (schedule_step_bounds c g now e He Hb Hg)
      as (c1 & e1 & i1 & Hs & He1 & _ & Hb1 & _ & Hmono).
    destruct (IH c1 e1 He1 Hb1 Hgs) as (c' & e' & Hr & He' & Hb' & Hmono').
    exists c', e'. cbn [review]. rewrite Hs.
    repeat split; try done; try apply Hb'.
    intros Hall. apply Forall_cons in Hall as [Hg' Hall].
    specialize (Hmono Hg'). specialize (Hmono' Hall). lra.
Qed.

Lemma schedule_ease_interval_bounds_witness :
  (forall g, is_grade g ->
     exists c' e' i',
       schedule base g 0 = Ok c' /\
       card_ease c' = val e' /\ card_interval c' = val i' /\
       (1.3 <= e' <= 3.5)%Q /\ 1 <= i' /\
       (g = "hard" \/ g = "again" -> (e' <= 2.5)%Q)) /\
  (forall gs, Forall is_grade gs ->
     exists c' e',
       review base gs 0 = Ok c' /\ card_ease c' = val e' /\
       (1.3 <= e' <= 3.5)%Q /\
       (Forall (fun g => g = "hard" \/ g = "again") gs -> (e' <= 2.5)%Q)).
Proof.
  apply (schedule_ease_interval_bounds base 2.5%Q 0).
  - reflexivity.
  - split; vm_compute; discriminate.
Defined.


End SchedulerProps.

(** ** Store: createNote, getDueCards, importJSON *)

Section StoreBasics.
Import Db.

(** C2 (fails on the code). [createNote] never looks the deck up: on the
    empty store, [createNote(7, ...)] succeeds and stores a note. *)
Lemma createNote_absent_deck_not_rejected : ~ createNote_rejects_absent_deck.
Proof.
  intros H.
  destruct (H empty_store 7 undefined 0) as [e He].
  - unfold deck_exists. cbn. apply not_elem_of_nil.
  - vm_compute in He. discriminate.
Qed.

(** C2 (amended). For every [deckId], whether or not a Deck has it,
    [createNote] succeeds; it appends exactly one Note and exactly one
    Card, the card with due = createdAt, interval 0, ease 2.5, reps 0,
    lapses 0 and state 'new', leaves the decks alone and returns the two
    keys under which they were stored. *)
Theorem createNote_inserts_note_and_card (s : Store) (deckId : Z)
    (fields : js Fields) (now : Z) :
  exists note,
    createNote deckId fields now s =
      (Ok (next_id (notes s), next_id (cards s)),
       {| decks := decks s;
          notes := mkTable (rows (notes s) ++ [(next_id (notes s), note)])
                           (next_id (notes s) + 1);
          cards := mkTable (rows (cards s) ++
                     [(next_id (cards s),
                       new_card deckId (next_id (notes s)) now)])
                           (next_id (cards s) + 1) |}) /\
    note_deckId note = Some deckId /\
    note_createdAt note = now /\ note_updatedAt note = now /\
    note_fields note =
      match fields with
      | undefined => val {| front := val ""%string; back := val ""%string |}
      | _ => fields
      end.
Proof.
  eexists. split.
  - unfold createNote, bind, on_notes, on_cards, ret, Dexie.add. cbn.
    reflexivity.
  - repeat split; reflexivity.
Qed.

(** C6. Every card returned by [getDueCards(deckId, limit)] is a stored
    card of that deck, is not suspended and is due at or before [now];
    at most [limit] cards are returned (50 when [limit] is left out);
    the store is not changed. *)
Theorem getDueCards_sound (s : Store) (deckId : Z) (limit : option nat) (now : Z) :
  exists due,
    getDueCards deckId limit now s = (Ok due, s) /\
    (length due <= default 50 limit)%nat /\
    Forall (fun r : Z * Card =>
              r ∈ rows (cards s) /\
              card_deckId r.2 = Some deckId /\
              card_state r.2 <> st_suspended /\
              card_due r.2 <= now) due.
Proof.
  eexists. split; [reflexivity|]. split.
  - rewrite length_take. lia.
  - apply Forall_forall. intros r Hr.
    apply elem_of_take in Hr as (i & Hr & _).
    apply list_elem_of_lookup_2 in Hr.
    apply list_elem_of_filter in Hr as [[Hdue Hst] Hr].
    unfold Dexie.where_equals in Hr.
    apply list_elem_of_filter in Hr as [Hd Hr].
    done.
Qed.

(** C7. If any of the keys [decks], [notes], [cards] of the snapshot is
    absent (or the snapshot itself is), [importJSON] throws
    'Invalid JSON format' and the store is exactly as before. *)
Theorem importJSON_missing_key (s : Store) (obj : js Snapshot) (now : Z) :
  (absent obj \/
   exists o, obj = val o /\
     (absent (obj_decks o) \/ absent (obj_notes o) \/ absent (obj_cards o))) ->
  importJSON obj now s = (Throw (Error "Invalid JSON format"), s).
Proof.
  intros [[->| ->]|(o & -> & H)]; try reflexivity.
  unfold importJSON.
  destruct H as [[H|H]|[[H|H]|[H|H]]]; rewrite H;
    repeat case_match; reflexivity.
Qed.

Lemma importJSON_missing_key_witness :
  importJSON (val snapshot_without_cards) 0 empty_store =
    (Throw (Error "Invalid JSON format"), empty_store).
Proof.
  apply (importJSON_missing_key empty_store (val snapshot_without_cards) 0).
  right. exists snapshot_without_cards. split; [reflexivity|].
  right; right; left; reflexivity.
Defined.
End StoreBasics.

(** ** importCSV: the header check *)

Section CsvHeader.
Import Db JsString.
Local Open Scope string_scope.
Local Arguments String.append !_ _ / : simpl nomatch.

Lemma lower_char_idem (c : ascii) : lower_char (lower_char c) = lower_char c.
Proof. destruct c as [[] [] [] [] [] [] [] []]; reflexivity. Qed.

Lemma toLowerCase_idem (s : string) : toLowerCase (toLowerCase s) = toLowerCase s.
Proof. induction s as [|c s IH]; cbn; [done|]. by rewrite lower_char_idem, IH. Qed.

Lemma strip_prefix_Some (p s r : string) :
  strip_prefix p s = Some r → s = p ++ r.
Proof.
  revert s. induction p as [|a p IH]; intros s H; cbn in *.
  { by destruct s; simplify_eq. }
  destruct s as [|b s]; [done|].
  destruct (Ascii.eqb_spec a b) as [->|]; [|done].
  cbn. f_equal. by apply IH.
Qed.

Lemma opt_comma_cases (s : string) :
  exists c, c ∈ [""; ","] /\ s = c ++ opt_comma s.
Proof.
  destruct s as [|a s]; cbn.
  - exists "". split; [apply list_elem_of_here|done].
  - unfold comma. destruct (Ascii.eqb_spec a ",") as [->|].
    + exists ",". split; [apply list_elem_of_further, list_elem_of_here|done].
    + exists "". split; [apply list_elem_of_here|done].
Qed.

Lemma header_re_test_shape (s : string) :
  header_re_test s = true ↔ header_shape (toLowerCase s).
Proof.
  unfold header_re_test. split.
  - destruct (strip_prefix "deckname" (toLowerCase s)) as [s1|] eqn:E1; [|done].
    destruct (strip_prefix "front" (opt_comma s1)) as [s2|] eqn:E2; [|done].
    destruct (strip_prefix "back" (opt_comma s2)) as [s3|] eqn:E3; [|done].
    intros _.
    apply strip_prefix_Some in E1, E2, E3.
    destruct (opt_comma_cases s1) as (c1 & Hc1 & Hs1).
    destruct (opt_comma_cases s2) as (c2 & Hc2 & Hs2).
    rewrite E1, Hs1, E2, Hs2, E3.
    by constructor.
  - intros H. inversion H as [c1 c2 rest Hc1 Hc2 Heq]. clear H Heq.
    repeat match goal with
           | H : _ ∈ _ :: _ |- _ => apply elem_of_cons in H as [->|H]
           | H : _ ∈ [] |- _ => by apply elem_of_nil in H
           end; reflexivity.
Qed.

Lemma for_of_total {A} (xs : list A) (body : A → db unit) :
  (forall x s, exists s', body x s = (Ok tt, s')) ->
  forall s, exists s', for_of xs body s = (Ok tt, s').
Proof.
  intros Hbody. induction xs as [|x xs IH]; intros s; cbn.
  - by eexists.
  - unfold bind. destruct (Hbody x s) as [s1 ->]. apply IH.
Qed.

Lemma getOrCreateDeckId_total (name : string) (now : Z) (s : Store) :
  exists k s', getOrCreateDeckId name now s = (Ok k, s').
Proof.
  unfold getOrCreateDeckId, bind, read.
  destruct (head _) as [d|]; by eexists _, _.
Qed.

Lemma import_row_total (line : string) (now : Z) (s : Store) :
  exists s',
    (let parts := split_cells line [] "" false in
     let cells := parseCell <$> parts in
     deckId <- getOrCreateDeckId (or_str (cells !! 0%nat) "Imported") now ;;
     _ <- createNote deckId
            (val {| front := val (or_str (cells !! 1%nat) "");
                    back := val (or_str (cells !! 2%nat) "") |}) now ;;
     ret tt) s = (Ok tt, s').
Proof.
  cbv zeta. unfold bind at 1.
  destruct (getOrCreateDeckId_total
    (or_str ((parseCell <$> split_cells line [] "" false) !! 0%nat) "Imported")
    now s) as (k & s1 & ->).
  by eexists.
Qed.

(** C8 (fails on the code). The commas of the pattern are optional and
    the pattern is not anchored at the end: a header with another third
    column name passes the check. *)
Lemma importCSV_accepts_other_header : ~ importCSV_rejects_other_headers.
Proof.
  intros H.
  specialize (H "deckName,front,backside" 0 empty_store "deckName,front,backside").
  assert (Hh : header_of "deckName,front,backside" = Some "deckName,front,backside")
    by reflexivity.
  assert (Hn : ~ header_matches_spec "deckName,front,backside")
    by (vm_compute; discriminate).
  specialize (H Hh Hn). vm_compute in H. discriminate.
Qed.

(** C8 (amended). [importCSV] throws the header error, leaving the store
    as it was, exactly when the text has no non-empty line or its first
    non-empty line, with double quotes removed and in lower case, does
    not begin with [deckname], [front], [back] in this order, each
    optionally followed by a comma; otherwise the import succeeds.  So
    the header [deckName,front,back] in any case or quoting is accepted
    and a header that names the columns in another order is rejected,
    while extra text after [back] and missing commas are let through. *)
Theorem importCSV_header_check (text : string) (now : Z) (s : Store) :
  (outcome (importCSV text now) s = Throw header_error ↔
     match header_of text with
     | None => True
     | Some h => ~ header_shape (normalize_header h)
     end) /\
  (outcome (importCSV text now) s = Ok tt ↔
     exists h, header_of text = Some h /\ header_shape (normalize_header h)) /\
  (outcome (importCSV text now) s = Throw header_error ->
     exec (importCSV text now) s = s) /\
  (forall h, header_of text = Some h -> header_matches_spec h ->
     outcome (importCSV text now) s = Ok tt).
Proof.
  assert (Hcases :
    match header_of text with
    | None => importCSV text now s = (Throw header_error, s)
    | Some h =>
        if header_re_test (normalize_header h)
        then exists s', importCSV text now s = (Ok tt, s')
        else importCSV text now s = (Throw header_error, s)
    end).
  { unfold header_of, importCSV, normalize_header.
    destruct (filter _ (split_lines text)) as [|h ls]; cbn [head]; [done|].
    destruct (header_re_test _); cbn [negb]; [|done].
    apply for_of_total. intros line s0. apply import_row_total. }
  assert (Hshape : forall h,
    header_re_test (normalize_header h) = true ↔ header_shape (normalize_header h)).
  { intros h. rewrite header_re_test_shape. unfold normalize_header.
    by rewrite toLowerCase_idem. }
  unfold outcome, exec.
  destruct (header_of text) as [h|].
  - specialize (Hshape h).
    destruct (header_re_test (normalize_header h)) eqn:E.
    + destruct Hcases as [s' ->]. cbn.
      assert (Hs : header_shape (normalize_header h)) by by apply Hshape.
      repeat split; try done; eauto.
    + rewrite Hcases. cbn.
      assert (Hs : ~ header_shape (normalize_header h)).
      { intros Hs. apply Hshape in Hs. congruence. }
      repeat split; try done.
      * intros (h' & [= <-] & Hs'). done.
      * intros h' [= <-] Hm. exfalso. apply Hs.
        unfold header_matches_spec in Hm. rewrite Hm.
        by apply (header_shape_intro "," "," "");
          apply list_elem_of_further, list_elem_of_here.
  - rewrite Hcases. cbn. repeat split; try done.
    intros (h & ? & _). done.
Qed.

Lemma importCSV_header_check_witness :
  outcome (importCSV "DECKNAME,Front,back" 0) empty_store = Ok tt /\
  (outcome (importCSV "front,back,deckName" 0) empty_store = Throw header_error ->
   exec (importCSV "front,back,deckName" 0) empty_store = empty_store).
Proof.
  split.
  - apply (proj2 (proj2 (proj2
      (importCSV_header_check "DECKNAME,Front,back" 0 empty_store)))
      "DECKNAME,Front,back"); reflexivity.
  - apply (proj1 (proj2 (proj2
      (importCSV_header_check "front,back,deckName" 0 empty_store)))).
Defined.
End CsvHeader.

(** ** Referential integrity *)

Section Integrity.
Import Db.

(** C4 (fails on the code). A note created in a deck that does not exist
    is stored with its dangling [deckId]. *)
Lemma dangling_note_reachable : ~ refs_ok_always.
Proof.
  intros H.
  destruct (H (exec (run (CreateNote 7 undefined 0)) empty_store)) as [Hn _].
  { apply reachable_step, reachable_empty. }
  destruct (Hn 1 {| note_deckId := Some 7;
                    note_fields := val {| front := val ""%string; back := val ""%string |};
                    note_createdAt := 0; note_updatedAt := 0 |})
    as (d & Hd & Hin).
  { vm_compute. apply list_elem_of_here. }
  vm_compute in Hin. by apply elem_of_nil in Hin.
Qed.

(** *** Tables *)

Lemma keys_add {A} (x : A) (t : Table A) :
  Dexie.keys (Dexie.add x t).2 = Dexie.keys t ++ [next_id t].
Proof. unfold Dexie.keys, Dexie.add. cbn. by rewrite fmap_app. Qed.

Lemma table_wf_add {A} (x : A) (t : Table A) :
  table_wf t -> table_wf (Dexie.add x t).2.
Proof.
  intros [Hnd Hlt]. split.
  - rewrite keys_add. apply NoDup_app. split; [done|]. split.
    + intros k Hk Hk'. apply list_elem_of_singleton in Hk'. subst.
      rewrite Forall_forall in Hlt. specialize (Hlt _ Hk). lia.
    + apply NoDup_singleton.
  - rewrite keys_add. cbn. apply Forall_app. split.
    + eapply Forall_impl; [done|]. cbn. lia.
    + apply Forall_singleton. lia.
Qed.

Lemma table_wf_filter {A} (P : Z * A → Prop) `{!∀ r, Decision (P r)} (t : Table A) :
  table_wf t -> table_wf (mkTable (filter P (rows t)) (next_id t)).
Proof.
  intros [Hnd Hlt]. unfold table_wf, Dexie.keys in *. cbn. split.
  - clear Hlt. induction (rows t) as [|r l IH]; [constructor|].
    cbn in Hnd. apply NoDup_cons in Hnd as [Hr Hnd].
    rewrite filter_cons. case_decide; [|by apply IH].
    cbn. apply NoDup_cons. split; [|by apply IH].
    intros Hin. apply Hr. apply list_elem_of_fmap in Hin as (r' & -> & Hin).
    apply list_elem_of_filter in Hin as [_ Hin].
    apply list_elem_of_fmap. eauto.
  - rewrite Forall_forall in *. intros k Hk. apply Hlt.
    apply list_elem_of_fmap in Hk as (r' & -> & Hin).
    apply list_elem_of_filter in Hin as [_ Hin].
    apply list_elem_of_fmap. eauto.
Qed.

Lemma keys_update {A} (k : Z) (f : A → A) (t : Table A) :
  Dexie.keys (Dexie.update k f t) = Dexie.keys t.
Proof.
  unfold Dexie.keys, Dexie.update. cbn. rewrite <- list_fmap_compose.
  apply list_fmap_ext. intros i r _. cbn. by case_decide.
Qed.

Lemma table_wf_update {A} (k : Z) (f : A → A) (t : Table A) :
  table_wf t -> table_wf (Dexie.update k f t).
Proof. unfold table_wf. by rewrite keys_update. Qed.

Lemma elem_of_update {A} (k : Z) (f : A → A) (t : Table A) (r : Z * A) :
  r ∈ rows (Dexie.update k f t) ->
  exists x, (r.1, x) ∈ rows t /\ (r.2 = x \/ r.2 = f x).
Proof.
  unfold Dexie.update. cbn. intros H.
  apply list_elem_of_fmap in H as ([k0 x] & -> & Hin). cbn.
  case_decide; cbn; eauto.
Qed.

Lemma key_in_rows {A} (t : Table A) (k : Z) (x : A) :
  (k, x) ∈ rows t -> k ∈ Dexie.keys t.
Proof. intros H. apply list_elem_of_fmap. by exists (k, x). Qed.

Lemma row_of_key {A} (t : Table A) (k : Z) :
  k ∈ Dexie.keys t -> exists x, (k, x) ∈ rows t.
Proof.
  intros H. apply list_elem_of_fmap in H as ([k0 x] & -> & Hin). eauto.
Qed.

Lemma key_lt_next {A} (t : Table A) (k : Z) :
  table_wf t -> k ∈ Dexie.keys t -> k < next_id t.
Proof. intros [_ H] Hk. rewrite Forall_forall in H. by apply H. Qed.

Lemma row_functional {A} (t : Table A) (k : Z) (x y : A) :
  table_wf t -> (k, x) ∈ rows t -> (k, y) ∈ rows t -> x = y.
Proof.
  intros [Hnd _]. unfold Dexie.keys in Hnd.
  induction (rows t) as [|[k0 z] l IH]; intros Hx Hy.
  - by apply elem_of_nil in Hx.
  - cbn in Hnd. apply NoDup_cons in Hnd as [Hk0 Hnd].
    apply elem_of_cons in Hx as [Hx|Hx], Hy as [Hy|Hy]; simplify_eq.
    + done.
    + exfalso. apply Hk0. apply list_elem_of_fmap. by exists (k0, y).
    + exfalso. apply Hk0. apply list_elem_of_fmap. by exists (k0, x).
    + by apply IH.
Qed.
Lemma filter_filter_absorb {A} (P Q : A → Prop)
    `{!∀ x, Decision (P x)} `{!∀ x, Decision (Q x)} (l : list A) :
  (forall x, x ∈ l -> P x -> Q x) -> filter P (filter Q l) = filter P l.
Proof.
  induction l as [|x l IH]; intros Himp; [done|].
  rewrite !filter_cons.
  assert (IH' : filter P (filter Q l) = filter P l).
  { apply IH. intros y Hy. apply Himp. by apply list_elem_of_further. }
  destruct (decide (Q x)) as [HQ|HQ].
  - rewrite filter_cons. by rewrite IH'.
  - destruct (decide (P x)) as [HP|HP]; [|done].
    exfalso. apply HQ, Himp; [apply list_elem_of_here|done].
Qed.

Lemma filter_none {A} (P : A → Prop) `{!∀ x, Decision (P x)} (l : list A) :
  (forall x, x ∈ l -> ~ P x) -> filter P l = [].
Proof.
  induction l as [|x l IH]; intros Hnone; [done|].
  rewrite filter_cons_False by (apply Hnone, list_elem_of_here).
  apply IH. intros y Hy. by apply Hnone, list_elem_of_further.
Qed.

Lemma length_filter_fmap {A} (P : A → Prop) `{!∀ x, Decision (P x)}
    (g : A → A) (l : list A) :
  (forall x, P (g x) ↔ P x) ->
  length (filter P (g <$> l)) = length (filter P l).
Proof.
  intros Hiff. induction l as [|x l IH]; [done|].
  cbn [fmap list_fmap]. rewrite !filter_cons.
  destruct (decide (P (g x))) as [H1|H1], (decide (P x)) as [H2|H2];
    cbn; rewrite ?IH; try done; exfalso.
  - by apply H2, Hiff.
  - by apply H1, Hiff.
Qed.

(** *** Each operation keeps the store consistent *)

Lemma consistent_empty : consistent empty_store.
Proof.
  split; try (split; [apply NoDup_nil_2|apply Forall_nil_2]);
    intros k x H; by apply elem_of_nil in H.
Qed.

Lemma exec_createDeck (name : string) (now : Z) (s : Store) :
  createDeck name now s =
    (Ok (next_id (decks s)),
     mkStore (Dexie.add {| deck_name := name; deck_createdAt := now |} (decks s)).2
             (notes s) (cards s)).
Proof. reflexivity. Qed.

Lemma consistent_createDeck (name : string) (now : Z) (s : Store) :
  consistent s -> consistent (createDeck name now s).2.
Proof.
  intros [Hd Hn Hc Hnd Hcn H1]. rewrite exec_createDeck. cbn [snd].
  split; cbn [decks notes cards]; try done.
  - by apply table_wf_add.
  - intros k n Hin. destruct (Hnd k n Hin) as (d & ? & ?).
    exists d. split; [done|]. rewrite keys_add. apply elem_of_app. by left.
Qed.

Lemma consistent_renameDeck (id : Z) (name : string) (s : Store) :
  consistent s -> consistent (exec (renameDeck id name) s).
Proof.
  intros [Hd Hn Hc Hnd Hcn H1]. unfold exec, renameDeck, on_decks. cbn [snd].
  split; cbn [decks notes cards]; try done.
  - by apply table_wf_update.
  - intros k n Hin. rewrite keys_update. eauto.
Qed.

Lemma exec_deleteDeck (id : Z) (s : Store) :
  deleteDeck id s =
    (Ok tt,
     mkStore (Dexie.delete id (decks s))
             (Dexie.where_equals_delete note_deckId id (notes s))
             (Dexie.where_equals_delete card_deckId id (cards s))).
Proof. reflexivity. Qed.

Lemma consistent_deleteDeck (id : Z) (s : Store) :
  consistent s -> consistent (exec (deleteDeck id) s).
Proof.
  intros [Hd Hn Hc Hnd Hcn H1]. unfold exec. rewrite exec_deleteDeck. cbn [snd].
  split; cbn [decks notes cards]; try by apply table_wf_filter.
  - intros k n Hin. apply list_elem_of_filter in Hin as [Hne Hin].
    destruct (Hnd k n Hin) as (d & Hdk & Hd').
    exists d. split; [done|].
    apply list_elem_of_fmap in Hd' as ([d0 x] & -> & Hx).
    apply list_elem_of_fmap. exists (d0, x). split; [done|].
    apply list_elem_of_filter. split; [|done]. cbn in *. congruence.
  - intros k c Hin. apply list_elem_of_filter in Hin as [Hne Hin].
    destruct (Hcn k c Hin) as (kn & n & Hkn & Hn' & Heq).
    exists kn, n. repeat split; try done.
    apply list_elem_of_filter. split; [|done]. cbn in *. congruence.
  - intros k n Hin. apply list_elem_of_filter in Hin as [Hne Hin].
    rewrite <- (H1 k n Hin). unfold cards_of_note. cbn [cards rows].
    unfold Dexie.where_equals_delete. cbn [rows]. f_equal.
    apply filter_filter_absorb. intros [kc c] Hc' Hk. cbn in *.
    destruct (Hcn kc c Hc') as (kn & n' & Hkn & Hn' & Heq).
    assert (kn = k) by congruence. subst kn.
    rewrite (row_functional _ _ _ _ Hn Hn' Hin) in Heq. congruence.
Qed.

Lemma exec_createNote (deckId : Z) (fields : js Fields) (now : Z) (s : Store) :
  createNote deckId fields now s =
    (Ok (next_id (notes s), next_id (cards s)),
     mkStore (decks s) (Dexie.add (new_note deckId fields now) (notes s)).2
       (Dexie.add (new_card deckId (next_id (notes s)) now) (cards s)).2).
Proof. reflexivity. Qed.

Lemma consistent_createNote (deckId : Z) (fields : js Fields) (now : Z) (s : Store) :
  consistent s -> deck_exists s deckId ->
  consistent (createNote deckId fields now s).2.
Proof.
  intros [Hd Hn Hc Hnd Hcn H1] Hex.
  rewrite exec_createNote. cbn [snd]. split; cbn [decks notes cards]; try done; try by apply table_wf_add.
  - intros k n Hin. cbn in Hin. apply elem_of_app in Hin as [Hin|Hin]; [eauto|].
    apply list_elem_of_singleton in Hin. simplify_eq. eauto.
  - intros k c Hin. cbn in Hin. apply elem_of_app in Hin as [Hin|Hin].
    + destruct (Hcn k c Hin) as (kn & n & ? & ? & ?).
      exists kn, n. repeat split; try done. cbn. apply elem_of_app. by left.
    + apply list_elem_of_singleton in Hin. simplify_eq.
      exists (next_id (notes s)), (new_note deckId fields now).
      repeat split; cbn; try done.
      apply elem_of_app. right. apply list_elem_of_here.
  - intros k n Hin. unfold cards_of_note. cbn [cards rows Dexie.add snd].
    rewrite filter_app, length_app.
    cbn in Hin. apply elem_of_app in Hin as [Hin|Hin].
    + change (filter _ (rows (cards s))) with (cards_of_note s k).
      rewrite (H1 k n Hin).
      rewrite filter_cons, decide_False; [done|]. cbn.
      apply key_in_rows, (key_lt_next _ _ Hn) in Hin. intros [= E]. lia.
    + apply list_elem_of_singleton in Hin. simplify_eq.
      rewrite filter_cons, decide_True by done. cbn.
      rewrite filter_none; [done|].
      intros [kc c] Hc' Hk. cbn in Hk.
      destruct (Hcn kc c Hc') as (kn & n' & Hkn & Hn' & _).
      apply key_in_rows, (key_lt_next _ _ Hn) in Hn'.
      assert (kn = next_id (notes s)) by congruence. lia.
Qed.
Lemma elem_of_update_2 {A} (k : Z) (f : A → A) (t : Table A) (k0 : Z) (x : A) :
  (k0, x) ∈ rows t ->
  (k0, if decide (k0 = k) then f x else x) ∈ rows (Dexie.update k f t).
Proof.
  intros Hin. unfold Dexie.update. cbn [rows].
  apply list_elem_of_fmap. exists (k0, x). split; [|done].
  cbn. by case_decide.
Qed.

Lemma exec_updateNote (noteId : Z) (fields : js Fields) (now : Z) (s : Store) :
  updateNote noteId fields now s =
    (Ok tt,
     mkStore (decks s)
       (Dexie.update noteId
          (λ n, {| note_deckId := note_deckId n; note_fields := fields;
                   note_createdAt := note_createdAt n;
                   note_updatedAt := now |}) (notes s))
       (cards s)).
Proof. reflexivity. Qed.

Lemma consistent_updateNote (noteId : Z) (fields : js Fields) (now : Z) (s : Store) :
  consistent s -> consistent (exec (updateNote noteId fields now) s).
Proof.
  intros [Hd Hn Hc Hnd Hcn H1]. unfold exec. rewrite exec_updateNote. cbn [snd].
  split; cbn [decks notes cards]; try done.
  - by apply table_wf_update.
  - intros k n Hin. apply elem_of_update in Hin as (x & Hx & Hor). cbn in *.
    destruct (Hnd k x Hx) as (d & ? & ?). exists d. split; [|done].
    by destruct Hor as [->| ->].
  - intros k c Hin. destruct (Hcn k c Hin) as (kn & n & Hkn & Hn' & Heq).
    eexists kn, _. split; [done|]. split.
    + by apply elem_of_update_2.
    + rewrite Heq. by case_decide.
  - intros k n Hin. apply elem_of_update in Hin as (x & Hx & _). cbn in Hx.
    by apply (H1 k x).
Qed.

Lemma exec_deleteNote (noteId : Z) (s : Store) :
  deleteNote noteId s =
    (Ok tt,
     mkStore (decks s) (Dexie.delete noteId (notes s))
       (Dexie.where_equals_delete card_noteId noteId (cards s))).
Proof. reflexivity. Qed.

Lemma consistent_deleteNote (noteId : Z) (s : Store) :
  consistent s -> consistent (exec (deleteNote noteId) s).
Proof.
  intros [Hd Hn Hc Hnd Hcn H1]. unfold exec. rewrite exec_deleteNote. cbn [snd].
  split; cbn [decks notes cards]; try done; try by apply table_wf_filter.
  - intros k n Hin. apply list_elem_of_filter in Hin as [_ Hin]. eauto.
  - intros k c Hin. apply list_elem_of_filter in Hin as [Hne Hin].
    destruct (Hcn k c Hin) as (kn & n & Hkn & Hn' & Heq).
    exists kn, n. repeat split; try done.
    apply list_elem_of_filter. split; [|done]. cbn in *. congruence.
  - intros k n Hin. apply list_elem_of_filter in Hin as [Hne Hin].
    rewrite <- (H1 k n Hin). unfold cards_of_note. cbn [cards rows].
    unfold Dexie.where_equals_delete. cbn [rows]. f_equal.
    apply filter_filter_absorb. intros [kc c] _ Hk. cbn in *. congruence.
Qed.

Lemma apply_patch_refs (patch : CardPatch) (c : Card) :
  patch_deckId patch = None -> patch_noteId patch = None ->
  card_deckId (apply_patch patch c) = card_deckId c /\
  card_noteId (apply_patch patch c) = card_noteId c.
Proof. intros Hd Hn. unfold apply_patch. cbn. by rewrite Hd, Hn. Qed.

Lemma consistent_updateCard (cardId : Z) (patch : CardPatch) (s : Store) :
  patch_deckId patch = None -> patch_noteId patch = None ->
  consistent s -> consistent (exec (updateCard cardId patch) s).
Proof.
  intros Hpd Hpn [Hd Hn Hc Hnd Hcn H1].
  unfold exec, updateCard, on_cards. cbn [snd].
  split; cbn [decks notes cards]; try done.
  - by apply table_wf_update.
  - intros k c Hin. apply elem_of_update in Hin as (x & Hx & Hor). cbn in *.
    destruct (Hcn k x Hx) as (kn & n & ? & ? & ?). exists kn, n.
    destruct Hor as [->| ->]; [done|].
    destruct (apply_patch_refs patch x Hpd Hpn) as [Ed En].
    rewrite Ed, En. done.
  - intros k n Hin. rewrite <- (H1 k n Hin). unfold cards_of_note.
    cbn [cards rows Dexie.update].
    apply length_filter_fmap. intros [kc c]. cbn [fst snd].
    case_decide; [|done]. cbn [fst snd].
    destruct (apply_patch_refs patch c Hpd Hpn) as [_ En]. by rewrite En.
Qed.

(** *** CSV import creates its decks before using them *)

Lemma for_of_preserves {A} (I : Store → Prop) (xs : list A) (body : A → db unit) :
  (forall x s, I s -> I (body x s).2) ->
  forall s, I s -> I (for_of xs body s).2.
Proof.
  intros Hbody. induction xs as [|x xs IH]; intros s Hs; cbn; [done|].
  unfold bind. specialize (Hbody x s Hs).
  destruct (body x s) as [[[]|e] s1]; cbn in *; [by apply IH|done].
Qed.

Lemma getOrCreateDeckId_spec (name : string) (now : Z) (s : Store) :
  consistent s ->
  exists k s', getOrCreateDeckId name now s = (Ok k, s') /\
               consistent s' /\ deck_exists s' k.
Proof.
  intros Hs. unfold getOrCreateDeckId, bind, read.
  destruct (head _) as [d|] eqn:E.
  - exists d.1, s. split; [done|]. split; [done|].
    apply head_Some_elem_of, list_elem_of_filter in E as [_ E].
    unfold deck_exists. apply list_elem_of_fmap. eauto.
  - rewrite exec_createDeck. eexists _, _. split; [done|]. split.
    + apply (consistent_createDeck name now s Hs).
    + unfold deck_exists. cbn [decks]. rewrite keys_add.
      apply elem_of_app. right. apply list_elem_of_here.
Qed.

Lemma consistent_importCSV (text : string) (now : Z) (s : Store) :
  consistent s -> consistent (exec (importCSV text now) s).
Proof.
  intros Hs. unfold exec, importCSV.
  destruct (filter _ _) as [|h ls]; [done|].
  destruct (negb _); [done|].
  apply for_of_preserves; [|done]. clear s Hs.
  intros line s Hs. cbv zeta. unfold bind at 1.
  destruct (getOrCreateDeckId_spec
    (JsString.or_str ((parseCell <$> split_cells line [] ""%string false) !! 0%nat)
       "Imported") now s Hs) as (k & s1 & -> & Hs1 & Hk).
  unfold bind. rewrite exec_createNote. cbn [snd ret].
  pose proof (consistent_createNote k
    (val {| front := val (JsString.or_str
              ((parseCell <$> split_cells line [] ""%string false) !! 1%nat) "");
            back := val (JsString.or_str
              ((parseCell <$> split_cells line [] ""%string false) !! 2%nat) "") |})
    now s1 Hs1 Hk) as H.
  by rewrite exec_createNote in H.
Qed.
(** *** JSON import *)

Lemma add_all_cons {A B} (f : A → B) (x : A) (l : list A) (t : Table B) :
  add_all f l (Dexie.add (f x) t).2 = add_all f (x :: l) t.
Proof.
  unfold add_all, Dexie.add. cbn [snd rows next_id number_from fmap list_fmap].
  f_equal.
  - by rewrite <- app_assoc.
  - cbn [length]. lia.
Qed.

Lemma add_all_nil {A B} (f : A → B) (t : Table B) : add_all f [] t = t.
Proof.
  unfold add_all. cbn. rewrite app_nil_r, Z.add_0_r. by destruct t.
Qed.

Lemma import_decks (now : Z) (ds : list SDeck) (m : gmap (option Z) Z) (s : Store) :
  fold_of ds m (λ deckIdMap d,
    newId <- on_decks (Dexie.add (deck_of now d)) ;;
    ret (<[sd_id d := newId]> deckIdMap)) s =
  (Ok (id_map sd_id m (number_from (next_id (decks s)) ds)),
   mkStore (add_all (deck_of now) ds (decks s)) (notes s) (cards s)).
Proof.
  revert m s. induction ds as [|d ds IH]; intros m s.
  - cbn. rewrite add_all_nil. by destruct s.
  - cbn [fold_of]. unfold bind at 1. unfold bind at 1, on_decks, ret.
    cbn [Dexie.add]. rewrite IH. cbn [decks notes cards next_id].
    by rewrite <- add_all_cons.
Qed.

Lemma import_notes (dm : gmap (option Z) Z) (now : Z) (ns : list SNote)
    (m : gmap (option Z) Z) (s : Store) :
  fold_of ns m (λ noteIdMap n,
    newId <- on_notes (Dexie.add (note_of dm now n)) ;;
    ret (<[sn_id n := newId]> noteIdMap)) s =
  (Ok (id_map sn_id m (number_from (next_id (notes s)) ns)),
   mkStore (decks s) (add_all (note_of dm now) ns (notes s)) (cards s)).
Proof.
  revert m s. induction ns as [|n ns IH]; intros m s.
  - cbn. rewrite add_all_nil. by destruct s.
  - cbn [fold_of]. unfold bind at 1. unfold bind at 1, on_notes, ret.
    cbn [Dexie.add]. rewrite IH. cbn [decks notes cards next_id].
    by rewrite <- add_all_cons.
Qed.

Lemma import_cards (dm nm : gmap (option Z) Z) (now : Z) (cs : list SCard)
    (s : Store) :
  for_of cs (λ c,
    _ <- on_cards (Dexie.add (card_of dm nm now c)) ;; ret tt) s =
  (Ok tt, mkStore (decks s) (notes s) (add_all (card_of dm nm now) cs (cards s))).
Proof.
  revert s. induction cs as [|c cs IH]; intros s.
  - cbn. rewrite add_all_nil. by destruct s.
  - cbn [for_of]. unfold bind at 1. unfold bind at 1, on_cards, ret.
    cbn [Dexie.add]. rewrite IH. cbn [decks notes cards next_id].
    by rewrite <- add_all_cons.
Qed.

Lemma exec_importJSON (ds : list SDeck) (ns : list SNote) (cs : list SCard)
    (now : Z) (s : Store) :
  importJSON (val {| obj_decks := val ds; obj_notes := val ns; obj_cards := val cs |})
    now s = (Ok tt, import_result ds ns cs now s).
Proof.
  unfold importJSON, transaction. cbn [obj_decks obj_notes obj_cards].
  unfold bind at 1.
  change (fold_of ds ∅ _ s) with (fold_of ds (∅ : gmap (option Z) Z) (λ deckIdMap d,
    newId <- on_decks (Dexie.add (deck_of now d)) ;;
    ret (<[sd_id d := newId]> deckIdMap)) s).
  rewrite import_decks. unfold bind at 1.
  set (dm := id_map sd_id ∅ _).
  change (fold_of ns ∅ _ ?s1) with (fold_of ns (∅ : gmap (option Z) Z) (λ noteIdMap n,
    newId <- on_notes (Dexie.add (note_of dm now n)) ;;
    ret (<[sn_id n := newId]> noteIdMap)) s1).
  rewrite import_notes. cbn [decks notes cards].
  set (nm := id_map sn_id ∅ _).
  change (for_of cs _ ?s2) with (for_of cs (λ c,
    _ <- on_cards (Dexie.add (card_of dm nm now c)) ;; ret tt) s2).
  rewrite import_cards. reflexivity.
Qed.
Lemma elem_of_number_from {A} (k k' : Z) (x : A) (l : list A) :
  (k', x) ∈ number_from k l ↔ exists i : nat, l !! i = Some x /\ k' = k + Z.of_nat i.
Proof.
  revert k. induction l as [|y l IH]; intros k; cbn [number_from].
  - split; [by intros ?%elem_of_nil|by intros (i & ? & _)].
  - rewrite elem_of_cons, IH. split.
    + intros [[= -> ->]|(i & Hi & ->)].
      * exists 0%nat. split; [done|lia].
      * exists (S i). split; [done|lia].
    + intros ([|i] & Hi & ->); cbn in Hi.
      * left. simplify_eq. f_equal. lia.
      * right. exists i. split; [done|lia].
Qed.

Lemma number_from_key_range {A} (k k' : Z) (x : A) (l : list A) :
  (k', x) ∈ number_from k l -> k <= k' < k + Z.of_nat (length l).
Proof.
  intros (i & Hi & ->)%elem_of_number_from.
  apply lookup_lt_Some in Hi. lia.
Qed.

Lemma number_from_functional {A} (k k' : Z) (x y : A) (l : list A) :
  (k', x) ∈ number_from k l -> (k', y) ∈ number_from k l -> x = y.
Proof.
  intros (i & Hi & ->)%elem_of_number_from (j & Hj & E)%elem_of_number_from.
  assert (i = j) by lia. congruence.
Qed.

Lemma number_from_elem {A} (k : Z) (x : A) (l : list A) :
  x ∈ l -> exists k', (k', x) ∈ number_from k l.
Proof.
  intros (i & Hi)%list_elem_of_lookup_1.
  exists (k + Z.of_nat i). apply elem_of_number_from. eauto.
Qed.

Lemma number_from_snd {A} (k : Z) (l : list A) : (number_from k l).*2 = l.
Proof. revert k. induction l as [|x l IH]; intros k; cbn; [done|]. by rewrite IH. Qed.

Lemma number_from_NoDup {A} (k : Z) (l : list A) : NoDup (number_from k l).*1.
Proof.
  revert k. induction l as [|x l IH]; intros k; cbn; constructor; [|apply IH].
  intros ([k' y] & E & Hin)%list_elem_of_fmap. cbn in E. subst k'.
  apply number_from_key_range in Hin. lia.
Qed.

Lemma keys_add_all {A B} (f : A → B) (l : list A) (t : Table B) :
  Dexie.keys (add_all f l t) = Dexie.keys t ++ (number_from (next_id t) l).*1.
Proof.
  unfold Dexie.keys, add_all. cbn [rows]. rewrite fmap_app. f_equal.
  rewrite <- list_fmap_compose. apply list_fmap_ext. by intros i [k x] _.
Qed.

Lemma elem_of_add_all {A B} (f : A → B) (l : list A) (t : Table B) (k : Z) (y : B) :
  (k, y) ∈ rows (add_all f l t) ↔
  (k, y) ∈ rows t \/ exists x, (k, x) ∈ number_from (next_id t) l /\ y = f x.
Proof.
  unfold add_all. cbn [rows]. rewrite elem_of_app, list_elem_of_fmap.
  apply or_iff_compat_l. split.
  - intros ([k' x] & [= -> ->] & Hin). eauto.
  - intros (x & Hin & ->). by exists (k, x).
Qed.

Lemma table_wf_add_all {A B} (f : A → B) (l : list A) (t : Table B) :
  table_wf t -> table_wf (add_all f l t).
Proof.
  intros [Hnd Hlt]. unfold table_wf. rewrite keys_add_all. split.
  - apply NoDup_app. split; [done|]. split; [|apply number_from_NoDup].
    intros k Hk ([k' x] & E & Hin)%list_elem_of_fmap. cbn in E. subst k'.
    apply number_from_key_range in Hin.
    rewrite Forall_forall in Hlt. specialize (Hlt _ Hk). lia.
  - cbn [add_all next_id]. apply Forall_app. split.
    + eapply Forall_impl; [done|]. cbn. lia.
    + apply Forall_forall.
      intros k ([k' x] & E & Hin)%list_elem_of_fmap. cbn in E. subst k'.
      apply number_from_key_range in Hin. lia.
Qed.

(** Every id that was [set] is mapped to one of the keys handed out. *)
Lemma id_map_total {A} (key : A → option Z) (m : gmap (option Z) Z)
    (l : list (Z * A)) (x : option Z) :
  x ∈ (key ∘ snd) <$> l ->
  exists v, id_map key m l !! x = Some v /\ v ∈ l.*1.
Proof.
  assert (Hgen : forall (P : Z → Prop) l m,
    (forall r, r ∈ l -> P r.1) ->
    x ∈ (key ∘ snd) <$> l \/ (exists v, m !! x = Some v /\ P v) ->
    exists v, id_map key m l !! x = Some v /\ P v).
  { clear. unfold id_map.
    intros P l. induction l as [|r l IH]; intros m HP Hx; cbn [foldl].
    - destruct Hx as [Hx|Hx]; [by apply elem_of_nil in Hx|done].
    - apply IH.
      + intros r' Hr'. by apply HP, list_elem_of_further.
      + destruct (decide (x = key r.2)) as [->|Hne].
        * right. exists r.1. rewrite lookup_insert_eq. split; [done|].
          apply HP, list_elem_of_here.
        * destruct Hx as [Hx|(v & Hv & HPv)].
          -- cbn in Hx. apply elem_of_cons in Hx as [Hx|Hx]; [done|by left].
          -- right. exists v. by rewrite lookup_insert_ne. }
  intros Hx. apply (Hgen (λ v, v ∈ l.*1)); [|by left].
  intros r Hr. apply list_elem_of_fmap. eauto.
Qed.

(** With pairwise distinct ids the map is the graph of the numbering. *)
Lemma id_map_lookup {A} (key : A → option Z) (l : list (Z * A))
    (x : option Z) (v : Z) :
  NoDup ((key ∘ snd) <$> l) ->
  id_map key ∅ l !! x = Some v ↔ exists a, (v, a) ∈ l /\ key a = x.
Proof.
  assert (Hgen : forall l (m : gmap (option Z) Z),
    NoDup ((key ∘ snd) <$> l) ->
    id_map key m l !! x = Some v ↔
      (exists a, (v, a) ∈ l /\ key a = x) \/
      ((x ∉ (key ∘ snd) <$> l) /\ m !! x = Some v)).
  { clear. unfold id_map.
    intros l. induction l as [|[k a] l IH]; intros m Hnd; cbn [foldl].
    - split; [intros H; right; split; [apply not_elem_of_nil|done]|].
      intros [(a & Ha & _)|[_ H]]; [by apply elem_of_nil in Ha|done].
    - cbn in Hnd. apply NoDup_cons in Hnd as [Hk Hnd].
      rewrite (IH _ Hnd). split.
      + intros [(a' & Ha' & Hx)|[Hx Hm]].
        * left. exists a'. split; [by apply list_elem_of_further|done].
        * destruct (decide (key a = x)) as [E|Hne].
          -- subst x. rewrite lookup_insert_eq in Hm. simplify_eq.
             left. exists a. split; [apply list_elem_of_here|done].
          -- rewrite lookup_insert_ne in Hm by done. right. split; [|done].
             rewrite fmap_cons, not_elem_of_cons. split; [cbn; congruence|done].
      + intros [(a' & Ha' & Hx)|[Hx Hm]].
        * apply elem_of_cons in Ha' as [[= -> ->]|Ha'].
          -- right. subst x. split; [done|]. by rewrite lookup_insert_eq.
          -- left. eauto.
        * rewrite fmap_cons in Hx. apply not_elem_of_cons in Hx as [Hne Hx].
          right. split; [done|]. by rewrite lookup_insert_ne. }
  intros Hnd. rewrite (Hgen l ∅ Hnd). split; [|by left].
  intros [H|[_ H]]; [done|]. by rewrite lookup_empty in H.
Qed.
Lemma number_from_elem_2 {A} (k k' : Z) (x : A) (l : list A) :
  (k', x) ∈ number_from k l -> x ∈ l.
Proof.
  intros (i & Hi & _)%elem_of_number_from. by apply list_elem_of_lookup_2 in Hi.
Qed.

Lemma length_filter_numbered {A B} (f : A → B) (P : Z * B → Prop)
    (Q : A → Prop) `{!∀ r, Decision (P r)} `{!∀ x, Decision (Q x)}
    (k : Z) (l : list A) :
  (forall k' x, P (k', f x) ↔ Q x) ->
  length (filter P (prod_map id f <$> number_from k l)) = length (filter Q l).
Proof.
  intros Hiff. revert k. induction l as [|x l IH]; intros k; [done|].
  cbn [number_from fmap list_fmap]. rewrite !filter_cons.
  destruct (decide (P _)) as [HP|HP], (decide (Q x)) as [HQ|HQ];
    cbn [length]; rewrite ?IH; try done; exfalso.
  - by apply HQ, (Hiff k).
  - by apply HP, (Hiff k).
Qed.

Lemma consistent_import_result (ds : list SDeck) (ns : list SNote)
    (cs : list SCard) (now : Z) (s : Store) :
  consistent s -> snapshot_consistent ds ns cs ->
  consistent (import_result ds ns cs now s).
Proof.
  intros [Hd Hn Hc Hnd Hcn H1] [Sid Snd Scn S1].
  assert (Sid' : NoDup ((sn_id ∘ snd) <$> number_from (next_id (notes s)) ns)).
  { by rewrite list_fmap_compose, number_from_snd. }
  unfold import_result.
  set (dm := id_map sd_id ∅ _). set (nm := id_map sn_id ∅ _).
  split; cbn [decks notes cards]; try by apply table_wf_add_all.
  - intros k n Hin. apply elem_of_add_all in Hin as [Hin|(x & Hin & ->)].
    + destruct (Hnd k n Hin) as (d & Hd1 & Hd2). exists d. split; [done|].
      rewrite keys_add_all. apply elem_of_app. by left.
    + apply number_from_elem_2 in Hin.
      destruct (id_map_total sd_id ∅ (number_from (next_id (decks s)) ds)
                  (sn_deckId x)) as (v & Hv & Hv').
      { rewrite list_fmap_compose, number_from_snd. by apply Snd. }
      exists v. split; [done|]. rewrite keys_add_all. apply elem_of_app. by right.
  - intros k c Hin. apply elem_of_add_all in Hin as [Hin|(x & Hin & ->)].
    + destruct (Hcn k c Hin) as (kn & n & ? & ? & ?). exists kn, n.
      split; [done|]. split; [|done]. apply elem_of_add_all. by left.
    + apply number_from_elem_2 in Hin.
      destruct (Scn x Hin) as (n & Hn' & Hid & Hdk).
      destruct (number_from_elem (next_id (notes s)) n ns Hn') as (kn & Hkn).
      exists kn, (note_of dm now n). split; [|split].
      * cbn. apply id_map_lookup; [done|]. eauto.
      * apply elem_of_add_all. right. eauto.
      * cbn. by rewrite Hdk.
  - intros k n Hin. unfold cards_of_note, add_all. cbn [cards rows].
    rewrite filter_app, length_app.
    apply elem_of_add_all in Hin as [Hin|(x & Hin & ->)].
    + change (filter _ (rows (cards s))) with (cards_of_note s k).
      rewrite (H1 k n Hin), filter_none; [done|].
      intros [kc c] ([kc' c'] & [= -> ->] & _)%list_elem_of_fmap Hk. cbn in Hk.
      apply id_map_lookup in Hk as (a & Ha & _); [|done].
      apply number_from_key_range in Ha.
      apply key_in_rows, (key_lt_next _ _ Hn) in Hin. lia.
    + rewrite filter_none.
      2:{ intros [kc c] Hc' Hk. cbn in Hk.
          destruct (Hcn kc c Hc') as (kn & n' & Hkn & Hn' & _).
          apply key_in_rows, (key_lt_next _ _ Hn) in Hn'.
          apply number_from_key_range in Hin.
          assert (kn = k) by congruence. lia. }
      cbn [length Nat.add]. rewrite <- (S1 x (number_from_elem_2 _ _ _ _ Hin)).
      apply length_filter_numbered. intros kc c. cbn. split.
      * intros Hk. apply id_map_lookup in Hk as (a & Ha & Hid); [|done].
        by rewrite (number_from_functional _ _ _ _ _ Hin Ha).
      * intros Hid. apply id_map_lookup; [done|]. eauto.
Qed.

Lemma consistent_importJSON (obj : js Snapshot) (now : Z) (s : Store) :
  consistent s -> respectful s (ImportJSON obj now) ->
  consistent (exec (importJSON obj now) s).
Proof.
  intros Hs Hr. unfold exec.
  destruct obj as [| |[[| |ds] [| |ns] [| |cs]]]; try done.
  rewrite exec_importJSON. by apply consistent_import_result.
Qed.

(** *** The invariant holds in every state reached by respectful calls *)

Lemma consistent_step (s : Store) (o : op) :
  consistent s -> respectful s o -> consistent (exec (run o) s).
Proof.
  intros Hs Hr. destruct o; cbn [run].
  - unfold exec, bind. rewrite exec_createDeck. cbn [snd ret].
    apply (consistent_createDeck name now s Hs).
  - by apply consistent_renameDeck.
  - by apply consistent_deleteDeck.
  - unfold exec, bind. rewrite exec_createNote. cbn [snd ret].
    pose proof (consistent_createNote deckId fields now s Hs Hr) as H.
    by rewrite exec_createNote in H.
  - by apply consistent_updateNote.
  - by apply consistent_deleteNote.
  - destruct Hr as [Hpd Hpn]. by apply consistent_updateCard.
  - by apply consistent_importJSON.
  - by apply consistent_importCSV.
Qed.

Lemma reachable_consistent (s : Store) : reachable_respectful s -> consistent s.
Proof.
  induction 1 as [|s o _ IH Hr]; [apply consistent_empty|].
  by apply consistent_step.
Qed.

Lemma consistent_refs_ok (s : Store) : consistent s -> refs_ok s.
Proof.
  intros [_ _ _ Hnd Hcn _]. split; [done|].
  intros k c Hin. destruct (Hcn k c Hin) as (kn & n & ? & Hn & _).
  exists kn. split; [done|]. by apply key_in_rows in Hn.
Qed.
(** *** Counting the cards of a deck *)

Lemma filter_ext_in {A} (P Q : A → Prop)
    `{!∀ x, Decision (P x)} `{!∀ x, Decision (Q x)} (l : list A) :
  (forall x, x ∈ l -> P x ↔ Q x) -> filter P l = filter Q l.
Proof.
  induction l as [|x l IH]; intros Hiff; [done|].
  rewrite !filter_cons.
  rewrite IH by (intros y Hy; by apply Hiff, list_elem_of_further).
  destruct (decide (P x)) as [HP|HP], (decide (Q x)) as [HQ|HQ];
    try done; exfalso.
  - by apply HQ, (Hiff x (list_elem_of_here _ _)).
  - by apply HP, (Hiff x (list_elem_of_here _ _)).
Qed.

Lemma length_filter_split {A} (P : A → Prop) `{!∀ x, Decision (P x)} (l : list A) :
  length l = (length (filter (λ x, ¬ P x) l) + length (filter P l))%nat.
Proof.
  induction l as [|x l IH]; [done|]. rewrite !filter_cons.
  destruct (decide (P x)), (decide (¬ P x)); cbn [length]; try lia; done.
Qed.

Lemma length_filter_keys {X} (f : X → option Z) (l : list X) (ks : list Z) :
  NoDup ks ->
  (forall k, k ∈ ks -> length (filter (λ x, f x = Some k) l) = 1%nat) ->
  length (filter (λ x, f x ∈ Some <$> ks) l) = length ks.
Proof.
  induction ks as [|k ks IH]; intros Hnd H1.
  - rewrite filter_none; [done|]. intros x _ Hx. by apply elem_of_nil in Hx.
  - apply NoDup_cons in Hnd as [Hk Hnd].
    assert (Hsplit :
      length (filter (λ x, f x ∈ Some <$> k :: ks) l) =
      (length (filter (λ x, f x = Some k) l) +
       length (filter (λ x, f x ∈ Some <$> ks) l))%nat).
    { clear -Hk. induction l as [|x l IHl]; [done|].
      rewrite fmap_cons, !filter_cons. rewrite fmap_cons in IHl.
      destruct (decide (f x = Some k)) as [E|E].
      + rewrite decide_True by (rewrite E; apply list_elem_of_here).
        rewrite decide_False.
        2:{ rewrite E. intros (k' & [= <-] & Hk')%list_elem_of_fmap. done. }
        cbn [length]. by rewrite IHl.
      + destruct (decide (f x ∈ Some <$> ks)) as [Hin|Hin].
        * rewrite decide_True by (by apply list_elem_of_further).
          cbn [length]. rewrite IHl. lia.
        * rewrite decide_False; [done|].
          intros [?|?]%elem_of_cons; done. }
    rewrite Hsplit, (H1 k (list_elem_of_here _ _)), IH; [done|done|].
    intros k' Hk'. by apply H1, list_elem_of_further.
Qed.

Lemma cards_of_deck_count (s : Store) (id : Z) :
  consistent s ->
  length (cards_of_deck s id) = length (notes_of_deck s id).
Proof.
  intros [Hd Hn Hc Hnd Hcn H1].
  assert (Hsub : forall r, r ∈ notes_of_deck s id -> r ∈ rows (notes s)).
  { intros r Hr. by apply list_elem_of_filter in Hr as [_ Hr]. }
  transitivity (length (notes_of_deck s id).*1); [|by rewrite length_fmap].
  rewrite <- (length_filter_keys (λ r : Z * Card, card_noteId r.2) (rows (cards s))).
  - unfold cards_of_deck. f_equal. apply filter_ext_in. intros [kc c] Hc'. cbn.
    destruct (Hcn kc c Hc') as (kn & n & Hkn & Hn' & Heq). split.
    + intros Hid. rewrite Hkn. apply list_elem_of_fmap. exists kn. split; [done|].
      apply list_elem_of_fmap. exists (kn, n). split; [done|].
      apply list_elem_of_filter. split; [|done]. cbn. congruence.
    + intros (k & Hk & ([k' n'] & E & Hin)%list_elem_of_fmap)%list_elem_of_fmap.
      cbn in E. subst k'.
      assert (k = kn) by congruence. subst k.
      apply list_elem_of_filter in Hin as [Hid Hin]. cbn in Hid.
      rewrite (row_functional _ _ _ _ Hn Hn' Hin) in Heq. congruence.
  - destruct Hn as [Hnd' _]. unfold Dexie.keys in Hnd'.
    unfold notes_of_deck.
    clear -Hnd'. induction (rows (notes s)) as [|r l IH]; [constructor|].
    cbn in Hnd'. apply NoDup_cons in Hnd' as [Hr Hnd'].
    rewrite filter_cons. case_decide; [|by apply IH].
    cbn. apply NoDup_cons. split; [|by apply IH].
    intros (r' & E & [_ Hin]%list_elem_of_filter)%list_elem_of_fmap.
    apply Hr. apply list_elem_of_fmap. eauto.
  - intros k ([k' n] & E & Hin)%list_elem_of_fmap. cbn in E. subst k'.
    apply (H1 k n). by apply Hsub.
Qed.
(** C4 (amended). In every store state whatever, [deleteDeck(id)] on a
    deck with N notes removes exactly those N notes and every card with
    deckId = id, so that no Note or Card with deckId = id remains and
    the deck is gone, and [deleteNote(noteId)] leaves no Card with that
    noteId and no such Note.  Referential integrity is preserved by
    every store operation called respectfully, that is with [createNote]
    given the id of an existing deck, [updateCard] given a patch without
    deckId and noteId, and [importJSON] given a snapshot that is
    consistent in itself: in every state so reached every Card's noteId
    refers to an existing Note and every Note's deckId to an existing
    Deck, and the cards that [deleteDeck(id)] removes are exactly the N
    cards of the N notes it removes. *)
Theorem referential_integrity (s : Store) :
  (forall id,
     let s' := exec (deleteDeck id) s in
     let N := length (notes_of_deck s id) in
     (forall r, r ∈ rows (notes s') ↔
        r ∈ rows (notes s) /\ r ∉ notes_of_deck s id) /\
     (forall r, r ∈ rows (cards s') ↔
        r ∈ rows (cards s) /\ r ∉ cards_of_deck s id) /\
     length (rows (notes s)) = (length (rows (notes s')) + N)%nat /\
     notes_of_deck s' id = [] /\ cards_of_deck s' id = [] /\
     id ∉ Dexie.keys (decks s')) /\
  (forall noteId,
     let s' := exec (deleteNote noteId) s in
     cards_of_note s' noteId = [] /\ noteId ∉ Dexie.keys (notes s')) /\
  (reachable_respectful s ->
     refs_ok s /\
     (forall o, respectful s o -> refs_ok (exec (run o) s)) /\
     (forall id,
        let s' := exec (deleteDeck id) s in
        let N := length (notes_of_deck s id) in
        (forall r, r ∈ rows (cards s') ↔
           r ∈ rows (cards s) /\
           ~ exists n, n ∈ notes_of_deck s id /\ card_noteId r.2 = Some n.1) /\
        length (rows (cards s)) = (length (rows (cards s')) + N)%nat)).
Proof.
  split; [|split].
  - intros id s' N. subst s' N. unfold exec. rewrite exec_deleteDeck.
    cbn [snd notes cards decks].
    unfold Dexie.where_equals_delete, Dexie.delete, notes_of_deck, cards_of_deck.
    cbn [rows notes cards].
    split; [|split; [|split; [|split; [|split]]]].
    + intros r. rewrite !list_elem_of_filter. tauto.
    + intros r. rewrite !list_elem_of_filter. tauto.
    + by rewrite (length_filter_split (λ r : Z * Note, note_deckId r.2 = Some id)).
    + apply filter_none. by intros r [? _]%list_elem_of_filter.
    + apply filter_none. by intros r [? _]%list_elem_of_filter.
    + intros ([k d] & E & [Hne _]%list_elem_of_filter)%list_elem_of_fmap.
      cbn in *. congruence.
  - intros noteId s'. subst s'. unfold exec. rewrite exec_deleteNote.
    cbn [snd notes cards]. unfold cards_of_note. cbn [cards rows]. split.
    + apply filter_none. by intros r [? _]%list_elem_of_filter.
    + intros ([k d] & E & [Hne _]%list_elem_of_filter)%list_elem_of_fmap.
      cbn in *. congruence.
  - intros Hreach. pose proof (reachable_consistent s Hreach) as Hs.
    split; [by apply consistent_refs_ok|].
    split; [intros o Ho; by apply consistent_refs_ok, consistent_step|].
    intros id s' N. subst s' N. unfold exec. rewrite exec_deleteDeck.
    cbn [snd notes cards decks].
    unfold Dexie.where_equals_delete, notes_of_deck. cbn [rows notes cards].
    destruct Hs as [Hd Hn Hc Hnd Hcn H1]. split.
    + intros [kc c]. rewrite list_elem_of_filter. cbn. split.
      * intros [Hne Hin]. split; [done|].
        intros ([kn n] & [Hid Hn']%list_elem_of_filter & Hk). cbn in *.
        destruct (Hcn kc c Hin) as (kn' & n' & Hkn & Hn'' & Heq).
        assert (kn' = kn) by congruence. subst kn'.
        rewrite (row_functional _ _ _ _ Hn Hn'' Hn') in Heq. congruence.
      * intros [Hin Hno]. split; [|done]. intros Hid. apply Hno.
        destruct (Hcn kc c Hin) as (kn & n & Hkn & Hn' & Heq).
        exists (kn, n). split; [|done].
        apply list_elem_of_filter. split; [|done]. cbn. congruence.
    + pose proof (cards_of_deck_count s id
        (Build_consistent s Hd Hn Hc Hnd Hcn H1)) as Hcount.
      unfold cards_of_deck, notes_of_deck in Hcount. rewrite <- Hcount.
      by rewrite (length_filter_split (λ r : Z * Card, card_deckId r.2 = Some id)).
Qed.

Lemma referential_integrity_witness :
  reachable_respectful store_one_note /\
  refs_ok store_one_note /\
  length (rows (cards store_one_note)) =
    (length (rows (cards (exec (deleteDeck 1) store_one_note))) +
     length (notes_of_deck store_one_note 1))%nat.
Proof.
  assert (H : reachable_respectful store_one_note).
  { apply (respectful_step _ (CreateNote 1 undefined 0)).
    - apply (respectful_step _ (CreateDeck "Deck" 0)); [|exact I].
      apply respectful_empty.
    - vm_compute. apply list_elem_of_here. }
  split; [exact H|].
  destruct (referential_integrity store_one_note) as (_ & _ & Hinv).
  destruct (Hinv H) as (Hrefs & _ & Hdel).
  split; [exact Hrefs|].
  destruct (Hdel 1) as (_ & Hcards). exact Hcards.
Defined.

(** Why [updateCard] needs its proviso: a patch that carries a noteId
    sets it, whether or not a Note has that id. *)
Lemma updateCard_can_break_refs :
  reachable_respectful store_one_note /\
  ~ refs_ok (exec (updateCard 1
      {| patch_deckId := None; patch_noteId := Some (Some 99);
         patch_ease := None; patch_interval := None; patch_reps := None;
         patch_lapses := None; patch_due := None; patch_state := None |})
      store_one_note).
Proof.
  split.
  - apply (respectful_step _ (CreateNote 1 undefined 0)).
    + apply (respectful_step _ (CreateDeck "Deck" 0)); [|exact I].
      apply respectful_empty.
    + vm_compute. apply list_elem_of_here.
  - intros [_ Hc].
    destruct (Hc 1 (apply_patch
      {| patch_deckId := None; patch_noteId := Some (Some 99);
         patch_ease := None; patch_interval := None; patch_reps := None;
         patch_lapses := None; patch_due := None; patch_state := None |}
      (new_card 1 1 0))) as (kn & Hkn & Hin).
    + vm_compute. apply list_elem_of_here.
    + cbn in Hkn. injection Hkn as <-. vm_compute in Hin.
      apply list_elem_of_singleton in Hin. discriminate.
Qed.
End Integrity.

(** ** CSV export followed by CSV import *)

Section CsvRoundTrip.
Import Db JsString.
Local Arguments String.append !_ _ / : simpl nomatch.

(** C9 (fails on the code). [parseCell] trims every cell: a front that
    begins with a space comes back without it. *)
Lemma csv_roundtrip_trims : ~ csv_roundtrip_keeps_triples.
Proof.
  intros H.
  destruct (H store_padded_front empty_store 0) as (csv & s'' & added & He & Hi & Hn & Ht).
  { split; [apply NoDup_nil_2|apply Forall_nil_2]. }
  vm_compute in He. injection He as <-.
  vm_compute in Hi. injection Hi as <-.
  cbn in Hn. subst added. vm_compute in Ht. discriminate.
Qed.

(** *** Strings *)

Lemma append_assoc (a b c : string) : (a +:+ b) +:+ c = a +:+ (b +:+ c).
Proof. induction a as [|x a IH]; cbn; [done|]. by rewrite IH. Qed.

Lemma append_nil_r (a : string) : a +:+ "" = a.
Proof. induction a as [|x a IH]; cbn; [done|]. by rewrite IH. Qed.

Lemma contains_append (c : ascii) (a b : string) :
  contains c (a +:+ b) = contains c a || contains c b.
Proof.
  induction a as [|x a IH]; cbn; [done|]. by rewrite IH, orb_assoc.
Qed.

Lemma contains_double_quotes (v : string) :
  contains LF (double_quotes v) = contains LF v.
Proof.
  induction v as [|x v IH]; cbn; [done|].
  destruct (Ascii.eqb_spec x dquote) as [->|]; cbn; by rewrite IH.
Qed.

Lemma endsWith_snoc (c d : ascii) (a : string) :
  endsWith c (a +:+ String d "") = Ascii.eqb d c.
Proof.
  induction a as [|x a IH]; cbn; [done|].
  rewrite IH. by destruct a.
Qed.

(** *** Lines *)

Lemma split_lines_single (l : string) :
  contains LF l = false -> split_lines l = [l].
Proof.
  induction l as [|c l IH]; [done|]. cbn [contains split_lines].
  intros [Hc Hl]%orb_false_iff. rewrite Hc, (IH Hl).
  destruct (Ascii.eqb c CR); [|done].
  destruct l as [|c2 l2]; [done|].
  cbn in Hl. apply orb_false_iff in Hl as [-> _]. done.
Qed.

Lemma split_lines_cons (l rest : string) :
  contains LF l = false -> endsWith CR l = false ->
  split_lines (l +:+ String LF rest) = l :: split_lines rest.
Proof.
  induction l as [|c l IH]; intros Hlf Hcr.
  - cbn. done.
  - cbn [contains] in Hlf. apply orb_false_iff in Hlf as [Hc Hl].
    cbn [String.append split_lines]. rewrite Hc.
    assert (Hcr' : endsWith CR l = false).
    { destruct l; [done|]. exact Hcr. }
    rewrite (IH Hl Hcr').
    destruct (Ascii.eqb c CR) eqn:Ec; [|done].
    destruct l as [|c2 l2].
    + cbn in Hcr. congruence.
    + cbn in Hl. apply orb_false_iff in Hl as [Hc2 _].
      cbn [String.append]. by rewrite Hc2.
Qed.

Lemma split_lines_join (l : string) (ls : list string) :
  Forall line_ok (l :: ls) ->
  filter (λ l, l ≠ "") (split_lines (join (String LF "") (l :: ls))) = l :: ls.
Proof.
  revert l. induction ls as [|l' ls IH]; intros l Hok.
  - apply Forall_cons in Hok as [(Hlf & _ & Hne) _]. cbn [join].
    rewrite split_lines_single by done. by rewrite filter_cons_True.
  - apply Forall_cons in Hok as [(Hlf & Hcr & Hne) Hok].
    change (join (String LF "") (l :: l' :: ls))
      with (l +:+ String LF "" +:+ join (String LF "") (l' :: ls)).
    cbn [String.append].
    rewrite split_lines_cons by done.
    rewrite filter_cons_True by done. f_equal. by apply IH.
Qed.
(** *** The character loop on an escaped cell *)

(** One step of the loop, by the character read. *)
Lemma split_cells_pair (rest : string) (parts : list string) (cur : string) (inQ : bool) :
  split_cells (String dquote (String dquote rest)) parts cur inQ =
  split_cells rest parts (cur +:+ String dquote "") inQ.
Proof. reflexivity. Qed.

Lemma split_cells_toggle (c : ascii) (rest : string) (parts : list string)
    (cur : string) (inQ : bool) :
  Ascii.eqb c dquote = false ->
  split_cells (String dquote (String c rest)) parts cur inQ =
  split_cells (String c rest) parts cur (negb inQ).
Proof. intros Hc. cbn [split_cells]. rewrite Ascii.eqb_refl, Hc. done. Qed.

Lemma split_cells_toggle_end (parts : list string) (cur : string) (inQ : bool) :
  split_cells (String dquote "") parts cur inQ = parts ++ [cur].
Proof. reflexivity. Qed.

Lemma split_cells_copy (c : ascii) (rest : string) (parts : list string)
    (cur : string) :
  Ascii.eqb c dquote = false ->
  split_cells (String c rest) parts cur true =
  split_cells rest parts (cur +:+ String c "") true.
Proof. intros Hc. cbn [split_cells]. by rewrite Hc, andb_false_r. Qed.

Lemma split_cells_comma (rest : string) (parts : list string) (cur : string) :
  split_cells (String comma rest) parts cur false =
  split_cells rest (parts ++ [cur]) "" false.
Proof. reflexivity. Qed.

(** Inside quotes the loop copies the cell up to its closing quote. *)
Lemma split_cells_quoted (w rest : string) (parts : list string) (cur : string) :
  cell_end rest ->
  split_cells (double_quotes w +:+ String dquote rest) parts cur true =
  split_cells rest parts (cur +:+ w) false.
Proof.
  intros Hrest. revert cur. induction w as [|c w IH]; intros cur.
  - cbn [double_quotes String.append]. rewrite append_nil_r.
    destruct Hrest as [->|[r ->]]; [done|].
    by rewrite split_cells_toggle.
  - cbn [double_quotes].
    destruct (Ascii.eqb c dquote) eqn:Ec.
    + apply Ascii.eqb_eq in Ec. subst c.
      cbn [String.append]. rewrite split_cells_pair, IH, append_assoc. done.
    + cbn [String.append]. rewrite split_cells_copy by done.
      rewrite IH, append_assoc. done.
Qed.

(** From outside quotes, a whole escaped cell. *)
Lemma split_cells_escape (v rest : string) (parts : list string) (cur : string) :
  cell_end rest ->
  split_cells (escape v +:+ rest) parts cur false =
  split_cells rest parts (cur +:+ raw_cell v) false.
Proof.
  intros Hrest. unfold escape. rewrite append_assoc.
  cbn [String.append]. revert cur.
  induction v as [|c v IH]; intros cur.
  - cbn [double_quotes String.append]. by rewrite split_cells_pair.
  - destruct (Ascii.eqb c dquote) eqn:Ec.
    + apply Ascii.eqb_eq in Ec. subst c.
      cbn [double_quotes]. rewrite Ascii.eqb_refl.
      cbn [String.append]. rewrite split_cells_pair.
      rewrite IH, append_assoc. unfold raw_cell. cbn [all_quotes].
      rewrite Ascii.eqb_refl. cbn [andb].
      by destruct (all_quotes v).
    + assert (Hraw : raw_cell (String c v) = String c v).
      { unfold raw_cell. cbn [all_quotes]. by rewrite Ec. }
      rewrite Hraw.
      rewrite <- (split_cells_quoted (String c v) rest parts cur Hrest).
      cbn [double_quotes]. rewrite Ec.
      cbn [String.append]. by rewrite split_cells_toggle.
Qed.

Lemma split_cells_row (a b c : string) :
  split_cells (join "," (escape <$> [a; b; c])) [] "" false =
  [raw_cell a; raw_cell b; raw_cell c].
Proof.
  cbn [fmap list_fmap join].
  rewrite split_cells_escape by (right; by eexists).
  cbn [String.append]. rewrite split_cells_comma.
  rewrite split_cells_escape by (right; by eexists).
  cbn [String.append]. rewrite split_cells_comma.
  rewrite <- (append_nil_r (escape c)).
  rewrite split_cells_escape by (by left).
  reflexivity.
Qed.

(** *** [parseCell] on a collected cell *)

Lemma all_quotes_ends (v : string) :
  all_quotes v = true -> v ≠ "" ->
  startsWith dquote v && endsWith dquote v = true.
Proof.
  destruct v as [|c v]; [done|]. intros H _.
  cbn [all_quotes] in H. apply andb_true_iff in H as [Hc Hv].
  cbn [startsWith]. rewrite Hc. cbn [andb].
  clear -Hc Hv. revert c Hc. induction v as [|c' v IH]; intros c Hc; [done|].
  cbn [all_quotes] in Hv. apply andb_true_iff in Hv as [Hc' Hv].
  cbn [endsWith]. by apply IH.
Qed.

Lemma parseCell_raw_cell (v : string) : csv_safe v -> parseCell (raw_cell v) = v.
Proof.
  intros (_ & Htrim & Hq). unfold raw_cell.
  destruct (all_quotes v) eqn:Ea.
  - destruct v as [|c v]; [reflexivity|].
    rewrite all_quotes_ends in Hq; done.
  - unfold parseCell. by rewrite Htrim, Hq.
Qed.

Lemma contains_escape (v : string) : contains LF (escape v) = contains LF v.
Proof.
  unfold escape. rewrite contains_append. cbn [contains].
  rewrite contains_double_quotes.
  replace (Ascii.eqb dquote LF) with false by done.
  by rewrite !orb_false_r.
Qed.

Lemma row_line_ok (r : CsvRow) :
  csv_safe_row r ->
  line_ok (join "," (escape <$> [deckName r; row_front r; row_back r])).
Proof.
  intros (_ & (Ha & _) & (Hb & _) & (Hc & _)).
  change (join "," (escape <$> [deckName r; row_front r; row_back r]))
    with (escape (deckName r) +:+ "," +:+ escape (row_front r) +:+ "," +:+
          escape (row_back r)).
  split; [|split].
  - rewrite !contains_append, !contains_escape, Ha, Hb, Hc. done.
  - unfold escape at 3. rewrite <- !append_assoc. apply endsWith_snoc.
  - done.
Qed.
(** *** The import loop *)

Lemma or_str_self (b : string) : or_str (Some b) "" = b.
Proof. unfold or_str. by destruct (String.eqb_spec b ""). Qed.

Lemma or_str_nonempty (a d : string) : a ≠ "" -> or_str (Some a) d = a.
Proof. intros H. unfold or_str. by destruct (String.eqb_spec a ""). Qed.

Lemma getOrCreateDeckId_effect (name : string) (now : Z) (s : Store) :
  table_wf (decks s) ->
  exists k d s1,
    getOrCreateDeckId name now s = (Ok k, s1) /\
    table_wf (decks s1) /\
    (exists extra, rows (decks s1) = rows (decks s) ++ extra) /\
    notes s1 = notes s /\ cards s1 = cards s /\
    (k, d) ∈ rows (decks s1) /\ deck_name d = name.
Proof.
  intros Hwf. unfold getOrCreateDeckId, bind, read.
  destruct (head _) as [[k d]|] eqn:E.
  - exists k, d, s. split; [done|]. split; [done|].
    split; [exists []; by rewrite app_nil_r|]. split; [done|]. split; [done|].
    apply head_Some_elem_of, list_elem_of_filter in E as [Hname E].
    cbn in Hname. split; [done|congruence].
  - rewrite exec_createDeck.
    eexists _, {| deck_name := name; deck_createdAt := now |}, _.
    split; [done|]. cbn [decks notes cards].
    split; [by apply table_wf_add|]. split; [by eexists|].
    split; [done|]. split; [done|]. split; [|done].
    cbn. apply elem_of_app. right. apply list_elem_of_here.
Qed.

Lemma import_line_effect (r : CsvRow) (now : Z) (s : Store) :
  csv_safe_row r -> table_wf (decks s) ->
  exists s1 n c,
    import_line now (row_line r) s = (Ok tt, s1) /\
    table_wf (decks s1) /\
    (exists extra, rows (decks s1) = rows (decks s) ++ extra) /\
    rows (notes s1) = rows (notes s) ++ [n] /\
    rows (cards s1) = rows (cards s) ++ [c] /\
    imported_note s1 now n r /\
    (exists k, c.2 = new_card k n.1 now).
Proof.
  intros (Hne & Ha & Hb & Hc) Hwf.
  unfold import_line, row_line. cbv zeta. rewrite split_cells_row.
  cbn [fmap list_fmap lookup list_lookup].
  rewrite !parseCell_raw_cell by done.
  rewrite or_str_nonempty, !or_str_self by done.
  destruct (getOrCreateDeckId_effect (deckName r) now s Hwf)
    as (k & d & s1 & Hget & Hwf1 & Hext & Hn1 & Hc1 & Hin & Hname).
  unfold bind at 1. rewrite Hget. unfold bind. rewrite exec_createNote.
  cbn [ret]. rewrite Hn1, Hc1. eexists _, _, _. split; [reflexivity|].
  cbn [decks notes cards Dexie.add snd rows].
  split; [done|]. split; [done|].
  split; [reflexivity|]. split; [reflexivity|]. split.
  - exists k, d. cbn. done.
  - exists k. cbn. done.
Qed.

Lemma import_lines_effect (now : Z) (rs : list CsvRow) (s : Store) :
  Forall csv_safe_row rs -> table_wf (decks s) ->
  exists s' added addedc,
    for_of (row_line <$> rs) (import_line now) s = (Ok tt, s') /\
    table_wf (decks s') /\
    (exists extra, rows (decks s') = rows (decks s) ++ extra) /\
    rows (notes s') = rows (notes s) ++ added /\
    rows (cards s') = rows (cards s) ++ addedc /\
    Forall2 (imported_note s' now) added rs /\
    Forall2 (λ c n, exists k, c.2 = new_card k n.1 now) addedc added.
Proof.
  intros Hsafe. revert s. induction Hsafe as [|r rs Hr Hrs IH]; intros s Hwf.
  - exists s, [], []. cbn. rewrite !app_nil_r.
    repeat (split; [done || by exists []; rewrite app_nil_r|]). constructor.
  - destruct (import_line_effect r now s Hr Hwf)
      as (s1 & n & c & Hline & Hwf1 & [e1 He1] & Hn1 & Hc1 & Hnote & Hcard).
    destruct (IH s1 Hwf1)
      as (s' & added & addedc & Hfor & Hwf' & [e2 He2] & Hn' & Hc' & Hnotes & Hcards).
    exists s', (n :: added), (c :: addedc).
    cbn [fmap list_fmap for_of]. unfold bind. rewrite Hline, Hfor.
    split; [done|]. split; [done|].
    split; [exists (e1 ++ e2); by rewrite He2, He1, app_assoc|].
    split; [by rewrite Hn', Hn1, <- app_assoc|].
    split; [by rewrite Hc', Hc1, <- app_assoc|].
    split; [|by constructor].
    constructor; [|done].
    destruct Hnote as (k & d & ? & Hin & ? & ?). exists k, d.
    split; [done|]. split; [|done].
    rewrite He2. apply elem_of_app. by left.
Qed.

(** *** Reading a deck back through [deckById] *)

Lemma deckById_lookup (t : Table Deck) (k : Z) (d : Deck) :
  table_wf t -> (k, d) ∈ rows t ->
  foldl (λ (m : gmap Z Deck) (d : Z * Deck), <[d.1 := d.2]> m) ∅ (rows t) !! k = Some d.
Proof.
  intros [Hnd _] Hin. unfold Dexie.keys in Hnd.
  assert (Hkeep : forall (l : list (Z * Deck)) (m : gmap Z Deck),
    k ∉ l.*1 ->
    foldl (λ (m : gmap Z Deck) (d : Z * Deck), <[d.1 := d.2]> m) m l !! k = m !! k).
  { clear. intros l. induction l as [|[k0 d0] l IH]; intros m Hk; [done|].
    cbn in Hk. apply not_elem_of_cons in Hk as [Hne Hk].
    cbn [foldl]. rewrite IH by done. by rewrite lookup_insert_ne. }
  generalize (∅ : gmap Z Deck).
  induction (rows t) as [|[k0 d0] l IH]; intros m.
  - by apply elem_of_nil in Hin.
  - cbn in Hnd. apply NoDup_cons in Hnd as [Hk0 Hnd].
    cbn [foldl]. apply elem_of_cons in Hin as [[= <- <-]|Hin].
    + rewrite Hkeep by done. apply lookup_insert_eq.
    + by apply IH.
Qed.

Lemma triple_of_imported (s : Store) (now : Z) (n : Z * Note) (r : CsvRow) :
  table_wf (decks s) -> imported_note s now n r -> triple_of s n = r.
Proof.
  intros Hwf (k & d & Hk & Hin & Hname & Hf).
  unfold triple_of. rewrite Hk, Hf. cbn [mbind option_bind nullish front back].
  rewrite (deckById_lookup _ _ _ Hwf Hin), Hname. by destruct r.
Qed.

(** C9 (amended). When every cell that [exportCSV] writes (deck name,
    front, back of every note) has no line feed, no white space at
    either end and does not both begin and end with a double quote, and
    no exported deck name is empty, then importing the exported text
    into a store succeeds and appends, for each original Note and in the
    same order, a Note whose (deckName, front, back) equals the
    original's, decks being reused by name; each new Note's Card starts
    from the new-card defaults, so scheduling state is not carried
    over. *)
Theorem csv_roundtrip (s s' : Store) (now : Z) :
  table_wf (decks s') -> Forall csv_safe_row (export_rows s) ->
  exists csv s'' added addedc,
    exportCSV s = (Ok csv, s) /\
    importCSV csv now s' = (Ok tt, s'') /\
    rows (notes s'') = rows (notes s') ++ added /\
    triple_of s'' <$> added = export_rows s /\
    rows (cards s'') = rows (cards s') ++ addedc /\
    Forall2 (λ c n, exists k, c.2 = new_card k n.1 now) addedc added.
Proof.
  intros Hwf Hsafe.
  destruct (import_lines_effect now (export_rows s) s' Hsafe Hwf)
    as (s'' & added & addedc & Hfor & Hwf'' & _ & Hn & Hc & Hnotes & Hcards).
  exists (objectsToCSV (export_rows s)), s'', added, addedc.
  split; [reflexivity|]. split.
  - unfold importCSV, objectsToCSV. cbv zeta.
    change ([join "," ["deckName"; "front"; "back"]] ++
            ((λ r, join "," (escape <$> [deckName r; row_front r; row_back r]))
               <$> export_rows s))
      with ("deckName,front,back" :: (row_line <$> export_rows s)).
    rewrite split_lines_join.
    + exact Hfor.
    + constructor; [done|].
      apply Forall_fmap. eapply Forall_impl; [exact Hsafe|].
      intros r Hr. by apply row_line_ok.
  - split; [done|]. split; [|done].
    clear -Hwf'' Hnotes. induction Hnotes as [|n r added rs Hn _ IH]; [done|].
    cbn [fmap list_fmap]. f_equal; [|exact IH].
    by apply (triple_of_imported _ now).
Qed.

Lemma csv_roundtrip_witness :
  exists csv s'' added addedc,
    exportCSV store_one_plain_note = (Ok csv, store_one_plain_note) /\
    importCSV csv 5 empty_store = (Ok tt, s'') /\
    rows (notes s'') = rows (notes empty_store) ++ added /\
    triple_of s'' <$> added = export_rows store_one_plain_note /\
    rows (cards s'') = rows (cards empty_store) ++ addedc /\
    Forall2 (λ c n, exists k, c.2 = new_card k n.1 5) addedc added.
Proof.
  apply (csv_roundtrip store_one_plain_note empty_store 5).
  - split; [apply NoDup_nil_2|apply Forall_nil_2].
  - vm_compute. repeat constructor; discriminate.
Defined.
End CsvRoundTrip.

(** * Further properties of the code *)

(** * Further properties of the code *)

(** ** scheduler.js *)

Section SchedulerMore.
Import Scheduler.
Local Open Scope string_scope.

Lemma is_grade_dec (g : string) : {is_grade g} + {~ is_grade g}.
Proof.
  unfold is_grade.
  destruct (string_dec g "again"); [left; tauto|].
  destruct (string_dec g "hard"); [left; tauto|].
  destruct (string_dec g "good"); [left; tauto|].
  destruct (string_dec g "easy"); [left; tauto|].
  right. tauto.
Defined.

Lemma schedule_not_grade (c : Card) (g : string) (now : Z) :
  ~ is_grade g -> schedule c g now = Throw (Error "Unknown grade").
Proof.
  intros Hg. unfold schedule.
  destruct (String.eqb_spec g "again") as [->|_]; [exfalso; apply Hg; red; tauto|].
  destruct (String.eqb_spec g "hard") as [->|_]; [exfalso; apply Hg; red; tauto|].
  destruct (String.eqb_spec g "good") as [->|_]; [exfalso; apply Hg; red; tauto|].
  destruct (String.eqb_spec g "easy") as [->|_]; [exfalso; apply Hg; red; tauto|].
  reflexivity.
Qed.

(** What every graded review does besides ease and interval. *)
Lemma schedule_is_grade (c : Card) (g : string) (now : Z) :
  is_grade g ->
  exists c' e' i',
    schedule c g now = Ok c' /\
    card_ease c' = val e' /\ card_interval c' = val i' /\ 1 <= i' /\
    card_deckId c' = card_deckId c /\ card_noteId c' = card_noteId c /\
    card_state c' = st_review /\
    card_reps c' =
      val (if String.eqb g "again" then 0 else js_add (or_Z (card_reps c) 0) 1) /\
    card_lapses c' =
      val (if String.eqb g "again" then js_add (or_Z (card_lapses c) 0) 1
           else or_Z (card_lapses c) 0).
Proof.
  intros [-> | [-> | [-> | ->]]]; unfold schedule;
    cbn [String.eqb Ascii.eqb Bool.eqb];
    eexists _, _, _; (split; [reflexivity|]); cbn;
    (split; [reflexivity|]); (split; [reflexivity|]);
    (split; [repeat case_match; lia|]); repeat split; reflexivity.
Qed.

(** X1. [schedule] throws 'Unknown grade' exactly for a grade other
    than again, hard, good, easy; for those four it returns a card. *)
Theorem schedule_unknown_grade (c : Card) (g : string) (now : Z) :
  (schedule c g now = Throw (Error "Unknown grade") ↔ ~ is_grade g) /\
  ((exists c', schedule c g now = Ok c') ↔ is_grade g).
Proof.
  destruct (is_grade_dec g) as [Hg|Hg].
  - destruct (schedule_is_grade c g now Hg) as (c' & e' & i' & Hs & _).
    rewrite Hs. split; split; try done; eauto.
  - rewrite (schedule_not_grade c g now Hg). split; split; try done.
    intros [c' ?]. done.
Qed.


Lemma Math_round_mono (x y : Q) : (x <= y)%Q -> Math_round x <= Math_round y.
Proof. intros H. unfold Math_round. apply Qfloor_resp_le. lra. Qed.

Lemma Math_round_ge (n : Z) (x : Q) : (inject_Z n <= x)%Q -> n <= Math_round x.
Proof.
  intros H. rewrite <- (Qfloor_Z n). unfold Math_round.
  apply Qfloor_resp_le. lra.
Qed.

Lemma Qmult_le_nonneg_l (x a b : Q) :
  (0 <= x)%Q -> (a <= b)%Q -> (x * a <= x * b)%Q.
Proof.
  intros Hx Hab. rewrite (Qmult_comm x a), (Qmult_comm x b).
  by apply Qmult_le_compat_r.
Qed.

Lemma inject_Z_nonneg (i : Z) : 0 <= i -> (0 <= inject_Z i)%Q.
Proof. intros H. change 0%Q with (inject_Z 0). by rewrite <- Zle_Qle. Qed.

(** X3. On a card with at least two earlier successful reviews, an ease
    within [1.3, 3.5] and an interval >= 0, no passing grade shortens
    the interval and a better grade never gives the shorter one:
    interval <= hard <= good <= easy, and the due dates are ordered the
    same way. *)
Theorem better_grade_later_due (c : Card) (now : Z) (e : Q) (i r : Z) :
  card_ease c = val e -> (1.3 <= e <= 3.5)%Q ->
  card_interval c = val i -> 0 <= i ->
  card_reps c = val r -> 2 <= r ->
  exists ch cg ce ih ig ie,
    schedule c "hard" now = Ok ch /\ card_interval ch = val ih /\
    schedule c "good" now = Ok cg /\ card_interval cg = val ig /\
    schedule c "easy" now = Ok ce /\ card_interval ce = val ie /\
    i <= ih /\ ih <= ig /\ ig <= ie /\
    card_due ch <= card_due cg /\ card_due cg <= card_due ce.
Proof.
  intros He [Hlo Hhi] Hi Hi0 Hr Hr2.
  assert (Hne : ~ (e == 0)%Q) by (intros E; rewrite E in Hlo; lra).
  pose proof (inject_Z_nonneg i Hi0) as Hq.
  unfold schedule. cbn [String.eqb Ascii.eqb Bool.eqb].
  rewrite He, Hi, Hr, or_Q_val, !or_Z_val by done.
  destruct (Z.eqb_spec r 0); [lia|]. destruct (Z.eqb_spec r 1); [lia|].
  eexists _, _, _, _, _, _.
  do 6 (split; [reflexivity|]). cbn [card_due].
  set (ih := Z.max 1 (Math_round (inject_Z (Z.max 1 i) * 1.2))).
  set (ig := Z.max 1 (Math_round (inject_Z i * e))).
  set (ie := Z.max 1 (Math_round (inject_Z i * (Math_min 3.5 (e + 0.15) + 0.2)))).
  assert (H1 : i <= ih).
  { subst ih. destruct (Z.max_spec 1 i) as [[? ->]|[? ->]].
    - etransitivity; [|apply Z.le_max_r]. apply Math_round_ge. lra.
    - lia. }
  assert (H2 : ih <= ig).
  { subst ih ig. destruct (Z.max_spec 1 i) as [[? ->]|[? ->]].
    - apply Z.max_le_compat_l, Math_round_mono.
      by apply Qmult_le_nonneg_l; [|lra].
    - assert (i = 0 \/ i = 1) as [-> | ->] by lia.
      + change (Z.max 1 (Math_round (inject_Z 1 * 1.2))) with 1.
        apply Z.le_max_l.
      + apply Z.max_le_compat_l, Math_round_mono.
        by apply Qmult_le_nonneg_l; [|lra]. }
  assert (H3 : ig <= ie).
  { subst ig ie. apply Z.max_le_compat_l, Math_round_mono.
    apply Qmult_le_nonneg_l; [done|]. split_max; lra. }
  unfold day_ms. repeat split; try done; nia.
Qed.

Lemma better_grade_later_due_witness :
  exists ch cg ce ih ig ie,
    schedule card_2_5_100 "hard" 0 = Ok ch /\ card_interval ch = val ih /\
    schedule card_2_5_100 "good" 0 = Ok cg /\ card_interval cg = val ig /\
    schedule card_2_5_100 "easy" 0 = Ok ce /\ card_interval ce = val ie /\
    100 <= ih /\ ih <= ig /\ ig <= ie /\
    card_due ch <= card_due cg /\ card_due cg <= card_due ce.
Proof.
  apply (better_grade_later_due card_2_5_100 0 2.5%Q 100 2);
    try reflexivity; try lia.
  split; vm_compute; discriminate.
Defined.

Lemma lapses_in_cons (g : string) (gs : list string) :
  lapses_in (g :: gs) = (if String.eqb g "again" then 1 else 0) + lapses_in gs.
Proof.
  unfold lapses_in. rewrite filter_cons.
  destruct (String.eqb_spec g "again") as [->|Hne].
  - rewrite decide_True by done. cbn [length]. lia.
  - rewrite decide_False by done. lia.
Qed.

Lemma lapses_in_nonneg (gs : list string) : 0 <= lapses_in gs.
Proof. unfold lapses_in. lia. Qed.

(** X4. A run of reviews goes through exactly when every grade is one
    of the four, and then, as long as the count stays within 2^53
    (where doubles count exactly), the lapse counter has grown by the
    number of 'again' grades in the run; with an unknown grade anywhere
    the run throws 'Unknown grade'. *)
Theorem review_lapses (c : Card) (gs : list string) (now : Z) :
  (Forall is_grade gs ->
     exists c', review c gs now = Ok c' /\
       (Z.abs (or_Z (card_lapses c) 0) + lapses_in gs <= 2 ^ 53 ->
        or_Z (card_lapses c') 0 = or_Z (card_lapses c) 0 + lapses_in gs)) /\
  (~ Forall is_grade gs -> review c gs now = Throw (Error "Unknown grade")).
Proof.
  revert c. induction gs as [|g gs IH]; intros c.
  - split; [|intros H; exfalso; apply H; constructor].
    intros _. exists c. split; [done|]. intros _. unfold lapses_in. cbn. lia.
  - cbn [review]. destruct (is_grade_dec g) as [Hg|Hg].
    + destruct (schedule_is_grade c g now Hg)
        as (c1 & e1 & i1 & Hs & _ & _ & _ & _ & _ & _ & _ & Hl).
      rewrite Hs. destruct (IH c1) as [IHok IHbad]. split.
      * intros [_ Hgs]%Forall_cons. destruct (IHok Hgs) as (c' & Hr & Hc').
        exists c'. split; [done|]. rewrite lapses_in_cons. intros Hb.
        pose proof (lapses_in_nonneg gs) as Hnn.
        rewrite Hl, or_Z_val in Hc'.
        destruct (String.eqb g "again").
        -- rewrite js_add_exact in Hc' by lia. rewrite Hc' by lia. lia.
        -- rewrite Hc' by lia. lia.
      * intros Hbad. apply IHbad. intros Hgs. apply Hbad. by constructor.
    + rewrite (schedule_not_grade c g now Hg). split; [|done].
      intros [? _]%Forall_cons. done.
Qed.

Lemma review_lapses_witness :
  exists c', review base ["good"; "again"; "hard"; "again"] 0 = Ok c' /\
    or_Z (card_lapses c') 0 = or_Z (card_lapses base) 0 + 2.
Proof.
  destruct (proj1 (review_lapses base ["good"; "again"; "hard"; "again"] 0))
    as (c' & Hr & Hl); [repeat constructor; unfold is_grade; tauto|].
  exists c'. split; [exact Hr|]. apply Hl. vm_compute. discriminate.
Defined.
End SchedulerMore.

(** ** db.js: keys *)

Section Keys.
Import Db.

Lemma StronglySorted_filter {A} (R : relation A) (P : A → Prop)
    `{!∀ x, Decision (P x)} (l : list A) :
  StronglySorted R l -> StronglySorted R (filter P l).
Proof.
  induction 1 as [|x l Hl IH Hx]; [constructor|].
  rewrite filter_cons. case_decide; [|done].
  constructor; [done|].
  apply Forall_forall. intros y [_ Hy]%list_elem_of_filter.
  rewrite Forall_forall in Hx. by apply Hx.
Qed.

Lemma table_step_refl {A} (t : Table A) : table_step t t.
Proof. split; [done|]. split; [lia|]. intros k Hk. by left. Qed.

Lemma table_step_trans {A} (t1 t2 t3 : Table A) :
  table_step t1 t2 -> table_step t2 t3 -> table_step t1 t3.
Proof.
  intros [Hs1 [Hn1 Hk1]] [Hs2 [Hn2 Hk2]]. split; [auto|]. split; [lia|].
  intros k Hk. destruct (Hk2 k Hk) as [Hk'|Hk']; [|right; lia].
  apply Hk1 in Hk'. done.
Qed.

Lemma table_step_filter {A} (P : Z * A → Prop) `{!∀ r, Decision (P r)} (t : Table A) :
  table_step t (mkTable (filter P (rows t)) (next_id t)).
Proof.
  split.
  - intros (Hs & Hb & Hn). split; [|split]; cbn [rows next_id]; [| |done].
    + by apply StronglySorted_filter.
    + rewrite Forall_forall in *. intros k Hk. apply Hb.
      apply list_elem_of_fmap in Hk as (r & -> & [_ Hr]%list_elem_of_filter).
      apply list_elem_of_fmap. eauto.
  - split; [cbn; lia|]. intros k Hk. left.
    apply list_elem_of_fmap in Hk as (r & -> & [_ Hr]%list_elem_of_filter).
    apply list_elem_of_fmap. eauto.
Qed.

Lemma table_step_update {A} (k : Z) (f : A → A) (t : Table A) :
  table_step t (Dexie.update k f t).
Proof.
  split.
  - intros (Hs & Hb & Hn). split; [|split]; [| |done].
    + unfold Dexie.update. cbn [rows].
      eapply StronglySorted_fmap; [|done].
      intros [k1 x1] [k2 x2]. cbn. by repeat case_decide.
    + by rewrite keys_update.
  - split; [cbn; lia|]. intros k' Hk. left. by rewrite keys_update in Hk.
Qed.

Lemma table_step_add_all {A B} (f : A → B) (l : list A) (t : Table B) :
  table_step t (add_all f l t).
Proof.
  split.
  - intros (Hs & Hb & Hn). split; [|split].
    + unfold add_all. cbn [rows]. apply StronglySorted_app_2; [|done|].
      * intros [k1 x1] [k2 x2] H1 H2. cbn.
        apply list_elem_of_fmap in H2 as ([k2' a] & [= -> ->] & H2).
        apply number_from_key_range in H2.
        rewrite Forall_forall in Hb.
        assert (k1 ∈ Dexie.keys t) as Hk1%Hb
          by (apply list_elem_of_fmap; by exists (k1, x1)).
        lia.
      * generalize (next_id t). clear. induction l as [|a l IH]; intros k.
        { constructor. }
        cbn. constructor; [apply IH|].
        apply Forall_forall.
        intros [k' y] ([k'' a'] & [= -> ->] & Hin)%list_elem_of_fmap. cbn.
        apply number_from_key_range in Hin. lia.
    + rewrite keys_add_all. cbn [add_all next_id]. apply Forall_app. split.
      * eapply Forall_impl; [done|]. cbn. lia.
      * apply Forall_forall.
        intros k ([k' x] & E & Hin)%list_elem_of_fmap. cbn in E. subst k'.
        apply number_from_key_range in Hin. lia.
    + cbn. lia.
  - split; [cbn; lia|]. intros k Hk. rewrite keys_add_all in Hk.
    apply elem_of_app in Hk as [Hk|Hk]; [by left|right].
    apply list_elem_of_fmap in Hk as ([k' x] & E & Hin). cbn in E. subst k'.
    apply number_from_key_range in Hin. lia.
Qed.

Lemma add_as_add_all {A} (x : A) (t : Table A) :
  (Dexie.add x t).2 = add_all id [x] t.
Proof. by rewrite <- add_all_cons, add_all_nil. Qed.

Lemma table_step_add {A} (x : A) (t : Table A) : table_step t (Dexie.add x t).2.
Proof. rewrite add_as_add_all. apply table_step_add_all. Qed.

Lemma store_step_refl (s : Store) : store_step s s.
Proof. split; [|split]; apply table_step_refl. Qed.

Lemma store_step_trans (s1 s2 s3 : Store) :
  store_step s1 s2 -> store_step s2 s3 -> store_step s1 s3.
Proof.
  intros (?&?&?) (?&?&?). split; [|split]; by eapply table_step_trans.
Qed.

Lemma for_of_step {A} (xs : list A) (body : A → db unit) :
  (forall x s, store_step s (body x s).2) ->
  forall s, store_step s (for_of xs body s).2.
Proof.
  intros Hbody. induction xs as [|x xs IH]; intros s; cbn.
  - apply store_step_refl.
  - unfold bind. specialize (Hbody x s).
    destruct (body x s) as [[[]|e] s1]; cbn in *; [|done].
    eapply store_step_trans; [done|apply IH].
Qed.

Lemma store_step_createDeck (name : string) (now : Z) (s : Store) :
  store_step s (createDeck name now s).2.
Proof.
  rewrite exec_createDeck. cbn [snd].
  split; [apply table_step_add|]. split; apply table_step_refl.
Qed.

Lemma store_step_createNote (deckId : Z) (fields : js Fields) (now : Z) (s : Store) :
  store_step s (createNote deckId fields now s).2.
Proof.
  rewrite exec_createNote. cbn [snd].
  split; [apply table_step_refl|]. split; apply table_step_add.
Qed.

Lemma store_step_getOrCreateDeckId (name : string) (now : Z) (s : Store) :
  store_step s (getOrCreateDeckId name now s).2.
Proof.
  unfold getOrCreateDeckId, bind, read. destruct (head _) as [d|].
  - apply store_step_refl.
  - apply store_step_createDeck.
Qed.

Lemma store_step_importCSV (text : string) (now : Z) (s : Store) :
  store_step s (exec (importCSV text now) s).
Proof.
  unfold exec, importCSV.
  destruct (filter _ _) as [|h ls]; [apply store_step_refl|].
  destruct (negb _); [apply store_step_refl|].
  apply for_of_step. clear s. intros line s. cbv zeta. unfold bind at 1.
  pose proof (store_step_getOrCreateDeckId
    (JsString.or_str ((parseCell <$> split_cells line [] ""%string false) !! 0%nat)
       "Imported") now s) as H1.
  destruct (getOrCreateDeckId _ now s) as [[k|e] s1]; cbn [snd] in *; [|done].
  unfold bind. rewrite exec_createNote. cbn [snd ret].
  eapply store_step_trans; [exact H1|].
  pose proof (store_step_createNote k
    (val {| front := val (JsString.or_str
              ((parseCell <$> split_cells line [] ""%string false) !! 1%nat) "");
            back := val (JsString.or_str
              ((parseCell <$> split_cells line [] ""%string false) !! 2%nat) "") |})
    now s1) as H2.
  by rewrite exec_createNote in H2.
Qed.

Lemma store_step_importJSON (obj : js Snapshot) (now : Z) (s : Store) :
  store_step s (exec (importJSON obj now) s).
Proof.
  unfold exec.
  destruct obj as [| |[[| |ds] [| |ns] [| |cs]]]; try apply store_step_refl.
  rewrite exec_importJSON. split; [|split]; apply table_step_add_all.
Qed.

Lemma store_step_run (o : op) (s : Store) : store_step s (exec (run o) s).
Proof.
  destruct o; cbn [run].
  - unfold exec, bind. rewrite exec_createDeck. cbn [snd ret].
    apply (store_step_createDeck name now s).
  - unfold exec, renameDeck, on_decks. cbn [snd].
    split; [apply table_step_update|]. split; apply table_step_refl.
  - unfold exec. rewrite exec_deleteDeck. cbn [snd].
    split; [|split]; apply table_step_filter.
  - unfold exec, bind. rewrite exec_createNote. cbn [snd ret].
    pose proof (store_step_createNote deckId fields now s) as H.
    by rewrite exec_createNote in H.
  - unfold exec. rewrite exec_updateNote. cbn [snd].
    split; [apply table_step_refl|].
    split; [apply table_step_update|apply table_step_refl].
  - unfold exec. rewrite exec_deleteNote. cbn [snd].
    split; [apply table_step_refl|]. split; apply table_step_filter.
  - unfold exec, updateCard, on_cards. cbn [snd].
    split; [apply table_step_refl|].
    split; [apply table_step_refl|apply table_step_update].
  - apply store_step_importJSON.
  - apply store_step_importCSV.
Qed.

Lemma steps_store_step (s s' : Store) : steps s s' -> store_step s s'.
Proof.
  induction 1 as [|s s' o _ IH]; [apply store_step_refl|].
  eapply store_step_trans; [done|apply store_step_run].
Qed.

Lemma reachable_steps (s : Store) : reachable s ↔ steps empty_store s.
Proof.
  split.
  - induction 1; [constructor|by constructor].
  - intros H. remember empty_store as s0 eqn:E.
    induction H as [|s s' o _ IH]; subst; [constructor|].
    constructor. by apply IH.
Qed.

Lemma store_wf_empty : store_wf empty_store.
Proof.
  repeat split; try constructor; cbn; lia.
Qed.

Lemma reachable_store_wf (s : Store) : reachable s -> store_wf s.
Proof.
  intros H%reachable_steps%steps_store_step.
  destruct H as ([Hd _] & [Hn _] & [Hc _]).
  destruct store_wf_empty as (?&?&?). split; [|split]; auto.
Qed.

Lemma table_sorted_keys {A} (t : Table A) :
  table_sorted t -> StronglySorted Z.lt (Dexie.keys t).
Proof.
  intros [Hs _]. unfold Dexie.keys.
  eapply StronglySorted_fmap; [|done]. by intros [] [].
Qed.

Lemma table_sorted_wf {A} (t : Table A) : table_sorted t -> table_wf t.
Proof.
  intros Hs. pose proof (table_sorted_keys t Hs) as Hk.
  destruct Hs as (_ & Hb & _). split.
  - clear Hb. induction Hk as [|k l _ IH Hall]; constructor; [|done].
    intros Hin. rewrite Forall_forall in Hall. specialize (Hall k Hin). lia.
  - eapply Forall_impl; [done|]. cbn. lia.
Qed.




End Keys.

(** ** db.js: queries *)

Section Queries.
Import Db.

Lemma StronglySorted_reverse {A} (R : relation A) (l : list A) :
  StronglySorted R l -> StronglySorted (flip R) (reverse l).
Proof.
  induction 1 as [|x l _ IH Hx]; [constructor|].
  rewrite reverse_cons. apply StronglySorted_app_2; [|done|].
  - intros y z Hy Hz. apply list_elem_of_singleton in Hz. subst z.
    rewrite elem_of_reverse in Hy. rewrite Forall_forall in Hx.
    unfold flip. by apply Hx.
  - repeat constructor.
Qed.

(** X7. In every reachable state [getNotesByDeck(deckId)] returns exactly
    the stored notes of that deck, newest first: by strictly decreasing
    id.  It does not change the store. *)
Theorem getNotesByDeck_newest_first (s : Store) (deckId : Z) :
  reachable s ->
  exists ns,
    getNotesByDeck deckId s = (Ok ns, s) /\
    (forall r, r ∈ ns ↔ r ∈ rows (notes s) /\ note_deckId r.2 = Some deckId) /\
    StronglySorted (λ a b : Z * Note, b.1 < a.1) ns.
Proof.
  intros (_ & [Hs _] & _)%reachable_store_wf.
  eexists. split; [reflexivity|]. split.
  - intros r. rewrite elem_of_reverse. unfold Dexie.where_equals.
    rewrite list_elem_of_filter. tauto.
  - apply (StronglySorted_reverse (λ a b : Z * Note, a.1 < b.1)).
    by apply StronglySorted_filter.
Qed.

Lemma getNotesByDeck_newest_first_witness :
  exists ns,
    getNotesByDeck 1 store_two_notes = (Ok ns, store_two_notes) /\
    (forall r, r ∈ ns ↔
       r ∈ rows (notes store_two_notes) /\ note_deckId r.2 = Some 1) /\
    StronglySorted (λ a b : Z * Note, b.1 < a.1) ns.
Proof.
  apply (getNotesByDeck_newest_first store_two_notes 1).
  apply (reachable_step _ (CreateNote 1 undefined 5)).
  apply (reachable_step _ (CreateNote 1 undefined 0)).
  apply (reachable_step _ (CreateDeck "Deck" 0)). apply reachable_empty.
Defined.

Lemma getDueCards_take (s : Store) (deckId : Z) (limit : option nat) (now : Z) :
  exists all,
    getDueCards deckId limit now s = (Ok (take (default 50%nat limit) all), s) /\
    (forall r, r ∈ all ↔ r ∈ rows (cards s) /\ is_due deckId now r) /\
    all = filter (λ r, card_due r.2 ≤ now ∧ card_state r.2 ≠ st_suspended)
            (Dexie.where_equals card_deckId deckId (cards s)).
Proof.
  eexists. split; [reflexivity|]. split; [|reflexivity].
  intros r. unfold Dexie.where_equals, is_due.
  rewrite !list_elem_of_filter. tauto.
Qed.

(** X8. [getDueCards] leaves a due card out only when the limit is
    reached: a stored card of the deck that is due at [now] and not
    suspended is among the cards returned, or exactly [limit] cards (50
    by default) are returned. *)
Theorem getDueCards_complete (s : Store) (deckId : Z) (limit : option nat)
    (now : Z) (r : Z * Card) :
  r ∈ rows (cards s) -> is_due deckId now r ->
  exists due,
    getDueCards deckId limit now s = (Ok due, s) /\
    (r ∈ due \/ length due = default 50%nat limit).
Proof.
  intros Hin Hdue.
  destruct (getDueCards_take s deckId limit now) as (all & -> & Hall & _).
  eexists. split; [reflexivity|].
  destruct (decide (length all <= default 50 limit)%nat) as [Hle|Hgt].
  - left. rewrite take_ge by done. by apply Hall.
  - right. rewrite length_take. lia.
Qed.

Lemma getDueCards_complete_witness :
  exists due,
    getDueCards 1 None 3 store_one_note = (Ok due, store_one_note) /\
    ((1, new_card 1 1 0) ∈ due \/ length due = default 50%nat None).
Proof.
  apply (getDueCards_complete store_one_note 1 None 3 (1, new_card 1 1 0)).
  - vm_compute. apply list_elem_of_here.
  - split; [reflexivity|]. split; [vm_compute; discriminate|discriminate].
Defined.

(** X9. A new note's card is due at once: when fewer than [limit] cards
    of the deck were due, [getDueCards] at any time from the creation on
    returns them followed by the card [createNote] has just made. *)
Theorem new_card_is_due (s : Store) (deckId : Z) (fields : js Fields)
    (now now' : Z) (limit : option nat) :
  now <= now' ->
  exists due noteId cardId s',
    getDueCards deckId limit now' s = (Ok due, s) /\
    createNote deckId fields now s = (Ok (noteId, cardId), s') /\
    ((length due < default 50 limit)%nat ->
     getDueCards deckId limit now' s' =
       (Ok (due ++ [(cardId, new_card deckId noteId now)]), s')).
Proof.
  intros Hnow.
  destruct (getDueCards_take s deckId limit now') as (all & Hget & _ & Hall).
  rewrite Hget, exec_createNote.
  eexists _, _, _, _. split; [reflexivity|]. split; [reflexivity|].
  intros Hlen. rewrite length_take in Hlen.
  unfold getDueCards, read. cbv zeta. f_equal. f_equal.
  unfold Dexie.where_equals. cbn [cards rows Dexie.add snd].
  rewrite !filter_app, !filter_cons_True, !filter_nil; cbn; try done.
  fold (Dexie.where_equals card_deckId deckId (cards s)). rewrite <- Hall.
  assert (Hl : (length all < default 50 limit)%nat) by lia.
  rewrite (take_ge all) by lia.
  rewrite take_ge; [done|]. rewrite length_app. cbn [length]. lia.
Qed.

Lemma new_card_is_due_witness :
  exists due noteId cardId s',
    getDueCards 1 None 9 store_one_note = (Ok due, store_one_note) /\
    createNote 1 undefined 4 store_one_note = (Ok (noteId, cardId), s') /\
    ((length due < default 50 None)%nat ->
     getDueCards 1 None 9 s' =
       (Ok (due ++ [(cardId, new_card 1 noteId 4)]), s')).
Proof. apply (new_card_is_due store_one_note 1 undefined 4 9 None). lia. Defined.
End Queries.

(** ** app.js: the Study view and the deck list *)

Section Study.
Import Db App Scheduler.

Lemma update_absent {A} (k : Z) (f : A → A) (t : Table A) :
  k ∉ Dexie.keys t -> Dexie.update k f t = t.
Proof.
  intros Hk. unfold Dexie.update. destruct t as [l n]. cbn [rows next_id] in *.
  f_equal. rewrite <- (list_fmap_id l) at 2. apply list_fmap_ext.
  intros i [k' x] Hi. cbn. case_decide; [|done]. subst k'.
  exfalso. apply Hk. apply list_elem_of_fmap. exists (k, x).
  split; [done|]. by apply list_elem_of_lookup_2 in Hi.
Qed.

Lemma elem_of_update_iff {A} (k : Z) (f : A → A) (t : Table A) (k' : Z) (y : A) :
  table_wf t ->
  (k', y) ∈ rows (Dexie.update k f t) ↔
  (k' = k /\ exists x, (k, x) ∈ rows t /\ y = f x) \/
  (k' ≠ k /\ (k', y) ∈ rows t).
Proof.
  intros Hwf. unfold Dexie.update. cbn [rows]. rewrite list_elem_of_fmap. split.
  - intros ([k0 x] & E & Hin). cbn in E. case_decide; simplify_eq; eauto.
  - intros [[-> (x & Hin & ->)]|[Hne Hin]].
    + exists (k, x). split; [|done]. cbn. by rewrite decide_True.
    + exists (k', y). split; [|done]. cbn. by rewrite decide_False.
Qed.

Lemma apply_patch_of (c c' : Card) :
  card_deckId c' = card_deckId c -> card_noteId c' = card_noteId c ->
  apply_patch (patch_of c') c = c'.
Proof. intros Hd Hn. destruct c, c'. cbn in *. by subst. Qed.

(** X10. Answering a stored card with one of the four grades stores
    exactly the card [schedule] returns under the card's id and touches
    nothing else; at any time before the due date of that card
    [getDueCards] does not return it.  Without a current card nothing
    happens, and with an unknown grade the handler throws and the store
    is unchanged. *)
Theorem answer_reschedules (s : Store) (id : Z) (c : Card) (g : string) (now : Z) :
  (reachable s -> (id, c) ∈ rows (cards s) -> is_grade g ->
   exists c' s',
     schedule c g now = Ok c' /\
     answer (Some (id, c)) g now s = (Ok tt, s') /\
     decks s' = decks s /\ notes s' = notes s /\
     (forall k x, (k, x) ∈ rows (cards s') ↔
        (k = id /\ x = c') \/ (k ≠ id /\ (k, x) ∈ rows (cards s))) /\
     (forall deckId limit now' due,
        now' < card_due c' ->
        getDueCards deckId limit now' s' = (Ok due, s') ->
        id ∉ due.*1)) /\
  answer None g now s = (Ok tt, s) /\
  (~ is_grade g ->
   answer (Some (id, c)) g now s = (Throw (Error "Unknown grade"), s)).
Proof.
  split; [|split].
  - intros (_ & _ & Hc%table_sorted_wf)%reachable_store_wf Hin Hg.
    destruct (schedule_is_grade c g now Hg)
      as (c' & e' & i' & Hs & _ & Hi & Hi1 & Hd & Hn & _).
    exists c'. eexists. split; [done|].
    unfold answer. rewrite Hs. fold (patch_of c').
    split; [reflexivity|]. cbn [decks notes cards].
    split; [done|]. split; [done|].
    assert (Hrows : forall k x,
      (k, x) ∈ rows (Dexie.update id (apply_patch (patch_of c')) (cards s)) ↔
      (k = id /\ x = c') \/ (k ≠ id /\ (k, x) ∈ rows (cards s))).
    { intros k x. rewrite (elem_of_update_iff _ _ _ _ _ Hc). split.
      - intros [[-> (x0 & Hx0 & ->)]|?]; [left|by right].
        split; [done|]. rewrite (row_functional _ _ _ _ Hc Hx0 Hin).
        by apply apply_patch_of.
      - intros [[-> ->]|?]; [left|by right].
        split; [done|]. exists c. split; [done|]. symmetry.
        by apply apply_patch_of. }
    split; [exact Hrows|].
    intros deckId limit now' due Hnow' Hget.
    unfold getDueCards, read in Hget. cbv zeta in Hget.
    injection Hget as <-.
    intros ([k x] & E & Hx)%list_elem_of_fmap. cbn in E. subst k.
    apply elem_of_take in Hx as (j & Hx%list_elem_of_lookup_2 & _).
    apply list_elem_of_filter in Hx as [[Hd' _] Hx]. cbn in Hd'.
    apply list_elem_of_filter in Hx as [_ Hx]. cbn [cards] in Hx.
    apply Hrows in Hx as [[_ ->]|[? _]]; [|done]. lia.
  - reflexivity.
  - intros Hg. unfold answer. by rewrite (schedule_not_grade c g now Hg).
Qed.

Lemma answer_reschedules_witness :
  exists c' s',
    schedule (new_card 1 1 0) "good" 3 = Ok c' /\
    answer (Some (1, new_card 1 1 0)) "good" 3 store_one_note = (Ok tt, s') /\
    decks s' = decks store_one_note /\ notes s' = notes store_one_note /\
    (forall k x, (k, x) ∈ rows (cards s') ↔
       (k = 1 /\ x = c') \/ (k ≠ 1 /\ (k, x) ∈ rows (cards store_one_note))) /\
    (forall deckId limit now' due,
       now' < card_due c' ->
       getDueCards deckId limit now' s' = (Ok due, s') ->
       1 ∉ due.*1).
Proof.
  apply (proj1 (answer_reschedules store_one_note 1 (new_card 1 1 0) "good" 3)).
  - apply (reachable_step _ (CreateNote 1 undefined 0)).
    apply (reachable_step _ (CreateDeck "Deck" 0)). apply reachable_empty.
  - vm_compute. apply list_elem_of_here.
  - right; right; left; reflexivity.
Defined.

Lemma random_index (random : Q) (n : nat) :
  (0 <= random)%Q -> (random < 1)%Q -> (0 < n)%nat ->
  0 <= Qfloor (random * inject_Z (Z.of_nat n)) < Z.of_nat n.
Proof.
  intros H0 H1 Hn.
  assert (Hq : (0 < inject_Z (Z.of_nat n))%Q).
  { change 0%Q with (inject_Z 0). rewrite <- Zlt_Qlt. lia. }
  split.
  - rewrite <- (Qfloor_Z 0). apply Qfloor_resp_le.
    apply Qmult_le_0_compat; [done|]. by apply Qlt_le_weak.
  - rewrite Zlt_Qlt.
    eapply Qle_lt_trans; [apply Qfloor_le|].
    rewrite <- (Qmult_1_l (inject_Z (Z.of_nat n))) at 2.
    by apply Qmult_lt_compat_r.
Qed.

Lemma getRandomDueCard_spec (s : Store) (deckId now : Z) (random : Q) :
  (0 <= random)%Q -> (random < 1)%Q ->
  exists due,
    getDueCards deckId (Some 100%nat) now s = (Ok due, s) /\
    ((due = [] /\ getRandomDueCard deckId now random s = (Ok null, s)) \/
     (exists card, card ∈ due /\
        getRandomDueCard deckId now random s = (Ok (val card), s))).
Proof.
  intros H0 H1. unfold getRandomDueCard, bind.
  destruct (getDueCards_take s deckId (Some 100%nat) now) as (all & -> & _).
  eexists. split; [reflexivity|].
  set (due := take _ all). destruct (Nat.eqb_spec (length due) 0) as [E|E].
  - left. split; [|done]. by apply nil_length_inv.
  - right. pose proof (random_index random (length due) H0 H1 ltac:(lia)) as Hi.
    unfold array_get, ret.
    destruct (Z.ltb_spec (Qfloor (random * inject_Z (Z.of_nat (length due)))) 0);
      [lia|].
    destruct (lookup_lt_is_Some_2 due
      (Z.to_nat (Qfloor (random * inject_Z (Z.of_nat (length due))))))
      as [card Hcard]; [lia|].
    rewrite Hcard. exists card. split; [|done].
    by apply list_elem_of_lookup_2 in Hcard.
Qed.

(** X11. [getRandomDueCard] returns [null] exactly when [getDueCards]
    with limit 100 returns nothing, and otherwise one of the cards that
    call returns (so a card of the deck that is due and not suspended),
    never [undefined]; the store is unchanged. *)
Theorem getRandomDueCard_among_due (s : Store) (deckId now : Z) (random : Q) :
  (0 <= random)%Q -> (random < 1)%Q ->
  exists due res,
    getDueCards deckId (Some 100%nat) now s = (Ok due, s) /\
    getRandomDueCard deckId now random s = (Ok res, s) /\
    (res = null ↔ due = []) /\
    (res ≠ null -> exists card,
       res = val card /\ card ∈ due /\ card ∈ rows (cards s) /\
       is_due deckId now card).
Proof.
  intros H0 H1.
  destruct (getDueCards_take s deckId (Some 100%nat) now) as (all & Hget & Hall & _).
  destruct (getRandomDueCard_spec s deckId now random H0 H1)
    as (due & Hdue & [[-> ->]|(card & Hin & ->)]).
  - exists [], null. repeat split; done.
  - exists due, (val card). split; [done|]. split; [done|]. split.
    + split; [done|]. intros ->. by apply elem_of_nil in Hin.
    + intros _. exists card. split; [done|]. split; [done|].
      rewrite Hget in Hdue. injection Hdue as <-.
      apply elem_of_take in Hin as (j & Hin%list_elem_of_lookup_2 & _).
      by apply Hall.
Qed.

Lemma getRandomDueCard_among_due_witness :
  exists due res,
    getDueCards 1 (Some 100%nat) 3 store_one_note = (Ok due, store_one_note) /\
    getRandomDueCard 1 3 0.5 store_one_note = (Ok res, store_one_note) /\
    (res = null ↔ due = []) /\
    (res ≠ null -> exists card,
       res = val card /\ card ∈ due /\ card ∈ rows (cards store_one_note) /\
       is_due 1 3 card).
Proof.
  apply (getRandomDueCard_among_due store_one_note 1 3 0.5);
    vm_compute; [discriminate|reflexivity].
Defined.



(** X13. In a state reached by calls that respect the references
    ([createNote] on an existing deck, [updateCard] with a patch without
    deckId and noteId, [importJSON] of a snapshot consistent in itself)
    the deck list never shows more due cards than notes: [deckStats] returns the number of
    the deck's notes and a due count that is at most that number and at
    most 9999. *)
Theorem deckStats_due_le_notes (s : Store) (deckId now : Z) :
  reachable_respectful s ->
  exists due n,
    deckStats deckId now s = (Ok (due, n), s) /\
    n = length (notes_of_deck s deckId) /\
    (due <= n)%nat /\ (due <= Z.to_nat 9999)%nat.
Proof.
  intros Hs%reachable_consistent.
  unfold deckStats, bind, getNotesByDeck, read, ret.
  destruct (getDueCards_take s deckId (Some (Z.to_nat 9999)) now)
    as (all & -> & _ & Hall).
  eexists _, _. split; [reflexivity|].
  rewrite length_reverse. split; [reflexivity|].
  change (default 50%nat (Some (Z.to_nat 9999))) with (Z.to_nat 9999).
  rewrite length_take. split; [|lia].
  etransitivity; [apply Nat.le_min_r|].
  rewrite Hall. etransitivity; [apply length_filter|].
  change (length (cards_of_deck s deckId) <= length (notes_of_deck s deckId))%nat.
  by rewrite (cards_of_deck_count s deckId Hs).
Qed.

Lemma deckStats_due_le_notes_witness :
  exists due n,
    deckStats 1 3 store_one_note = (Ok (due, n), store_one_note) /\
    n = length (notes_of_deck store_one_note 1) /\
    (due <= n)%nat /\ (due <= Z.to_nat 9999)%nat.
Proof.
  apply (deckStats_due_le_notes store_one_note 1 3).
  apply (respectful_step _ (CreateNote 1 undefined 0)).
  - apply (respectful_step _ (CreateDeck "Deck" 0)); [|exact I].
    apply respectful_empty.
  - vm_compute. apply list_elem_of_here.
Defined.
End Study.

(** ** db.js: updates and deletes *)

Section Crud.
Import Db App Scheduler.

Lemma store_eta (s : Store) : mkStore (decks s) (notes s) (cards s) = s.
Proof. by destruct s. Qed.

Lemma table_eta {A} (t : Table A) : mkTable (rows t) (next_id t) = t.
Proof. by destruct t. Qed.

Lemma filter_all {A} (P : A → Prop) `{!∀ x, Decision (P x)} (l : list A) :
  (forall x, x ∈ l -> P x) -> filter P l = l.
Proof.
  induction l as [|x l IH]; intros Hall; [done|].
  rewrite filter_cons_True by (apply Hall, list_elem_of_here).
  f_equal. apply IH. intros y Hy. by apply Hall, list_elem_of_further.
Qed.

Lemma delete_absent {A} (k : Z) (t : Table A) :
  k ∉ Dexie.keys t -> Dexie.delete k t = t.
Proof.
  intros Hk. unfold Dexie.delete. rewrite filter_all; [apply table_eta|].
  intros [k' x] Hin E. cbn in E. subst k'.
  apply Hk. apply list_elem_of_fmap. by exists (k, x).
Qed.

(** X14. Updating under an id that is not in its table changes nothing
    and raises no error: [renameDeck], [updateNote] and [updateCard] on
    a missing id leave the store as it is, and so does answering a card
    that has been deleted in the meantime. *)
Theorem update_missing_id (s : Store) (id : Z) :
  (forall name, id ∉ Dexie.keys (decks s) ->
     renameDeck id name s = (Ok tt, s)) /\
  (forall fields now, id ∉ Dexie.keys (notes s) ->
     updateNote id fields now s = (Ok tt, s)) /\
  (forall patch, id ∉ Dexie.keys (cards s) ->
     updateCard id patch s = (Ok tt, s)) /\
  (forall c g now, id ∉ Dexie.keys (cards s) -> is_grade g ->
     answer (Some (id, c)) g now s = (Ok tt, s)).
Proof.
  split; [|split; [|split]].
  - intros name Hid. unfold renameDeck, on_decks.
    by rewrite update_absent, store_eta.
  - intros fields now Hid. rewrite exec_updateNote.
    by rewrite update_absent, store_eta.
  - intros patch Hid. unfold updateCard, on_cards.
    by rewrite update_absent, store_eta.
  - intros c g now Hid Hg.
    destruct (schedule_is_grade c g now Hg) as (c' & _ & _ & Hs & _).
    unfold answer. rewrite Hs. unfold updateCard, on_cards.
    by rewrite update_absent, store_eta.
Qed.

Lemma update_missing_id_witness :
  renameDeck 7 "New name" store_one_note = (Ok tt, store_one_note).
Proof.
  apply (proj1 (update_missing_id store_one_note 7) "New name").
  vm_compute. intros H.
  apply elem_of_cons in H as [H|H]; [discriminate|by apply elem_of_nil in H].
Defined.

(** X15. In a state reached by calls that respect the references
    ([createNote] on an existing deck, [updateCard] with a patch without
    deckId and noteId, [importJSON] of a snapshot consistent in itself),
    deleting under an id that is not there changes nothing: [deleteDeck] of a missing deck and
    [deleteNote] of a missing note leave the store as it is. *)
Theorem delete_missing_id (s : Store) (id : Z) :
  reachable_respectful s ->
  (id ∉ Dexie.keys (decks s) -> deleteDeck id s = (Ok tt, s)) /\
  (id ∉ Dexie.keys (notes s) -> deleteNote id s = (Ok tt, s)).
Proof.
  intros [Hd Hn Hc Hnd Hcn H1]%reachable_consistent. split; intros Hid.
  - rewrite exec_deleteDeck, delete_absent by done.
    unfold Dexie.where_equals_delete.
    rewrite !filter_all, !table_eta, store_eta; [done| |].
    + intros [kc c] Hin E. cbn in E.
      destruct (Hcn kc c Hin) as (kn & n & _ & Hn' & Heq).
      destruct (Hnd kn n Hn') as (d & Hdk & Hd'). congruence.
    + intros [kn n] Hin E. cbn in E.
      destruct (Hnd kn n Hin) as (d & Hdk & Hd'). congruence.
  - rewrite exec_deleteNote, delete_absent by done.
    unfold Dexie.where_equals_delete.
    rewrite filter_all, table_eta, store_eta; [done|].
    intros [kc c] Hin E. cbn in E.
    destruct (Hcn kc c Hin) as (kn & n & Hkn & Hn' & _).
    apply key_in_rows in Hn'. congruence.
Qed.

Lemma delete_missing_id_witness :
  deleteDeck 7 store_one_note = (Ok tt, store_one_note).
Proof.
  refine (proj1 (delete_missing_id store_one_note 7 _) _).
  - apply (respectful_step _ (CreateNote 1 undefined 0)).
    + apply (respectful_step _ (CreateDeck "Deck" 0)); [|exact I].
      apply respectful_empty.
    + vm_compute. apply list_elem_of_here.
  - vm_compute. intros H.
    apply elem_of_cons in H as [H|H]; [discriminate|by apply elem_of_nil in H].
Defined.

(** X16. In a state reached by calls that respect the references
    ([createNote] on an existing deck, [updateCard] with a patch without
    deckId and noteId, [importJSON] of a snapshot consistent in itself),
    deleting what has just been created restores every table's rows: [createNote] followed by
    [deleteNote] of the returned note id, and [createDeck] followed by
    [deleteDeck] of the returned id, leave decks, notes and cards as they
    were; only the id generators have moved on. *)
Theorem create_then_delete (s : Store) :
  reachable_respectful s ->
  (forall deckId fields now,
     exists noteId cardId s1,
       createNote deckId fields now s = (Ok (noteId, cardId), s1) /\
       decks (exec (deleteNote noteId) s1) = decks s /\
       rows (notes (exec (deleteNote noteId) s1)) = rows (notes s) /\
       rows (cards (exec (deleteNote noteId) s1)) = rows (cards s)) /\
  (forall name now,
     exists id s1,
       createDeck name now s = (Ok id, s1) /\
       rows (decks (exec (deleteDeck id) s1)) = rows (decks s) /\
       notes (exec (deleteDeck id) s1) = notes s /\
       cards (exec (deleteDeck id) s1) = cards s).
Proof.
  intros [Hd Hn Hc Hnd Hcn H1]%reachable_consistent. split.
  - intros deckId fields now. rewrite exec_createNote.
    eexists _, _, _. split; [reflexivity|].
    unfold exec. rewrite exec_deleteNote. cbn [snd decks notes cards].
    split; [done|].
    unfold Dexie.delete, Dexie.where_equals_delete, Dexie.add. cbn [snd rows].
    rewrite !filter_app, !filter_cons_False, !filter_nil, !app_nil_r;
      cbn; [|tauto|tauto].
    split; apply filter_all.
    + intros [k n] Hin. cbn.
      apply key_in_rows, (key_lt_next _ _ Hn) in Hin. lia.
    + intros [kc c] Hin E. cbn in E.
      destruct (Hcn kc c Hin) as (kn & n & Hkn & Hn' & _).
      apply key_in_rows, (key_lt_next _ _ Hn) in Hn'.
      assert (kn = next_id (notes s)) by congruence. lia.
  - intros name now. rewrite exec_createDeck.
    eexists _, _. split; [reflexivity|].
    unfold exec. rewrite exec_deleteDeck. cbn [snd decks notes cards].
    unfold Dexie.delete, Dexie.where_equals_delete, Dexie.add. cbn [snd rows next_id].
    rewrite !filter_app, !filter_cons_False, !filter_nil, !app_nil_r;
      cbn; [|tauto].
    split; [|split].
    + apply filter_all. intros [k d] Hin. cbn.
      apply key_in_rows, (key_lt_next _ _ Hd) in Hin. lia.
    + rewrite filter_all; [apply table_eta|].
      intros [kn n] Hin E. cbn in E.
      destruct (Hnd kn n Hin) as (d & Hdk & Hd').
      apply (key_lt_next _ _ Hd) in Hd'.
      assert (d = next_id (decks s)) by congruence. lia.
    + rewrite filter_all; [apply table_eta|].
      intros [kc c] Hin E. cbn in E.
      destruct (Hcn kc c Hin) as (kn & n & _ & Hn' & Heq).
      destruct (Hnd kn n Hn') as (d & Hdk & Hd').
      apply (key_lt_next _ _ Hd) in Hd'.
      assert (d = next_id (decks s)) by congruence. lia.
Qed.

Lemma create_then_delete_witness :
  exists noteId cardId s1,
    createNote 1 undefined 9 store_one_note = (Ok (noteId, cardId), s1) /\
    decks (exec (deleteNote noteId) s1) = decks store_one_note /\
    rows (notes (exec (deleteNote noteId) s1)) = rows (notes store_one_note) /\
    rows (cards (exec (deleteNote noteId) s1)) = rows (cards store_one_note).
Proof.
  refine (proj1 (create_then_delete store_one_note _) 1 undefined 9).
  apply (respectful_step _ (CreateNote 1 undefined 0)).
  - apply (respectful_step _ (CreateDeck "Deck" 0)); [|exact I].
    apply respectful_empty.
  - vm_compute. apply list_elem_of_here.
Defined.
End Crud.

(** ** db.js: JSON export and import *)

Section JsonTransfer.
Import Db App.

Lemma id_map_values {A} (key : A → option Z) (l : list (Z * A))
    (x : option Z) (v : Z) :
  id_map key ∅ l !! x = Some v -> v ∈ l.*1.
Proof.
  assert (Hgen : forall l (m : gmap (option Z) Z),
    id_map key m l !! x = Some v -> v ∈ l.*1 \/ m !! x = Some v).
  { clear. unfold id_map. intros l.
    induction l as [|[k a] l IH]; intros m H; cbn [foldl] in H; [by right|].
    apply IH in H as [H|H].
    - left. by apply list_elem_of_further.
    - destruct (decide (key a = x)) as [E|E].
      + cbn in H. rewrite E, lookup_insert_eq in H. simplify_eq.
        left. apply list_elem_of_here.
      + cbn in H. rewrite lookup_insert_ne in H by done. by right. }
  intros H. apply Hgen in H as [H|H]; [done|]. by rewrite lookup_empty in H.
Qed.

Lemma length_number_from {A} (k : Z) (l : list A) :
  length (number_from k l) = length l.
Proof. revert k. induction l as [|x l IH]; intros k; cbn; [done|]. by rewrite IH. Qed.

(** X17. [importJSON] of a snapshot that has its three keys succeeds,
    keeps every stored row and appends one deck, note and card per
    snapshot entry.  In a reachable state the imported notes and cards
    point only into the same import: a [deckId] or [noteId] it stores is
    absent or the fresh id of a deck or note it has just added, never
    the id of an entity that was there before. *)
Theorem importJSON_appends (s : Store) (ds : list SDeck) (ns : list SNote)
    (cs : list SCard) (now : Z) :
  reachable s ->
  exists s' nd nn nc,
    importJSON (val {| obj_decks := val ds; obj_notes := val ns;
                       obj_cards := val cs |}) now s = (Ok tt, s') /\
    rows (decks s') = rows (decks s) ++ nd /\ length nd = length ds /\
    rows (notes s') = rows (notes s) ++ nn /\ length nn = length ns /\
    rows (cards s') = rows (cards s) ++ nc /\ length nc = length cs /\
    (forall k, k ∈ nd.*1 -> k ∉ Dexie.keys (decks s)) /\
    (forall k, k ∈ nn.*1 -> k ∉ Dexie.keys (notes s)) /\
    (forall r d, r ∈ nn -> note_deckId r.2 = Some d -> d ∈ nd.*1) /\
    (forall r d, r ∈ nc -> card_deckId r.2 = Some d -> d ∈ nd.*1) /\
    (forall r n, r ∈ nc -> card_noteId r.2 = Some n -> n ∈ nn.*1).
Proof.
  intros (Hd%table_sorted_wf & Hn%table_sorted_wf & _)%reachable_store_wf.
  rewrite exec_importJSON. unfold import_result.
  set (dm := id_map sd_id ∅ _). set (nm := id_map sn_id ∅ _).
  eexists _, _, _, _. split; [reflexivity|]. cbn [decks notes cards add_all rows].
  split; [reflexivity|]. split; [by rewrite length_fmap, length_number_from|].
  split; [reflexivity|]. split; [by rewrite length_fmap, length_number_from|].
  split; [reflexivity|]. split; [by rewrite length_fmap, length_number_from|].
  assert (Hfst : forall {A B} (f : A → B) (l : list (Z * A)),
    (prod_map id f <$> l).*1 = l.*1).
  { intros A B f l. rewrite <- list_fmap_compose. apply list_fmap_ext.
    by intros i [k x] _. }
  rewrite !Hfst.
  split; [|split; [|split; [|split]]].
  - intros k ([k' x] & E & Hin)%list_elem_of_fmap Hold. cbn in E. subst k'.
    apply number_from_key_range in Hin.
    apply (key_lt_next _ _ Hd) in Hold. lia.
  - intros k ([k' x] & E & Hin)%list_elem_of_fmap Hold. cbn in E. subst k'.
    apply number_from_key_range in Hin.
    apply (key_lt_next _ _ Hn) in Hold. lia.
  - intros r d ([k x] & -> & Hin)%list_elem_of_fmap Hdk. cbn in Hdk.
    by apply id_map_values in Hdk.
  - intros r d ([k x] & -> & Hin)%list_elem_of_fmap Hdk. cbn in Hdk.
    by apply id_map_values in Hdk.
  - intros r n ([k x] & -> & Hin)%list_elem_of_fmap Hnk. cbn in Hnk.
    by apply id_map_values in Hnk.
Qed.

Lemma importJSON_appends_witness :
  exists s' nd nn nc,
    importJSON (val {| obj_decks := val snap_decks; obj_notes := val snap_notes;
                       obj_cards := val snap_cards |}) 9 store_one_note
      = (Ok tt, s') /\
    rows (decks s') = rows (decks store_one_note) ++ nd /\ length nd = 1%nat /\
    rows (notes s') = rows (notes store_one_note) ++ nn /\ length nn = 1%nat /\
    rows (cards s') = rows (cards store_one_note) ++ nc /\ length nc = 1%nat /\
    (forall k, k ∈ nd.*1 -> k ∉ Dexie.keys (decks store_one_note)) /\
    (forall k, k ∈ nn.*1 -> k ∉ Dexie.keys (notes store_one_note)) /\
    (forall r d, r ∈ nn -> note_deckId r.2 = Some d -> d ∈ nd.*1) /\
    (forall r d, r ∈ nc -> card_deckId r.2 = Some d -> d ∈ nd.*1) /\
    (forall r n, r ∈ nc -> card_noteId r.2 = Some n -> n ∈ nn.*1).
Proof.
  apply (importJSON_appends store_one_note snap_decks snap_notes snap_cards 9).
  apply (reachable_step _ (CreateNote 1 undefined 0)).
  apply (reachable_step _ (CreateDeck "Deck" 0)). apply reachable_empty.
Defined.








Lemma compact_empty {A} : compact (@Dexie.empty A).
Proof. by split. Qed.


End JsonTransfer.

(** ** CSV import, line by line *)

Section CsvImport.
Import Db JsString.
Local Arguments String.append !_ _ / : simpl nomatch.

Lemma getOrCreateDeckId_names (name : string) (now : Z) (s : Store) :
  exists k d s1 extra,
    getOrCreateDeckId name now s = (Ok k, s1) /\
    rows (decks s1) = rows (decks s) ++ extra /\ (length extra <= 1)%nat /\
    notes s1 = notes s /\ cards s1 = cards s /\
    (k, d) ∈ rows (decks s1) /\ deck_name d = name /\
    (NoDup (deck_names s) -> NoDup (deck_names s1)).
Proof.
  unfold getOrCreateDeckId, bind, read.
  destruct (head _) as [[k d]|] eqn:E.
  - exists k, d, s, []. rewrite app_nil_r. cbn [length].
    split; [done|]. split; [done|]. split; [lia|].
    split; [done|]. split; [done|].
    apply head_Some_elem_of, list_elem_of_filter in E as [Hname E].
    cbn in Hname. split; [done|]. split; [congruence|done].
  - rewrite exec_createDeck.
    eexists _, {| deck_name := name; deck_createdAt := now |}, _, [_].
    split; [reflexivity|].
    cbn [decks notes cards rows length Dexie.add snd].
    split; [done|]. split; [lia|]. split; [done|]. split; [done|].
    split; [apply elem_of_app; right; apply list_elem_of_here|].
    split; [done|].
    intros Hnd. unfold deck_names. cbn [decks rows Dexie.add snd].
    rewrite fmap_app. cbn [fmap list_fmap snd deck_name].
    apply NoDup_app. split; [done|]. split; [|apply NoDup_singleton].
    intros x Hx ->%list_elem_of_singleton.
    apply list_elem_of_fmap in Hx as ([k d] & Hname & Hin). cbn in Hname.
    apply head_None in E.
    assert (Hf : (k, d) ∈
      Dexie.where_equals (λ d, Some (deck_name d)) name (decks s)).
    { apply list_elem_of_filter. split; [cbn; congruence|done]. }
    rewrite E in Hf. by apply elem_of_nil in Hf.
Qed.

Lemma import_line_any (line : string) (now : Z) (s : Store) :
  exists s1, import_line now line s = (Ok tt, s1) /\ line_imported now line s s1.
Proof.
  unfold import_line. cbv zeta. fold (cells_of line).
  destruct (getOrCreateDeckId_names
    (or_str (cells_of line !! 0%nat) "Imported") now s)
    as (k & d & s0 & extra & Hget & Hd & Hlen & Hn & Hc & Hin & Hname & Hnames).
  unfold bind at 1. rewrite Hget. unfold bind. rewrite exec_createNote.
  cbn [ret]. eexists. split; [reflexivity|].
  eexists extra, (_, _), (_, _). cbn [decks notes cards Dexie.add snd fst rows next_id].
  rewrite Hn, Hc.
  split; [done|]. split; [done|]. split; [reflexivity|]. split; [reflexivity|].
  split; [reflexivity|]. split; [reflexivity|].
  split; [reflexivity|]. split; [reflexivity|].
  split; [|done]. exists k, d. cbn [decks fst snd]. done.
Qed.

Lemma note_of_line_later (now : Z) (s s' : Store) (extra : list (Z * Deck))
    (n : Z * Note) (c : Z * Card) (line : string) :
  rows (decks s') = rows (decks s) ++ extra ->
  note_of_line now s n c line -> note_of_line now s' n c line.
Proof.
  intros Hd (k & d & Hin & ?). exists k, d. split; [|done].
  rewrite Hd. apply elem_of_app. by left.
Qed.

(** The loop over the data lines. *)
Lemma import_lines_any (now : Z) (lines : list string) (s : Store) :
  exists s' nd nn nc,
    for_of lines (import_line now) s = (Ok tt, s') /\
    rows (decks s') = rows (decks s) ++ nd /\ (length nd <= length lines)%nat /\
    rows (notes s') = rows (notes s) ++ nn /\
    rows (cards s') = rows (cards s) ++ nc /\
    nn.*1 = (number_from (next_id (notes s)) lines).*1 /\
    nc.*1 = (number_from (next_id (cards s)) lines).*1 /\
    Forall3 (note_of_line now s') nn nc lines /\
    (NoDup (deck_names s) -> NoDup (deck_names s')).
Proof.
  revert s. induction lines as [|line lines IH]; intros s.
  - exists s, [], [], []. cbn. rewrite !app_nil_r.
    split; [done|]. split; [done|]. split; [lia|]. split; [done|].
    split; [done|]. split; [done|]. split; [done|]. split; [constructor|done].
  - destruct (import_line_any line now s)
      as (s1 & Hline & e1 & n & c & Hd1 & Hl1 & Hn1 & Hc1 & Hnid & Hcid &
          Hnn & Hnc & Hnote & Hnames1).
    destruct (IH s1)
      as (s' & nd & nn & nc & Hfor & Hd & Hl & Hn & Hc & Hnids & Hcids &
          Hnotes & Hnames).
    exists s', (e1 ++ nd), (n :: nn), (c :: nc).
    cbn [for_of]. unfold bind. rewrite Hline, Hfor.
    split; [done|]. split; [by rewrite Hd, Hd1, app_assoc|].
    split; [rewrite length_app; cbn [length]; lia|].
    split; [by rewrite Hn, Hn1, <- app_assoc|].
    split; [by rewrite Hc, Hc1, <- app_assoc|].
    split; [cbn [number_from fmap list_fmap fst]; by rewrite Hnids, Hnid, Hnn|].
    split; [cbn [number_from fmap list_fmap fst]; by rewrite Hcids, Hcid, Hnc|].
    split; [|by intros ?%Hnames1%Hnames].
    constructor; [|done]. by apply (note_of_line_later now s1 s' nd).
Qed.

(** [importCSV] either throws the header error or runs the loop over
    the data lines. *)
Lemma importCSV_cases (text : string) (now : Z) (s : Store) :
  importCSV text now s = (Throw header_error, s) \/
  importCSV text now s = for_of (data_lines text) (import_line now) s.
Proof.
  unfold importCSV, data_lines.
  destruct (filter _ (split_lines text)) as [|h ls]; [by left|].
  destruct (header_re_test _); cbn [negb tail]; [by right|by left].
Qed.

(** X19. A CSV import that goes through keeps every stored row and
    appends one note and one card per non-empty line after the header,
    in the order of the lines and under the next ids of the two tables.
    The note of a line is in a stored deck named by the line's first
    cell ('Imported' when that is empty or missing) and has the line's
    second and third cell as front and back; its card is a new card of
    that note in that deck.  At most one deck per line is added. *)
Theorem importCSV_one_note_per_line (text : string) (now : Z) (s s' : Store) :
  importCSV text now s = (Ok tt, s') ->
  exists nd nn nc,
    rows (decks s') = rows (decks s) ++ nd /\
    (length nd <= length (data_lines text))%nat /\
    rows (notes s') = rows (notes s) ++ nn /\
    rows (cards s') = rows (cards s) ++ nc /\
    nn.*1 = (number_from (next_id (notes s)) (data_lines text)).*1 /\
    nc.*1 = (number_from (next_id (cards s)) (data_lines text)).*1 /\
    Forall3 (note_of_line now s') nn nc (data_lines text).
Proof.
  intros Himp.
  destruct (importCSV_cases text now s) as [E|E]; rewrite E in Himp; [done|].
  destruct (import_lines_any now (data_lines text) s)
    as (s1 & nd & nn & nc & Hfor & Hd & Hl & Hn & Hc & Hnids & Hcids & Hnotes & _).
  rewrite Hfor in Himp. injection Himp as <-.
  by exists nd, nn, nc.
Qed.

Lemma importCSV_one_note_per_line_witness :
  exists nd nn nc,
    rows (decks (exec (importCSV csv_missing_cells 0) empty_store))
      = rows (decks empty_store) ++ nd /\
    (length nd <= 2)%nat /\
    rows (notes (exec (importCSV csv_missing_cells 0) empty_store))
      = rows (notes empty_store) ++ nn /\
    rows (cards (exec (importCSV csv_missing_cells 0) empty_store))
      = rows (cards empty_store) ++ nc /\
    nn.*1 = [1; 2] /\ nc.*1 = [1; 2] /\
    Forall3 (note_of_line 0 (exec (importCSV csv_missing_cells 0) empty_store))
      nn nc ["A,x,y"; ",z"].
Proof.
  apply (importCSV_one_note_per_line csv_missing_cells 0 empty_store). reflexivity.
Defined.

(** X20. [importCSV] never adds a second deck under a name that is
    taken: when the stored decks have pairwise different names, they
    still have after the import, whether it goes through or throws. *)
Theorem importCSV_deck_names_distinct (text : string) (now : Z) (s : Store) :
  NoDup (deck_names s) -> NoDup (deck_names (exec (importCSV text now) s)).
Proof.
  intros Hnd. unfold exec.
  destruct (importCSV_cases text now s) as [E|E]; rewrite E; [done|].
  destruct (import_lines_any now (data_lines text) s)
    as (s1 & nd & nn & nc & Hfor & _ & _ & _ & _ & _ & _ & Hnames).
  rewrite Hfor. by apply Hnames.
Qed.

Lemma importCSV_deck_names_distinct_witness :
  NoDup (deck_names (exec (importCSV csv_two_lines 0) empty_store)).
Proof.
  apply (importCSV_deck_names_distinct _ 0 empty_store). apply NoDup_nil_2.
Defined.

(** X21. Whatever the store holds, the text [exportCSV] writes begins
    with the header line [deckName,front,back] and is accepted by
    [importCSV]: the import of an export never throws. *)
Theorem importCSV_accepts_exportCSV (s s' : Store) (now : Z) :
  exists csv rest s'',
    exportCSV s = (Ok csv, s) /\
    split_lines csv = "deckName,front,back" :: rest /\
    importCSV csv now s' = (Ok tt, s'').
Proof.
  assert (Hhead : forall rs, exists rest,
    split_lines (objectsToCSV rs) = "deckName,front,back" :: rest).
  { intros rs. unfold objectsToCSV. cbv zeta.
    destruct rs as [|r rs].
    - by exists [].
    - cbn [fmap list_fmap app].
      change (join (String LF "") (join "," ["deckName"; "front"; "back"] :: ?x :: ?y))
        with ("deckName,front,back" +:+ String LF (join (String LF "") (x :: y))).
      eexists. by rewrite split_lines_cons. }
  destruct (Hhead (export_rows s)) as [rest Hrest].
  assert (Himp : exists s'', importCSV (objectsToCSV (export_rows s)) now s' = (Ok tt, s'')).
  { unfold importCSV. rewrite Hrest. rewrite filter_cons_True by done.
    change (header_re_test (toLowerCase (remove_quotes "deckName,front,back")))
      with true. cbn [negb].
    apply for_of_total. intros line s0. apply import_row_total. }
  destruct Himp as [s'' Himp].
  by exists (objectsToCSV (export_rows s)), rest, s''.
Qed.

Lemma split_cells_plain (v rest : string) (parts : list string) (cur : string) :
  plain v ->
  split_cells (v +:+ rest) parts cur false = split_cells rest parts (cur +:+ v) false.
Proof.
  revert cur. induction v as [|ch v IH]; intros cur [Hc Hq].
  - cbn. by rewrite append_nil_r.
  - cbn [contains] in Hc, Hq.
    apply orb_false_iff in Hc as [Hc Hc'], Hq as [Hq Hq'].
    cbn [String.append split_cells]. rewrite Hq, Hc. cbn [andb].
    rewrite IH by done. by rewrite append_assoc.
Qed.

Lemma split_cells_join_plain (v : string) (vs : list string) (parts : list string)
    (cur : string) :
  Forall plain (v :: vs) ->
  split_cells (join "," (v :: vs)) parts cur false = parts ++ (cur +:+ v) :: vs.
Proof.
  revert v parts cur. induction vs as [|v' vs IH]; intros v parts cur Hp.
  - apply Forall_cons in Hp as [Hv _]. cbn [join].
    rewrite <- (append_nil_r v) at 1. rewrite split_cells_plain by done. done.
  - apply Forall_cons in Hp as [Hv Hp].
    change (join "," (v :: v' :: vs)) with (v +:+ "," +:+ join "," (v' :: vs)).
    rewrite split_cells_plain by done.
    change ("," +:+ join "," (v' :: vs)) with (String comma (join "," (v' :: vs))).
    rewrite split_cells_comma, IH by done.
    by rewrite <- app_assoc.
Qed.

Lemma parseCell_plain (v : string) : plain v -> parseCell v = trim v.
Proof.
  intros [_ Hq]. unfold parseCell. cbv zeta.
  assert (Hsub : forall w, contains dquote w = false -> startsWith dquote w = false).
  { intros [|c w]; [done|]. cbn. by intros [-> _]%orb_false_iff. }
  assert (Hstart : forall w, contains dquote w = false ->
    contains dquote (trimStart w) = false).
  { induction w as [|c w IH]; [done|]. cbn [trimStart contains].
    intros [Hc Hw]%orb_false_iff. destruct (is_space c); [by apply IH|].
    cbn [contains]. by rewrite Hc, Hw. }
  assert (Hend : forall w, contains dquote w = false ->
    contains dquote (trimEnd w) = false).
  { induction w as [|c w IH]; [done|]. cbn [trimEnd contains].
    intros [Hc Hw]%orb_false_iff. specialize (IH Hw).
    destruct (trimEnd w) as [|c' w'].
    - destruct (is_space c); [done|]. cbn. by rewrite Hc.
    - cbn [contains] in IH |- *. by rewrite Hc, IH. }
  by rewrite (Hsub (trim v)) by (by apply Hend, Hstart).
Qed.

(** X22. On a line of cells that hold no comma and no double quote, the
    character loop splits at every comma and [parseCell] trims each cell:
    the cells read from the joined line are the trimmed cells. *)
Theorem plain_line_cells (v : string) (vs : list string) :
  Forall plain (v :: vs) ->
  parseCell <$> split_cells (join "," (v :: vs)) [] "" false = trim <$> (v :: vs).
Proof.
  intros Hp. rewrite split_cells_join_plain by done.
  cbn [app String.append].
  apply list_eq_Forall2, Forall2_fmap, Forall_Forall2_diag.
  eapply Forall_impl; [exact Hp|]. intros w Hw. by apply parseCell_plain.
Qed.

Lemma plain_line_cells_witness :
  parseCell <$> split_cells (join "," ["Deck A"; " front "; "back"]) [] "" false
    = trim <$> ["Deck A"; " front "; "back"].
Proof.
  apply (plain_line_cells "Deck A" [" front "; "back"]).
  repeat constructor.
Defined.
End CsvImport.

(** ** The checks run on load, the editor handlers, edits seen in the export *)

Section Handlers.
Import Db App Scheduler JsString.
Local Arguments String.append !_ _ / : simpl nomatch.

(** X23. The checks that scheduler.js runs when it loads all pass: with
    any clock reading [schedulerTests] returns without throwing a
    'Test failed' error. *)
Theorem schedulerTests_pass (now : Z) : schedulerTests now = Ok tt.
Proof. reflexivity. Qed.

(** *** [trim] *)

Lemma trimStart_head (s : string) :
  match trimStart s with
  | "" => True
  | String c _ => is_space c = false
  end.
Proof.
  induction s as [|c s IH]; [done|]. cbn [trimStart].
  destruct (is_space c) eqn:E; [exact IH|exact E].
Qed.

Lemma trimEnd_idem (s : string) : trimEnd (trimEnd s) = trimEnd s.
Proof.
  induction s as [|c s IH]; [done|]. cbn [trimEnd].
  destruct (trimEnd s) as [|c' s'] eqn:E.
  - destruct (is_space c) eqn:Ec; [done|]. cbn. by rewrite Ec.
  - cbn [trimEnd] in IH |- *. by rewrite IH.
Qed.

Lemma trimStart_trimEnd (s : string) :
  match s with
  | "" => True
  | String c _ => is_space c = false
  end ->
  trimStart (trimEnd s) = trimEnd s.
Proof.
  destruct s as [|c s]; [done|]. intros Hc. cbn [trimEnd].
  destruct (trimEnd s); rewrite ?Hc; cbn [trimStart]; by rewrite Hc.
Qed.

Lemma trim_idem (s : string) : trim (trim s) = trim s.
Proof.
  unfold trim. rewrite trimStart_trimEnd by apply trimStart_head.
  apply trimEnd_idem.
Qed.

Lemma eqb_empty (s : string) : String.eqb s "" = true ↔ s = "".
Proof. apply String.eqb_eq. Qed.

(** X24. What the add-deck and the save-note handler store is trimmed
    and not blank.  The add-deck handler alerts and leaves the store
    alone when the name is blank after trimming, and otherwise appends
    one deck whose name is the trimmed text, on which [trim] changes
    nothing.  The save-note handler alerts and leaves the store alone
    when no deck is chosen or both fields are blank, and otherwise
    appends one note, with its new card, whose front and back are the
    trimmed texts, not both empty.  (The rename and the edit prompts of
    the lists are other handlers: they pass the prompted text to
    [renameDeck] and [updateNote] as it is.) *)
Theorem editor_stores_trimmed (s : Store) (now : Z) :
  (forall value,
     exists res s',
       addDeck value now s = (Ok res, s') /\
       (trim value = "" -> res = Some "Enter deck name" /\ s' = s) /\
       (trim value ≠ "" ->
          res = None /\ notes s' = notes s /\ cards s' = cards s /\
          exists d,
            rows (decks s') = rows (decks s) ++ [(next_id (decks s), d)] /\
            deck_name d = trim value /\ trim (deck_name d) = deck_name d /\
            deck_name d ≠ "")) /\
  (forall deckId f b,
     exists res s',
       saveNote deckId f b now s = (Ok res, s') /\
       (deckId = 0 -> res = Some "Choose a deck first" /\ s' = s) /\
       (deckId ≠ 0 -> trim f = "" -> trim b = "" ->
          res = Some "Enter front/back" /\ s' = s) /\
       (deckId ≠ 0 -> trim f ≠ "" \/ trim b ≠ "" ->
          res = None /\ decks s' = decks s /\
          exists f' b',
            rows (notes s') = rows (notes s) ++
              [(next_id (notes s),
                new_note deckId (val {| front := val f'; back := val b' |}) now)] /\
            rows (cards s') = rows (cards s) ++
              [(next_id (cards s), new_card deckId (next_id (notes s)) now)] /\
            f' = trim f /\ b' = trim b /\ trim f' = f' /\ trim b' = b' /\
            (f' ≠ "" \/ b' ≠ ""))).
Proof.
  split.
  - intros value. unfold addDeck. cbv zeta.
    destruct (String.eqb (trim value) "") eqn:E.
    + apply eqb_empty in E. eexists _, _. split; [reflexivity|].
      split; [done|]. by intros Hne.
    + assert (Hne : trim value ≠ "").
      { intros Hv. apply eqb_empty in Hv. congruence. }
      unfold bind. rewrite exec_createDeck. cbn [ret].
      eexists _, _. split; [reflexivity|]. split; [done|]. intros _.
      cbn [decks notes cards Dexie.add snd rows].
      split; [done|]. split; [done|]. split; [done|].
      eexists. split; [reflexivity|]. cbn [deck_name].
      split; [done|]. split; [apply trim_idem|done].
  - intros deckId f b. unfold saveNote. cbv zeta.
    destruct (Z.eqb_spec deckId 0) as [Hd|Hd].
    { eexists _, _. split; [reflexivity|]. split; [done|]. split; by intros ?. }
    destruct (String.eqb (trim f) "") eqn:Ef; cbn [andb].
    + apply eqb_empty in Ef.
      destruct (String.eqb (trim b) "") eqn:Eb.
      * apply eqb_empty in Eb. eexists _, _. split; [reflexivity|].
        split; [done|]. split; [done|]. intros _ [?|?]; done.
      * assert (Hb : trim b ≠ "").
        { intros Hv. apply eqb_empty in Hv. congruence. }
        unfold bind. rewrite exec_createNote. cbn [ret].
        eexists _, _. split; [reflexivity|]. split; [done|]. split; [done|].
        intros _ _. cbn [decks notes cards Dexie.add snd rows].
        split; [done|]. split; [done|].
        eexists _, _. split; [reflexivity|]. split; [reflexivity|].
        split; [done|]. split; [done|]. rewrite !trim_idem. by auto.
    + assert (Hf : trim f ≠ "").
      { intros Hv. apply eqb_empty in Hv. congruence. }
      unfold bind. rewrite exec_createNote. cbn [ret].
      eexists _, _. split; [reflexivity|]. split; [done|]. split; [done|].
      intros _ _. cbn [decks notes cards Dexie.add snd rows].
      split; [done|]. split; [done|].
      eexists _, _. split; [reflexivity|]. split; [reflexivity|].
      split; [done|]. split; [done|]. rewrite !trim_idem. by auto.
Qed.

(** *** Edits seen through [exportCSV] *)

Lemma deckById_absent (t : Table Deck) (k : Z) :
  k ∉ Dexie.keys t ->
  foldl (λ (m : gmap Z Deck) (d : Z * Deck), <[d.1 := d.2]> m) ∅ (rows t) !! k
    = None.
Proof.
  unfold Dexie.keys. generalize (lookup_empty (M:=gmap Z) (A:=Deck) k).
  generalize (∅ : gmap Z Deck).
  induction (rows t) as [|[k0 d0] l IH]; intros m Hm Hk; [done|].
  cbn in Hk. apply not_elem_of_cons in Hk as [Hne Hk].
  cbn [foldl]. apply IH; [|done]. by rewrite lookup_insert_ne.
Qed.

Lemma deckById_update (t : Table Deck) (id k : Z) (name : string) :
  table_wf t ->
  let deckById (l : list (Z * Deck)) : gmap Z Deck :=
    foldl (λ (m : gmap Z Deck) (d : Z * Deck), <[d.1 := d.2]> m) ∅ l in
  deckById (rows (Dexie.update id (renamed name) t)) !! k =
    if decide (k = id) then renamed name <$> deckById (rows t) !! k
    else deckById (rows t) !! k.
Proof.
  intros Hwf. cbv zeta.
  assert (Hwf' : table_wf (Dexie.update id (renamed name) t))
    by by apply table_wf_update.
  destruct (decide (k ∈ Dexie.keys t)) as [Hk|Hk].
  - apply row_of_key in Hk as [d Hd].
    rewrite (deckById_lookup t k d Hwf Hd).
    case_decide as Hid.
    + subst k. apply (deckById_lookup _ _ _ Hwf').
      apply elem_of_update_iff; [done|]. left. eauto.
    + apply (deckById_lookup _ _ _ Hwf').
      apply elem_of_update_iff; [done|]. by right.
  - rewrite (deckById_absent t k Hk).
    rewrite deckById_absent by by rewrite keys_update.
    by case_decide.
Qed.

(** X25. A renamed deck shows under its new name in the export and
    nothing else changes there: after [renameDeck(id, name)] the row
    that [exportCSV] writes for a note has [name] as its deck name when
    the note is in deck [id] and that deck exists, and is the row written
    before otherwise.  Notes and cards are not touched. *)
Theorem renameDeck_seen_in_export (s : Store) (id : Z) (name : string) :
  table_wf (decks s) ->
  let s' := exec (renameDeck id name) s in
  notes s' = notes s /\ cards s' = cards s /\
  Dexie.keys (decks s') = Dexie.keys (decks s) /\
  forall n, triple_of s' n =
    if decide (note_deckId n.2 = Some id /\ id ∈ Dexie.keys (decks s))
    then {| deckName := name;
            row_front := row_front (triple_of s n);
            row_back := row_back (triple_of s n) |}
    else triple_of s n.
Proof.
  intros Hwf s'. subst s'. unfold exec, renameDeck, on_decks.
  cbn [snd decks notes cards].
  change (λ d, {| deck_name := name; deck_createdAt := deck_createdAt d |})
    with (renamed name).
  split; [done|]. split; [done|]. split; [apply keys_update|].
  intros [kn n]. unfold triple_of. cbn [decks snd].
  destruct (note_deckId n) as [k|] eqn:Ek; cbn [mbind option_bind].
  - pose proof (deckById_update (decks s) id k name Hwf) as Hup.
    cbv zeta in Hup. rewrite Hup.
    destruct (decide (k = id)) as [->|Hne].
    + destruct (decide (id ∈ Dexie.keys (decks s))) as [Hin|Hout].
      * rewrite decide_True by done.
        apply row_of_key in Hin as [d Hd].
        by rewrite (deckById_lookup _ _ _ Hwf Hd).
      * rewrite decide_False by tauto.
        by rewrite (deckById_absent _ _ Hout).
    + rewrite decide_False; [done|]. intros [[= ?] _]. done.
  - rewrite decide_False; [done|]. by intros [? _].
Qed.

Lemma renameDeck_seen_in_export_witness :
  triple_of (exec (renameDeck 1 "Renamed") store_one_note)
            (1, new_note 1 undefined 0)
  = {| deckName := "Renamed"; row_front := ""; row_back := "" |}.
Proof.
  assert (Hwf : table_wf (decks store_one_note)).
  { split; vm_compute; [apply NoDup_singleton|by repeat constructor]. }
  destruct (renameDeck_seen_in_export store_one_note 1 "Renamed" Hwf)
    as (_ & _ & _ & Hrow).
  rewrite Hrow. reflexivity.
Defined.

(** X26. An edited note shows with its new texts in the export and
    nothing else changes: after [updateNote(id, {front, back})] the rows
    that [exportCSV] writes are those written before, except that the row
    of note [id] has the new front and back, under its old deck name.
    Decks and cards, so all scheduling state, are not touched, and no
    note changes its id or its deck. *)
Theorem updateNote_seen_in_export (s : Store) (id : Z) (f b : string) (now : Z) :
  let s' := exec (updateNote id (val {| front := val f; back := val b |}) now) s in
  decks s' = decks s /\ cards s' = cards s /\
  Dexie.keys (notes s') = Dexie.keys (notes s) /\
  (λ n : Z * Note, note_deckId n.2) <$> rows (notes s') =
    (λ n : Z * Note, note_deckId n.2) <$> rows (notes s) /\
  export_rows s' =
    (λ n, if decide (n.1 = id)
          then {| deckName := deckName (triple_of s n);
                  row_front := f; row_back := b |}
          else triple_of s n) <$> rows (notes s).
Proof.
  intros s'. subst s'. unfold exec. rewrite exec_updateNote.
  cbn [snd decks notes cards].
  split; [done|]. split; [done|]. split; [apply keys_update|].
  unfold export_rows, Dexie.update. cbn [notes rows].
  rewrite <- !list_fmap_compose. split.
  - apply list_fmap_ext. intros i [k n] _. cbn. by case_decide.
  - apply list_fmap_ext. intros i [k n] _. cbn. by case_decide.
Qed.

(** *** The Delete Note button *)



End Handlers.
